(** * TrajectoryImageGenerator: a shallow embedding and its properties

    The Python class [TrajectoryImageGenerator] renders the frames of a
    molecular-dynamics trajectory with a pool of NGLView widgets, one worker
    thread per widget, and assembles the written images into a movie.

    The embedding follows the source method by method.  Object state is a
    record, methods are computations in a small state-and-exception monad,
    calls into external libraries (the file system, the widgets, tqdm, the
    encoder) are recorded as events, and the worker threads are given an
    interleaving small-step semantics.  Definitions come first, the
    properties after them. *)

From Stdlib Require Import ZArith NArith QArith Lia Ascii String.
From Stdlib Require Import Sorted.
From stdpp Require Import base tactics option list strings.

Local Open Scope nat_scope.

(** ** Python exceptions and results *)

Inductive exn : Type :=
  | TypeError
  | ValueError
  | SystemError
  | SystemExit
  | AttributeError.

Inductive result (A : Type) : Type :=
  | Ok (a : A)
  | Raise (e : exn).
Arguments Ok {A} a.
Arguments Raise {A} e.

(** ** numpy helpers used by [run] and [get_smooth_positions] *)

Module Numpy.

(** [l[st:en]] for non-negative bounds; out-of-range bounds are clipped. *)
Definition slice {A} (st en : nat) (l : list A) : list A :=
  take (en - st) (drop st l).

(** Python's slice normalisation of one bound against a length:
    negative bounds count from the end, everything is clipped. *)
Definition norm_bound (len : nat) (b : Z) : nat :=
  if (b <? 0)%Z then Z.to_nat (Z.max 0 (b + Z.of_nat len))
  else Nat.min len (Z.to_nat b).

(** [l[st:en]] for arbitrary integer bounds. *)
Definition zslice {A} (st en : Z) (l : list A) : list A :=
  slice (norm_bound (length l) st) (norm_bound (length l) en) l.

Fixpoint cumsum_from (acc : nat) (l : list nat) : list nat :=
  match l with
  | [] => []
  | x :: r => (acc + x) :: cumsum_from (acc + x) r
  end.

Definition cumsum : list nat -> list nat := cumsum_from 0.

(** Modelled from the spec: numpy's [array_split] is not part of the
    repository sources; this follows the "array-split" semantics of the
    dispatcher section (the first [len % N] buckets get one extra element)
    in the shape of numpy's implementation: section sizes, their running
    sums as division points, one slice per section.  A section count that
    is not positive raises [ValueError]. *)
Definition array_split {A} (ary : list A) (Nsections : nat)
  : result (list (list A)) :=
  match Nsections with
  | 0 => Raise ValueError
  | _ =>
      let Ntotal := length ary in
      let Neach_section := Ntotal / Nsections in
      let extras := Ntotal mod Nsections in
      let section_sizes :=
        0 :: replicate extras (Neach_section + 1)
          ++ replicate (Nsections - extras) Neach_section in
      let div_points := cumsum section_sizes in
      Ok (map (fun i => slice (nth i div_points 0) (nth (S i) div_points 0) ary)
              (seq 0 Nsections))
  end.

(** The section sizes of [array_split], without the leading zero. *)
Definition section_sizes (len N : nat) : list nat :=
  replicate (len mod N) (len / N + 1) ++ replicate (N - len mod N) (len / N).

End Numpy.

(** ** Frame file names: [f'frame_{i:06d}.png'] and [os.path.join] *)

Module Path.

Definition digit_char (d : N) : ascii := ascii_of_N (48 + d).

(** Decimal digits of [n], most significant first, prepended to [acc]. *)
Fixpoint decimal_go (fuel : nat) (n : N) (acc : string) : string :=
  match fuel with
  | 0 => acc
  | S fuel =>
      let acc' := String (digit_char (n mod 10)) acc in
      if (n / 10 =? 0)%N then acc' else decimal_go fuel (n / 10) acc'
  end.

(** [str(n)] for a natural number; a number has no more decimal digits
    than binary ones, so the fuel never runs out (see [decimal_value]). *)
Definition decimal (n : N) : string :=
  decimal_go (S (N.to_nat (N.size n))) n "".

Definition zeros (k : nat) : string := string_of_list_ascii (replicate k "0"%char).

(** The format specification [06d]: minimum width 6, filled with zeros
    between the sign and the digits. *)
Definition format_06d (i : Z) : string :=
  let sign := if (i <? 0)%Z then "-" else "" in
  let digits := decimal (Z.abs_N i) in
  sign +:+ zeros (6 - String.length sign - String.length digits) +:+ digits.

Definition starts_with_sep (s : string) : bool :=
  match s with
  | String "/" _ => true
  | _ => false
  end.

Fixpoint ends_with_sep (s : string) : bool :=
  match s with
  | EmptyString => false
  | String c EmptyString => if Ascii.eqb c "/" then true else false
  | String _ r => ends_with_sep r
  end.

(** [os.path.join(a, b)] on a POSIX system. *)
Definition join (a b : string) : string :=
  if starts_with_sep b then b
  else if (String.eqb a "" || ends_with_sep a)%bool then a +:+ b
  else a +:+ "/" +:+ b.

(** [os.path.join(self.image_folder, f'frame_{i:06d}.png')], the expression
    shared by [generate_images] and [make_movie]. *)
Definition frame_path (image_folder : string) (i : Z) : string :=
  join image_folder ("frame_" +:+ format_06d i +:+ ".png").

(** Reading a digit string back, for the round trip of [decimal]. *)
Definition digit_value (c : ascii) : N := (N_of_ascii c - 48)%N.

Fixpoint value_from (acc : N) (s : string) : N :=
  match s with
  | EmptyString => acc
  | String c r => value_from (10 * acc + digit_value c)%N r
  end.

Definition value (s : string) : N := value_from 0 s.

End Path.

(** ** The object model *)

(** Keyword arguments of one [view.add_representation] call. *)
Definition rep_arg : Type := list (string * string).

Inductive representation : Type :=
  | Representation (kwargs : rep_arg)
  | BallAndStick (selection : string).

(** An NGLView widget, as far as the generator drives it. *)
Record View : Type := mkView {
  view_reps : list representation;
  view_frame : option Z;
  view_closed : bool
}.

(** The tqdm bar: [n] is the counter advanced by [update]; a bar that has
    been closed is disabled. *)
Record ProgressBar : Type := mkBar {
  pb_total : nat;
  pb_n : nat;
  pb_closed : bool
}.

Inductive thread_status : Type :=
  | NotStarted
  | Running
  | Finished
  | Died (e : exn).

(** Where a worker stands inside one iteration of [generate_images].  At
    [AtStore bar n] it is inside [update], between the read of the counter
    of the bar with number [bar], which gave [n], and the write of the
    sum. *)
Inductive worker_pc : Type :=
  | AtRender
  | AtPoll
  | AtSave
  | AtUpdate
  | AtStore (bar n : nat).

(** A [threading.Thread] with target [generate_images] and arguments
    [(view, subset_indices)]; the view is named by its position in
    [self.views].  [th_todo] is the part of the bucket the loop has not
    finished, [th_async] the exception set by [PyThreadState_SetAsyncExc]
    and not yet delivered. *)
Record Thread : Type := mkThread {
  th_view : nat;
  th_bucket : list Z;
  th_ident : option nat;
  th_status : thread_status;
  th_todo : list Z;
  th_pc : worker_pc;
  th_async : option exn
}.

(** Calls that leave the object: file system, widgets, tqdm, ctypes and
    the encoder. *)
Inductive event : Type :=
  | EvMakedirs (path : string)
  | EvShowView (v : nat)
  | EvDisplay (v : nat)
  | EvViewClose (v : nat)
  | EvProgressOpen (total : nat)
  | EvProgressUpdate
  | EvProgressClose
  | EvThreadStart (t : nat)
  | EvRender (v : nat) (frame : Z)
  | EvSleep
  | EvImsave (path : string)
  | EvSetAsyncExc (tid : nat) (exc : option exn)
  | EvWriteVideo (image_files : list string) (fps : Z) (output_file codec : string).

(** Values that reach the parameters of [_stop_thread]. *)
Inductive pyobj : Type :=
  | ObjSelf
  | ObjThread (t : nat).

Section Generator.

(** The row of one atom in one frame, the mean over a list of such rows
    ([np.mean] along the frame axis) and the zero row of [np.zeros_like]
    are left abstract: nothing below depends on floating-point arithmetic.
    [tqdm_bool] is the truth value tqdm gives a bar in [if self.progress_bar:]. *)
Context {V : Type} (mean : list V -> V) (zero : V).
Context (tqdm_bool : ProgressBar -> bool).

(** An MDAnalysis universe: every frame holds one row per atom.
    [in_memory] tells whether the trajectory is held in memory (a
    [MemoryReader], as after [transfer_to_memory()]) or is read from its
    file frame by frame. *)
Record Trajectory : Type := mkTraj {
  n_atoms : nat;
  frames : list (list V);
  in_memory : bool
}.

Record Generator : Type := mkGen {
  traj : Trajectory;
  smoothing_window : Z;
  image_folder : string;
  indices : list Z;
  views : list View;
  progress_bar : option ProgressBar;
  num_views : Z;
  rep_args : option (list rep_arg);
  selection : option string;
  threads : list Thread
}.

Record World : Type := mkWorld {
  self : Generator;
  events : list event
}.

(** *** Field updates *)

Definition set_traj (u : Trajectory) (g : Generator) : Generator :=
  mkGen u (smoothing_window g) (image_folder g) (indices g) (views g)
        (progress_bar g) (num_views g) (rep_args g) (selection g) (threads g).

Definition set_views (vs : list View) (g : Generator) : Generator :=
  mkGen (traj g) (smoothing_window g) (image_folder g) (indices g) vs
        (progress_bar g) (num_views g) (rep_args g) (selection g) (threads g).

Definition set_progress_bar (pb : option ProgressBar) (g : Generator) : Generator :=
  mkGen (traj g) (smoothing_window g) (image_folder g) (indices g) (views g)
        pb (num_views g) (rep_args g) (selection g) (threads g).

Definition set_threads (ts : list Thread) (g : Generator) : Generator :=
  mkGen (traj g) (smoothing_window g) (image_folder g) (indices g) (views g)
        (progress_bar g) (num_views g) (rep_args g) (selection g) ts.

(** *** Computations: state, events and exceptions *)

Definition py (A : Type) : Type := World -> result A * World.

Definition ret {A} (a : A) : py A := fun w => (Ok a, w).

Definition bind {A B} (m : py A) (k : A -> py B) : py B :=
  fun w =>
    match m w with
    | (Ok a, w') => k a w'
    | (Raise e, w') => (Raise e, w')
    end.

Definition raise {A} (e : exn) : py A := fun w => (Raise e, w).

Definition get : py Generator := fun w => (Ok (self w), w).

Definition modify (f : Generator -> Generator) : py unit :=
  fun w => (Ok tt, mkWorld (f (self w)) (events w)).

Definition emit (ev : event) : py unit :=
  fun w => (Ok tt, mkWorld (self w) (events w ++ [ev])).

Definition lift {A} (r : result A) : py A := fun w => (r, w).

(** [try: m except exc: handler] *)
Definition try_except (m : py unit) (catches : exn -> bool) (handler : py unit)
  : py unit :=
  fun w =>
    match m w with
    | (Raise e, w') => if catches e then handler w' else (Raise e, w')
    | ok => ok
    end.

Fixpoint for_each {A} (l : list A) (body : A -> py unit) : py unit :=
  match l with
  | [] => ret tt
  | x :: r => bind (body x) (fun _ => for_each r body)
  end.

Notation "x <- m ;; k" := (bind m (fun x => k))
  (at level 100, m at next level, right associativity).
Notation "m ;;; k" := (bind m (fun _ => k))
  (at level 100, right associativity).

(** *** Smoothing *)

(** [trajectory.timeseries()]: the positions as an array indexed by atom,
    then frame, the layout the indexing [[:, i, :]] of the loop below
    assumes. *)
Definition timeseries (u : Trajectory) : list (list V) :=
  map (fun a => map (fun f => nth a f zero) (frames u)) (seq 0 (n_atoms u)).

Definition zeros_like (arr : list (list V)) : list (list V) :=
  map (map (fun _ => zero)) arr.

(** [arr[:, i, :] = col] *)
Definition set_column (i : nat) (col : list V) (arr : list (list V))
  : list (list V) :=
  zip_with (fun row v => <[i := v]> row) arr col.

(** [arr[:, i, :]] *)
Definition get_column (i : nat) (arr : list (list V)) : list V :=
  map (fun row => nth i row zero) arr.

Definition window_start (w : Z) (i : nat) : Z :=
  Z.max 0 (Z.of_nat i - w / 2).

Definition window_end (w : Z) (T i : nat) : Z :=
  Z.min (Z.of_nat T) (Z.of_nat i + w / 2 + 1).

Definition get_smooth_positions (g : Generator) : list (list V) :=
  let T := length (frames (traj g)) in
  fold_left
    (fun smoothed_positions i =>
       let start := window_start (smoothing_window g) i in
       let end_ := window_end (smoothing_window g) T i in
       set_column i
         (map mean (map (Numpy.zslice start end_) (timeseries (traj g))))
         smoothed_positions)
    (seq 0 T)
    (zeros_like (timeseries (traj g))).

(** The loop assigns [ts.positions] for every frame.  On a trajectory in
    memory the timestep is a view of the stored array and the assignment
    writes through to it.  On a trajectory read from a file the timestep is
    the buffer of the reader: reading the next frame overwrites it, the
    file is not touched, and when the loop is over every frame reads as it
    did before. *)
Definition smooth_trajectory : py unit :=
  g <- get ;;
  let smoothed_positions := get_smooth_positions g in
  modify (fun g =>
    if in_memory (traj g) then
      set_traj (mkTraj (n_atoms (traj g))
                  (imap (fun i _ => get_column i smoothed_positions)
                        (frames (traj g)))
                  (in_memory (traj g))) g
    else g).

(** *** Views *)

Definition new_view (g : Generator) : View :=
  mkView
    (match rep_args g with
     | Some l => map Representation l
     | None => []
     end
     ++ match selection g with
        | None => [BallAndStick "protein"; BallAndStick "nucleic"]
        | Some s => [BallAndStick s]
        end)
    None false.

Definition create_views : py unit :=
  g0 <- get ;;
  for_each (seq 0 (Z.to_nat (num_views g0))) (fun _ =>
    g <- get ;;
    let v := length (views g) in
    emit (EvShowView v) ;;;
    modify (set_views (views g ++ [new_view g])) ;;;
    emit (EvDisplay v)).

(** *** Construction *)

Definition blank (traj0 : Trajectory) (image_folder0 : string)
    (indices0 : list Z) (smoothing_window0 num_views0 : Z)
    (rep_args0 : option (list rep_arg)) (selection0 : option string)
  : World :=
  mkWorld (mkGen traj0 smoothing_window0 image_folder0 indices0 [] None
             num_views0 rep_args0 selection0 []) [].

Definition init_body : py unit :=
  g <- get ;;
  (if (1 <? smoothing_window g)%Z then smooth_trajectory else ret tt) ;;;
  emit (EvMakedirs (image_folder g)) ;;;
  create_views.

(** [TrajectoryImageGenerator(traj, image_folder, indices, smoothing_window,
    num_views, rep_args, selection)] *)
Definition init (traj0 : Trajectory) (image_folder0 : string)
    (indices0 : list Z) (smoothing_window0 num_views0 : Z)
    (rep_args0 : option (list rep_arg)) (selection0 : option string)
  : result unit * World :=
  init_body (blank traj0 image_folder0 indices0 smoothing_window0 num_views0
               rep_args0 selection0).

(** *** Dispatch *)

Definition start (th : Thread) (ident : nat) : Thread :=
  mkThread (th_view th) (th_bucket th) (Some ident) Running (th_todo th)
           (th_pc th) (th_async th).

(** [thread.start()].  The identifier a started thread gets is taken to be
    its position in [self.threads]: it differs from that of every other
    thread, as the interpreter guarantees among the threads alive at the
    same time.  That an identifier can be given out again after its thread
    has ended is not represented; what is proved about identifiers of
    threads that have ended says so. *)
Definition start_thread (t : nat) : py unit :=
  modify (fun g => set_threads (alter (fun th => start th t) t (threads g)) g) ;;;
  emit (EvThreadStart t).

Definition new_thread (view : nat) (subset_indices : list Z) : Thread :=
  mkThread view subset_indices None NotStarted subset_indices AtRender None.

Definition run : py unit :=
  g <- get ;;
  indices_split <- lift (Numpy.array_split (indices g) (length (views g))) ;;
  modify (set_progress_bar (Some (mkBar (length (indices g)) 0 false))) ;;;
  emit (EvProgressOpen (length (indices g))) ;;;
  for_each (zip (seq 0 (length (views g))) indices_split)
    (fun '(view, subset_indices) =>
       g <- get ;;
       let t := length (threads g) in
       modify (set_threads (threads g ++ [new_thread view subset_indices])) ;;;
       start_thread t).

(** *** Forced stop *)

Definition is_target (tid : nat) (th : Thread) : bool :=
  match th_status th, th_ident th with
  | Running, Some i => i =? tid
  | _, _ => false
  end.

Definition set_async (exc : option exn) (th : Thread) : Thread :=
  mkThread (th_view th) (th_bucket th) (th_ident th) (th_status th)
           (th_todo th) (th_pc th) exc.

(** [PyThreadState_SetAsyncExc(tid, exc)]: sets the pending exception of
    every live thread state with that id and returns how many it found. *)
Definition SetAsyncExc (tid : nat) (exc : option exn) : py nat :=
  g <- get ;;
  modify (set_threads
            (map (fun th => if is_target tid th then set_async exc th else th)
                 (threads g))) ;;;
  emit (EvSetAsyncExc tid exc) ;;;
  ret (length (filter (fun th => is_target tid th = true) (threads g))).

(** [_async_raise(tid, exctype)]; [ctypes.c_long(None)] is a [TypeError]. *)
Definition _async_raise (tid : option nat) (exctype : exn) : py unit :=
  match tid with
  | None => raise TypeError
  | Some tid =>
      res <- SetAsyncExc tid (Some exctype) ;;
      if res =? 0 then raise ValueError
      else if negb (res =? 1) then
        (_ <- SetAsyncExc tid None ;; raise SystemError)
      else ret tt
  end.

(** [_stop_thread] is a [staticmethod] with the two parameters
    [(self, thread)]: nothing is bound implicitly, so the argument list of
    the call must supply both. *)
Definition _stop_thread (args : list pyobj) : py unit :=
  match args with
  | [self_; thread] =>
      match self_, thread with
      | ObjSelf, ObjThread t =>
          g <- get ;;
          match threads g !! t with
          | Some th => _async_raise (th_ident th) SystemExit
          | None => raise AttributeError
          end
      | _, _ => raise AttributeError
      end
  | _ => raise TypeError
  end.

(** *** Teardown *)

Definition close_bar (pb : ProgressBar) : ProgressBar :=
  mkBar (pb_total pb) (pb_n pb) true.

Definition close_view (v : View) : View :=
  mkView (view_reps v) (view_frame v) true.

Definition is_TypeError (e : exn) : bool :=
  match e with
  | TypeError => true
  | _ => false
  end.

(** The statement in the last loop of [cleanup], for the thread at
    position [t] of [self.threads]:
    [try: self._stop_thread(thread)] / [except TypeError: continue]. *)
Definition stop_attempt (t : nat) : py unit :=
  try_except (_stop_thread [ObjThread t]) is_TypeError (ret tt).

Definition cleanup : py unit :=
  g <- get ;;
  match progress_bar g with
  | Some pb =>
      if tqdm_bool pb then
        modify (set_progress_bar (Some (close_bar pb))) ;;; emit EvProgressClose
      else ret tt
  | None => ret tt
  end ;;;
  for_each (seq 0 (length (views g))) (fun v =>
    modify (fun g => set_views (alter close_view v (views g)) g) ;;;
    emit (EvViewClose v)) ;;;
  for_each (seq 0 (length (threads g))) stop_attempt.

(** *** Movie *)

Definition make_movie (output_file : string) (fps : Z) : py unit :=
  g <- get ;;
  let image_files := map (Path.frame_path (image_folder g)) (indices g) in
  emit (EvWriteVideo image_files fps output_file "libx264").

(** *** Worker threads

    One step of the thread [t] running [generate_images(view, subset)].
    What the environment decides (the widget has or has not delivered the
    image yet, an external call raises) is the [env_choice].  An exception
    set from outside is delivered before anything else; [update] raises,
    if it does, before it has read the counter or after it has written it
    (when it draws the bar). *)

Inductive env_choice : Type :=
  | Proceed
  | NotReady
  | Fails (e : exn).

Definition set_status (st : thread_status) (th : Thread) : Thread :=
  mkThread (th_view th) (th_bucket th) (th_ident th) st (th_todo th)
           (th_pc th) (th_async th).

Definition set_pc (pc : worker_pc) (th : Thread) : Thread :=
  mkThread (th_view th) (th_bucket th) (th_ident th) (th_status th)
           (th_todo th) pc (th_async th).

Definition next_frame (th : Thread) : Thread :=
  mkThread (th_view th) (th_bucket th) (th_ident th) (th_status th)
           (tail (th_todo th)) AtRender (th_async th).

Definition point_at (i : Z) (v : View) : View :=
  mkView (view_reps v) (Some i) (view_closed v).

Definition put_thread (t : nat) (th : Thread) (w : World) : World :=
  mkWorld (set_threads (<[t := th]> (threads (self w))) (self w)) (events w).

Definition log (ev : event) (w : World) : World :=
  mkWorld (self w) (events w ++ [ev]).

(** [update(n)] of tqdm is not one step.  On a bar that has been closed it
    returns at once ([if self.disable: return]); otherwise it reads the
    counter and then writes the sum back ([self.n += n], under no lock), so
    that other threads can run between the read and the write. *)
Definition update_reads (pb : ProgressBar) : option nat :=
  if pb_closed pb then None else Some (pb_n pb).

Definition update_writes (read n : nat) (pb : ProgressBar) : ProgressBar :=
  mkBar (pb_total pb) (read + n) (pb_closed pb).

(** Bars are told apart by their number in the order [run] created them. *)
Definition is_progress_open (ev : event) : bool :=
  match ev with
  | EvProgressOpen _ => true
  | _ => false
  end.

Definition bars_created (w : World) : nat :=
  length (filter (fun ev => is_progress_open ev = true) (events w)).

(** The second half of [update(1)] in the thread [t]: the write of [n + 1]
    to the bar number [bar], the one the call was made on.  When [run] has
    replaced that bar since, it is no longer [self.progress_bar] and the
    write shows nowhere.  With the write the iteration is over; [st] is the
    status the thread goes on with. *)
Definition bar_after_store (bar n : nat) (w : World) : option ProgressBar :=
  match progress_bar (self w) with
  | Some pb =>
      if bar =? bars_created w then Some (update_writes n 1 pb) else Some pb
  | None => None
  end.

Definition store_count (t : nat) (th : Thread) (bar n : nat)
    (st : thread_status) (w : World) : World :=
  let w1 := put_thread t (set_status st (next_frame th)) w in
  mkWorld (set_progress_bar (bar_after_store bar n w) (self w1)) (events w1).

Definition worker_step (t : nat) (c : env_choice) (w : World) : option World :=
  match threads (self w) !! t with
  | None => None
  | Some th =>
      match th_status th, th_async th, th_todo th with
      | Running, Some e, _ => Some (put_thread t (set_status (Died e) th) w)
      | Running, None, [] => Some (put_thread t (set_status Finished th) w)
      | Running, None, i :: _ =>
          match th_pc th, c with
          | AtStore bar n, Fails e => Some (store_count t th bar n (Died e) w)
          | AtStore bar n, _ => Some (store_count t th bar n Running w)
          | _, Fails e => Some (put_thread t (set_status (Died e) th) w)
          | AtRender, _ =>
              let w1 := put_thread t (set_pc AtPoll th) w in
              Some (log (EvRender (th_view th) i)
                      (mkWorld (set_views (alter (point_at i) (th_view th)
                                             (views (self w1))) (self w1))
                               (events w1)))
          | AtPoll, NotReady => Some (log EvSleep w)
          | AtPoll, _ => Some (put_thread t (set_pc AtSave th) w)
          | AtSave, _ =>
              Some (log (EvImsave (Path.frame_path (image_folder (self w)) i))
                      (put_thread t (set_pc AtUpdate th) w))
          | AtUpdate, _ =>
              match progress_bar (self w) with
              | Some pb =>
                  match update_reads pb with
                  | Some n =>
                      Some (log EvProgressUpdate
                              (put_thread t
                                 (set_pc (AtStore (bars_created w) n) th) w))
                  | None =>
                      Some (log EvProgressUpdate (put_thread t (next_frame th) w))
                  end
              | None => Some (put_thread t (set_status (Died AttributeError) th) w)
              end
          end
      | _, _, _ => None
      end
  end.

(** *** The caller and the workers together

    After a dispatch the caller may call [cleanup] and [make_movie] while
    the workers run. *)

Inductive action : Type :=
  | Worker (t : nat) (c : env_choice)
  | CallCleanup
  | CallMakeMovie (output_file : string) (fps : Z).

Definition act (a : action) (w : World) : option World :=
  match a with
  | Worker t c => worker_step t c w
  | CallCleanup => Some (snd (cleanup w))
  | CallMakeMovie output_file fps => Some (snd (make_movie output_file fps w))
  end.

(** Running a schedule of actions. *)
Fixpoint exec (schedule : list action) (w : World) : option World :=
  match schedule with
  | [] => Some w
  | a :: rest =>
      match act a w with
      | Some w' => exec rest w'
      | None => None
      end
  end.

(** *** Observations *)

(** The value of the progress counter. *)
Definition counter (w : World) : nat :=
  match progress_bar (self w) with
  | Some pb => pb_n pb
  | None => 0
  end.

Definition is_imsave (ev : event) : bool :=
  match ev with
  | EvImsave _ => true
  | _ => false
  end.

Definition is_makedirs (ev : event) : bool :=
  match ev with
  | EvMakedirs _ => true
  | _ => false
  end.

(** Frames written so far. *)
Definition saved (w : World) : nat :=
  length (filter (fun ev => is_imsave ev = true) (events w)).

(** A worker inside [update], between its read and its write. *)
Definition is_storing (th : Thread) : bool :=
  match th_status th, th_pc th with
  | Running, AtStore _ _ => true
  | _, _ => false
  end.

Definition in_flight (ts : list Thread) : nat :=
  length (filter (fun th => is_storing th = true) ts).

(** The bar is open and no two updates overlap: at most one worker is
    between the read and the write. *)
Definition orderly (w : World) : bool :=
  match progress_bar (self w) with
  | Some pb => negb (pb_closed pb) && (in_flight (threads (self w)) <=? 1)
  | None => false
  end.

(** The same of every state a schedule goes through. *)
Fixpoint orderly_run (schedule : list action) (w : World) : bool :=
  orderly w
  && match schedule with
     | [] => true
     | a :: rest =>
         match act a w with
         | Some w' => orderly_run rest w'
         | None => true
         end
     end.

Definition makedirs_calls (evs : list event) : nat :=
  length (filter (fun ev => is_makedirs ev = true) evs).

(** The events a computation adds when run in [w]. *)
Definition emitted_by {A} (m : py A) (w : World) : list event :=
  drop (length (events w)) (events (snd (m w))).

Definition raises {A} (r : result A * World) : Prop :=
  exists e, fst r = Raise e.

(** The workers registered after the first [k] have all returned. *)
Definition workers_finished (k : nat) (w : World) : Prop :=
  Forall (fun th => th_status th = Finished) (drop k (threads (self w))).

(** *** Closed forms of the loops, and the invariant of a dispatch *)

(** The threads appended by the loop of [run], the first of them at
    position [t] of [self.threads]. *)
Fixpoint started_from (t : nat) (pairs : list (nat * list Z)) : list Thread :=
  match pairs with
  | [] => []
  | (view, subset_indices) :: r =>
      start (new_thread view subset_indices) t :: started_from (S t) r
  end.

(** The bodies of the three [for] loops. *)
Definition dispatch_body : nat * list Z -> py unit :=
  fun '(view, subset_indices) =>
    bind get (fun g =>
      bind (modify (set_threads (threads g ++ [new_thread view subset_indices])))
           (fun _ => start_thread (length (threads g)))).

Definition create_body : nat -> py unit :=
  fun _ =>
    bind get (fun g =>
      bind (emit (EvShowView (length (views g)))) (fun _ =>
        bind (modify (set_views (views g ++ [new_view g]))) (fun _ =>
          emit (EvDisplay (length (views g)))))).

Definition close_body : nat -> py unit :=
  fun v =>
    bind (modify (fun g => set_views (alter close_view v (views g)) g))
         (fun _ => emit (EvViewClose v)).

(** The events of creating [n] views, the first at position [v]. *)
Fixpoint view_events (v n : nat) : list event :=
  match n with
  | 0 => []
  | S n => EvShowView v :: EvDisplay v :: view_events (S v) n
  end.

(** The value [get_smooth_positions] stores for one atom row at frame [i]. *)
Definition smoothed_entry (sw : Z) (T : nat) (row : list V) (i : nat) : V :=
  mean (Numpy.zslice (window_start sw i) (window_end sw T i) row).

(** The trajectory a constructed generator holds. *)
Definition constructed_traj (traj0 : Trajectory) (sw : Z) (w0 : World)
  : Trajectory :=
  if (1 <? sw)%Z then traj (self (snd (smooth_trajectory w0)))
  else traj0.

(** The bar after the first statement of [cleanup], and what it emits. *)
Definition bar_after_cleanup (pb : option ProgressBar) : option ProgressBar :=
  match pb with
  | Some pb => if tqdm_bool pb then Some (close_bar pb) else Some pb
  | None => None
  end.

Definition bar_close_events (pb : option ProgressBar) : list event :=
  match pb with
  | Some pb => if tqdm_bool pb then [EvProgressClose] else []
  | None => []
  end.

(** Frames the threads [ts] still have to do. *)
Definition remaining (ts : list Thread) : nat :=
  sum_list (map (fun th => length (th_todo th)) ts).

Definition no_imsave (evs : list event) : Prop :=
  Forall (fun ev => is_imsave ev = false) evs.

(** What holds in every state of one dispatch over the index list [L],
    when [k] threads were registered before it and none of them was
    running: the counter, and every value a worker has read from it and
    not yet written back, is at most the number of frames that are
    finished. *)
Record dispatch_inv (L : list Z) (k : nat) (w : World) : Prop := {
  inv_earlier :
    Forall (fun th => th_status th <> Running) (take k (threads (self w)));
  inv_total : counter w + remaining (drop k (threads (self w))) <= length L;
  inv_read :
    Forall (fun th => forall bar n, th_pc th = AtStore bar n ->
              n + remaining (drop k (threads (self w))) <= length L)
           (drop k (threads (self w)));
  inv_finished :
    Forall (fun th => th_status th = Finished -> th_todo th = [])
           (drop k (threads (self w)))
}.

(** What holds besides while the bar is open and no two updates overlap:
    the counter is the number of frames that are finished, and a worker
    between read and write has read the present value from the present
    bar. *)
Record serial_inv (L : list Z) (k : nat) (w : World) : Prop := {
  ser_total : counter w + remaining (drop k (threads (self w))) = length L;
  ser_read :
    Forall (fun th => th_status th = Running ->
              forall bar n, th_pc th = AtStore bar n ->
                bar = bars_created w /\ n = counter w)
           (drop k (threads (self w)))
}.

End Generator.

Arguments Generator : clear implicits.
Arguments World : clear implicits.
Arguments Trajectory : clear implicits.

(** ** Reading the specification's words *)

Module Spec.

(** A partition of [L] into [N] buckets in the array-split sense: [N]
    buckets; their concatenation in bucket order is [L]; bucket [b] has
    [len / N] elements plus one more when [b < len mod N]; any two bucket
    sizes differ by at most one; and every position of [L] is the position
    of exactly one place [(b, j)] of one bucket. *)
Definition array_split_partition {A} (L : list A) (N : nat)
    (buckets : list (list A)) : Prop :=
  length buckets = N
  /\ concat buckets = L
  /\ (forall b bucket, buckets !! b = Some bucket ->
        length bucket = length L / N + (if b <? length L mod N then 1 else 0))
  /\ (forall b1 b2 k1 k2, buckets !! b1 = Some k1 -> buckets !! b2 = Some k2 ->
        length k1 <= length k2 + 1)
  /\ (forall k x, L !! k = Some x ->
        exists! bj : nat * nat,
          exists bucket, buckets !! (fst bj) = Some bucket
            /\ bucket !! (snd bj) = Some x
            /\ k = length (concat (take (fst bj) buckets)) + snd bj).

(** With more buckets than elements every bucket is empty or a singleton. *)
Definition at_most_singletons {A} (buckets : list (list A)) : Prop :=
  forall bucket, bucket ∈ buckets -> length bucket <= 1.

(** The frames of [fs], numbered from [k], whose number lies in the
    half-open interval from [lo] to [hi]. *)
Fixpoint frames_from {A} (k lo hi : Z) (fs : list A) : list A :=
  match fs with
  | [] => []
  | f :: r =>
      if ((lo <=? k) && (k <? hi))%Z%bool
      then f :: frames_from (k + 1) lo hi r
      else frames_from (k + 1) lo hi r
  end.

(** Frames [lo, hi) of a trajectory. *)
Definition frames_in {A} (lo hi : Z) (fs : list A) : list A :=
  frames_from 0 lo hi fs.

(** Frames [lo, hi], both ends included. *)
Definition frames_between {A} (lo hi : Z) (fs : list A) : list A :=
  frames_in lo (hi + 1) fs.

(** The mean of the position arrays of the frames [fs], atom by atom
    ([np.mean(positions, axis=0)] over the stacked frames). *)
Definition mean_positions {V} (mean : list V -> V) (zero : V) (n_atoms : nat)
    (fs : list (list V)) : list V :=
  map (fun a => mean (map (fun f => nth a f zero) fs)) (seq 0 n_atoms).

End Spec.

(** ** A concrete generator, over exact rationals *)

Module Example.

Definition Qmean (l : list Q) : Q :=
  Qred (fold_right Qplus 0%Q l / inject_Z (Z.of_nat (length l))).

(** tqdm's truth value: a bar with a known total is true when the total is
    positive. *)
Definition tqdm_bool (pb : ProgressBar) : bool := 0 <? pb_total pb.

(** Five frames of two atoms, held in memory. *)
Definition universe : Trajectory Q :=
  mkTraj 2 [[1%Q; 2%Q]; [3%Q; 4%Q]; [5%Q; 9%Q]; [7%Q; 0%Q]; [2%Q; 2%Q]] true.

(** The same trajectory, read from its file. *)
Definition universe_on_file : Trajectory Q :=
  mkTraj (n_atoms universe) (frames universe) false.

Definition frame_indices : list Z := [0; 2; 4; 6; 8; 10; 12]%Z.

(** Three views, smoothing window 3. *)
Definition constructed : World Q :=
  snd (init Qmean 0%Q universe "frames" frame_indices 3 3 None None).

Definition dispatched : World Q := snd (run constructed).

(** No view requested. *)
Definition no_views : result unit * World Q :=
  init Qmean 0%Q universe "frames" frame_indices 3 0 None None.

(** Every worker renders, polls once in vain, saves and counts each of
    its frames (the count is a read and a write), then returns. *)
Definition one_frame (t : nat) : list action :=
  [Worker t Proceed; Worker t NotReady; Worker t Proceed; Worker t Proceed;
   Worker t Proceed; Worker t Proceed].

Definition full_schedule : list action :=
  one_frame 0 ++ one_frame 1 ++ one_frame 2 ++ one_frame 1 ++ one_frame 0
  ++ one_frame 2 ++ one_frame 0
  ++ [Worker 0 Proceed; Worker 1 Proceed; Worker 2 Proceed].

(** The generator before construction has smoothed or created anything. *)
Definition raw : World Q :=
  blank universe "frames" frame_indices 3 3 None None.

Definition raw_on_file : World Q :=
  blank universe_on_file "frames" frame_indices 3 3 None None.

(** The state after every worker has finished. *)
Definition completed : World Q :=
  match exec tqdm_bool full_schedule dispatched with
  | Some w => w
  | None => dispatched
  end.

(** The same on a bar that has been closed, where [update] returns at
    once. *)
Definition one_frame_uncounted (t : nat) : list action :=
  [Worker t Proceed; Worker t NotReady; Worker t Proceed; Worker t Proceed;
   Worker t Proceed].

Definition full_schedule_uncounted : list action :=
  one_frame_uncounted 0 ++ one_frame_uncounted 1 ++ one_frame_uncounted 2
  ++ one_frame_uncounted 1 ++ one_frame_uncounted 0 ++ one_frame_uncounted 2
  ++ one_frame_uncounted 0
  ++ [Worker 0 Proceed; Worker 1 Proceed; Worker 2 Proceed].

(** The state after a call of [cleanup] before the workers have done
    anything, and the workers then running to their end. *)
Definition torn_down_early : World Q :=
  match exec tqdm_bool (CallCleanup :: full_schedule_uncounted) dispatched with
  | Some w => w
  | None => dispatched
  end.

Definition finished_worker : Thread :=
  mkThread 0 [0; 2; 4]%Z (Some 0) Finished [] AtRender None.

End Example.

(** ** Natural sorting: [sorted_alphanumeric]

    Strings are sequences of code points below 256, that is Latin-1 text;
    on it [str.isdigit], [str.lower], [int] and the pattern [[0-9]+] are
    as below.  Text beyond Latin-1 is not represented: it has digits (the
    fullwidth ones, for one) that [str.isdigit] and [int] accept and the
    pattern does not cut out, and what is proved here does not extend to
    it. *)

Module Natural.

Definition code (c : ascii) : N := N_of_ascii c.

(** The class [[0-9]] of the pattern. *)
Definition is_ascii_digit (c : ascii) : bool :=
  ((48 <=? code c) && (code c <=? 57))%N.

(** The superscripts two, three and one, which [str.isdigit] accepts and
    [int] does not. *)
Definition is_superscript (c : ascii) : bool :=
  ((code c =? 178) || (code c =? 179) || (code c =? 185))%N.

Definition char_isdigit (c : ascii) : bool :=
  is_ascii_digit c || is_superscript c.

Fixpoint all_chars (p : ascii -> bool) (s : string) : bool :=
  match s with
  | EmptyString => true
  | String c r => p c && all_chars p r
  end.

Definition nonempty (s : string) : bool :=
  match s with
  | EmptyString => false
  | String _ _ => true
  end.

(** [text.isdigit()] *)
Definition isdigit (text : string) : bool :=
  nonempty text && all_chars char_isdigit text.

Definition char_lower (c : ascii) : ascii :=
  if (((65 <=? code c) && (code c <=? 90))
      || ((192 <=? code c) && (code c <=? 222) && negb (code c =? 215)))%N
  then ascii_of_N (code c + 32)
  else c.

(** [text.lower()] *)
Fixpoint lower (text : string) : string :=
  match text with
  | EmptyString => EmptyString
  | String c r => String (char_lower c) (lower r)
  end.

(** [int(text)] for a text that passed [isdigit]: decimal digits give the
    number, anything else is an invalid literal.  Recent interpreters refuse
    by default to convert more than [max_str_digits] digits; the properties
    below that depend on the conversion are stated for strings within that
    length, on which all interpreters agree. *)
Definition int (text : string) : result N :=
  if all_chars is_ascii_digit text then Ok (Path.value text)
  else Raise ValueError.

Definition max_str_digits : nat := 4300.

(** [re.split('([0-9]+)', key)]: the text before the first run of digits,
    that run, the text up to the next run, and so on to the text after the
    last run; texts may be empty. *)
Fixpoint re_split (key : string) : list string :=
  match key with
  | EmptyString => [EmptyString]
  | String c r =>
      match re_split r with
      | t :: tl =>
          if is_ascii_digit c then
            match t, tl with
            | EmptyString, d :: tl' => EmptyString :: String c d :: tl'
            | _, _ => EmptyString :: String c EmptyString :: t :: tl
            end
          else String c t :: tl
      | [] => [String c EmptyString]
      end
  end.

(** The elements of a key: numbers and lower-cased texts. *)
Inductive keypart : Type :=
  | KInt (n : N)
  | KStr (s : string).

(** [convert = lambda text: int(text) if text.isdigit() else text.lower()] *)
Definition convert (text : string) : result keypart :=
  if isdigit text then
    match int text with
    | Ok n => Ok (KInt n)
    | Raise e => Raise e
    end
  else Ok (KStr (lower text)).

(** A list comprehension over a function that may raise. *)
Fixpoint map_result {A B} (f : A -> result B) (l : list A) : result (list B) :=
  match l with
  | [] => Ok []
  | x :: r =>
      match f x with
      | Raise e => Raise e
      | Ok y =>
          match map_result f r with
          | Raise e => Raise e
          | Ok ys => Ok (y :: ys)
          end
      end
  end.

(** [alphanum_key = lambda key: [convert(c) for c in re.split(...)]] *)
Definition alphanum_key (key : string) : result (list keypart) :=
  map_result convert (re_split key).

(** Comparison of strings by code points. *)
Fixpoint str_ltb (a b : string) : bool :=
  match a, b with
  | EmptyString, EmptyString => false
  | EmptyString, String _ _ => true
  | String _ _, EmptyString => false
  | String x a', String y b' =>
      if (code x =? code y)%N then str_ltb a' b' else (code x <? code y)%N
  end.

(** [==] and [<] on the elements of a key: a number never equals a text,
    and ordering one against the other is a [TypeError]. *)
Definition part_eqb (a b : keypart) : bool :=
  match a, b with
  | KInt x, KInt y => (x =? y)%N
  | KStr x, KStr y => String.eqb x y
  | _, _ => false
  end.

Definition part_lt (a b : keypart) : result bool :=
  match a, b with
  | KInt x, KInt y => Ok (x <? y)%N
  | KStr x, KStr y => Ok (str_ltb x y)
  | _, _ => Raise TypeError
  end.

(** [<] on lists: the first pair of unequal elements decides, a proper
    prefix is smaller. *)
Fixpoint key_lt (a b : list keypart) : result bool :=
  match a, b with
  | [], [] => Ok false
  | [], _ :: _ => Ok true
  | _ :: _, [] => Ok false
  | x :: a', y :: b' => if part_eqb x y then key_lt a' b' else part_lt x y
  end.

(** [sorted] is stable; it is taken as insertion from the right, each
    element going behind the elements smaller than itself. *)
Fixpoint insert_sorted {K A} (lt : K -> K -> result bool) (x : K * A)
    (l : list (K * A)) : result (list (K * A)) :=
  match l with
  | [] => Ok [x]
  | y :: r =>
      match lt (fst y) (fst x) with
      | Raise e => Raise e
      | Ok true =>
          match insert_sorted lt x r with
          | Raise e => Raise e
          | Ok r' => Ok (y :: r')
          end
      | Ok false => Ok (x :: y :: r)
      end
  end.

Fixpoint sort_pairs {K A} (lt : K -> K -> result bool) (l : list (K * A))
  : result (list (K * A)) :=
  match l with
  | [] => Ok []
  | x :: r =>
      match sort_pairs lt r with
      | Raise e => Raise e
      | Ok r' => insert_sorted lt x r'
      end
  end.

(** [sorted(list, key=alphanum_key)]: the keys of all elements are computed
    first. *)
Definition sorted_alphanumeric (list : Datatypes.list string)
  : result (Datatypes.list string) :=
  match map_result alphanum_key list with
  | Raise e => Raise e
  | Ok keys =>
      match sort_pairs key_lt (zip keys list) with
      | Raise e => Raise e
      | Ok pairs => Ok (map snd pairs)
      end
  end.

(** The same insertion on integers, for comparison. *)
Fixpoint insert_index (x : Z) (l : list Z) : list Z :=
  match l with
  | [] => [x]
  | y :: r => if (y <? x)%Z then y :: insert_index x r else x :: y :: r
  end.

Fixpoint sort_indices (l : list Z) : list Z :=
  match l with
  | [] => []
  | x :: r => insert_index x (sort_indices r)
  end.

(** Shape of the result of [re_split]: texts without a digit at the even
    positions, non-empty runs of digits at the odd ones. *)
Fixpoint alternates (pieces : list string) : Prop :=
  match pieces with
  | [] => False
  | [t] => all_chars (fun c => negb (is_ascii_digit c)) t = true
  | t :: d :: rest =>
      all_chars (fun c => negb (is_ascii_digit c)) t = true
      /\ nonempty d = true /\ all_chars is_ascii_digit d = true
      /\ alternates rest
  end.

(** Putting the pieces together again. *)
Definition join_pieces (pieces : list string) : string :=
  fold_right String.append EmptyString pieces.

(** Shape of a key: texts at the even positions, numbers at the odd ones. *)
Fixpoint key_shape (expect_text : bool) (k : list keypart) : Prop :=
  match k with
  | [] => True
  | KStr _ :: r => expect_text = true /\ key_shape false r
  | KInt _ :: r => expect_text = false /\ key_shape true r
  end.

Definition same_kind (x y : keypart) : Prop :=
  match x, y with
  | KInt _, KInt _ | KStr _, KStr _ => True
  | _, _ => False
  end.

(** Equality of keys is decidable. *)
#[global] Instance exn_eq_dec : EqDecision exn.
Proof. solve_decision. Defined.

#[global] Instance result_eq_dec {A} `{EqDecision A} : EqDecision (result A).
Proof. solve_decision. Defined.

#[global] Instance keypart_eq_dec : EqDecision keypart.
Proof. solve_decision. Defined.

(** A list of strings is in natural order when no later key is smaller
    than an earlier one. *)
Definition in_natural_order (l : list string) : Prop :=
  forall i j a b, i < j -> l !! i = Some a -> l !! j = Some b ->
    exists ka kb, alphanum_key a = Ok ka /\ alphanum_key b = Ok kb
                  /\ key_lt kb ka = Ok false.

(** Order of two (key, element) pairs, and pairs that carry the key of
    their element. *)
Definition pair_le {A} (p q : list keypart * A) : Prop :=
  key_lt (fst q) (fst p) = Ok false.

Definition keyed (p : list keypart * string) : Prop :=
  alphanum_key (snd p) = Ok (fst p).

(** The part of a frame path before the number, and the key of the path
    of a frame with a non-negative index. *)
Definition path_prefix (image_folder : string) : string :=
  (if (String.eqb image_folder "" || Path.ends_with_sep image_folder)%bool
   then image_folder else image_folder +:+ "/") +:+ "frame_".

Definition frame_key (image_folder : string) (i : Z) : list keypart :=
  [KStr (lower (path_prefix image_folder)); KInt (Z.to_N i); KStr ".png"].

End Natural.

(** ** Steps of a worker, and sessions *)

#[global] Instance thread_status_eq_dec : EqDecision thread_status.
Proof. solve_decision. Defined.

Section Sessions.

Context {V : Type} (tqdm_bool : ProgressBar -> bool).

(** What a step of the worker [th] does: it ends (by an exception or by
    returning), points its view at the next frame and asks for the image,
    sleeps, gets the image, saves it, calls [update], which reads the
    counter or, on a closed bar, returns at once, or writes the counter
    back. *)
Inductive step_effect (w w' : World V) (th th' : Thread) : Prop :=
  | effect_end st :
      th' = set_status st th ->
      (st = Finished -> th_todo th = []) -> st <> Running ->
      self w' = set_threads (threads (self w')) (self w) ->
      events w' = events w ->
      step_effect w w' th th'
  | effect_render i rest :
      th_pc th = AtRender -> th_todo th = i :: rest ->
      th' = set_pc AtPoll th ->
      self w' = set_views (alter (point_at i) (th_view th) (views (self w)))
                  (set_threads (threads (self w')) (self w)) ->
      events w' = events w ++ [EvRender (th_view th) i] ->
      step_effect w w' th th'
  | effect_sleep i rest :
      th_pc th = AtPoll -> th_todo th = i :: rest ->
      th' = th ->
      self w' = self w ->
      events w' = events w ++ [EvSleep] ->
      step_effect w w' th th'
  | effect_ready i rest :
      th_pc th = AtPoll -> th_todo th = i :: rest ->
      th' = set_pc AtSave th ->
      self w' = set_threads (threads (self w')) (self w) ->
      events w' = events w ->
      step_effect w w' th th'
  | effect_save i rest :
      th_pc th = AtSave -> th_todo th = i :: rest ->
      th' = set_pc AtUpdate th ->
      self w' = set_threads (threads (self w')) (self w) ->
      events w' = events w ++ [EvImsave (Path.frame_path (image_folder (self w)) i)] ->
      step_effect w w' th th'
  | effect_read i rest pb :
      th_pc th = AtUpdate -> th_todo th = i :: rest ->
      progress_bar (self w) = Some pb -> pb_closed pb = false ->
      th' = set_pc (AtStore (bars_created w) (pb_n pb)) th ->
      self w' = set_threads (threads (self w')) (self w) ->
      events w' = events w ++ [EvProgressUpdate] ->
      step_effect w w' th th'
  | effect_skip i rest pb :
      th_pc th = AtUpdate -> th_todo th = i :: rest ->
      progress_bar (self w) = Some pb -> pb_closed pb = true ->
      th' = next_frame th ->
      self w' = set_threads (threads (self w')) (self w) ->
      events w' = events w ++ [EvProgressUpdate] ->
      step_effect w w' th th'
  | effect_write i rest bar n st :
      th_pc th = AtStore bar n -> th_todo th = i :: rest ->
      (st = Running \/ exists e, st = Died e) ->
      th' = set_status st (next_frame th) ->
      self w' = set_progress_bar (bar_after_store bar n w)
                  (set_threads (threads (self w')) (self w)) ->
      events w' = events w ->
      step_effect w w' th th'.

(** What the caller does to a constructed generator: dispatch, or one of
    the actions above. *)
Inductive call : Type :=
  | CallRun
  | Do (a : action).

Definition perform (c : call) (w : World V) : option (World V) :=
  match c with
  | CallRun => Some (snd (run w))
  | Do a => act tqdm_bool a w
  end.

Fixpoint session (calls : list call) (w : World V) : option (World V) :=
  match calls with
  | [] => Some w
  | c :: rest =>
      match perform c w with
      | Some w' => session rest w'
      | None => None
      end
  end.

(** The identifier of every thread is its position in [self.threads]. *)
Definition idents_are_positions (w : World V) : Prop :=
  forall t th, threads (self w) !! t = Some th -> th_ident th = Some t.

(** A worker that has written the file of its current frame and is not
    through with counting it. *)
Definition counting (th : Thread) : bool :=
  match th_pc th with
  | AtUpdate | AtStore _ _ => true
  | _ => false
  end.

(** Frames a worker has written: those it has finished, and the one it is
    about to count. *)
Definition written (th : Thread) : nat :=
  length (th_bucket th) - length (th_todo th)
  + (if counting th then 1 else 0).

Definition was_saved (folder : string) (w : World V) (i : Z) : Prop :=
  EvImsave (Path.frame_path folder i) ∈ events w.

(** Where a worker stands in its bucket: what it has left is the end of
    the bucket and every frame before is written; while it is about to
    count a frame, that frame is written; it is between frames when nothing
    is left; it returns only then. *)
Record thread_files (folder : string) (w : World V) (th : Thread) : Prop := {
  files_done :
    exists done,
      th_bucket th = done ++ th_todo th /\ Forall (was_saved folder w) done;
  files_head :
    counting th = true ->
    exists i rest, th_todo th = i :: rest /\ was_saved folder w i;
  files_idle : th_todo th = [] -> th_pc th = AtRender;
  files_returned : th_status th = Finished -> th_todo th = []
}.

(** What holds of the files in every state of one dispatch over [L], with
    [k] earlier threads, none running, and [s0] files written before. *)
Record files_inv (L : list Z) (folder : string) (s0 k : nat) (w : World V)
  : Prop := {
  files_folder : image_folder (self w) = folder;
  files_indices : indices (self w) = L;
  files_earlier :
    Forall (fun th => th_status th <> Running) (take k (threads (self w)));
  files_buckets : concat (map th_bucket (drop k (threads (self w)))) = L;
  files_threads : Forall (thread_files folder w) (drop k (threads (self w)));
  files_count :
    saved w = s0 + sum_list (map written (drop k (threads (self w))))
}.

(** In a dispatch with [k] earlier threads, none running, the worker at
    position [t] drives the view [t - k], and from its request for the
    image of a frame until it has counted it, that view is at that frame. *)
Record views_inv (k : nat) (w : World V) : Prop := {
  views_earlier :
    Forall (fun th => th_status th <> Running) (take k (threads (self w)));
  views_own :
    forall t th, k <= t -> threads (self w) !! t = Some th ->
      th_view th = t - k /\ t - k < length (views (self w));
  views_frame :
    forall t th, k <= t -> threads (self w) !! t = Some th ->
      th_status th = Running -> th_pc th <> AtRender ->
      exists i rest v,
        th_todo th = i :: rest
        /\ views (self w) !! th_view th = Some v /\ view_frame v = Some i
}.

(** What every state of a session has: a thread's identifier is its
    position in [self.threads], no exception is pending in any thread, and
    where there are threads there is a progress bar. *)
Record session_inv (w : World V) : Prop := {
  session_idents : idents_are_positions w;
  session_async : Forall (fun th => th_async th = None) (threads (self w));
  session_bar : threads (self w) <> [] -> is_Some (progress_bar (self w))
}.

(** Steps a worker still has to take before it returns, when nothing
    fails, every image is there at the first poll and the bar is open. *)
Definition steps_left (th : Thread) : nat :=
  5 * length (th_todo th)
  - match th_pc th with
    | AtRender => 0
    | AtPoll => 1
    | AtSave => 2
    | AtUpdate => 3
    | AtStore _ _ => 4
    end.

(** The threads from position [k] on, one after the other, each taking the
    steps it has left and the one on which it returns. *)
Fixpoint one_by_one (k : nat) (ts : list Thread) : list action :=
  match ts with
  | [] => []
  | th :: r => replicate (S (steps_left th)) (Worker k Proceed) ++ one_by_one (S k) r
  end.

End Sessions.

(** ** Further states of the concrete generator *)

Module Cases.

Definition after (schedule : list action) (w : World Q) : World Q :=
  match exec Example.tqdm_bool schedule w with
  | Some w' => w'
  | None => w
  end.

(** The first worker as dispatched, and after it has asked for the image
    of its first frame. *)
Definition first_worker : Thread :=
  mkThread 0 [0; 2; 4]%Z (Some 0) Running [0; 2; 4]%Z AtRender None.

Definition poller : Thread :=
  mkThread 0 [0; 2; 4]%Z (Some 0) Running [0; 2; 4]%Z AtPoll None.

Definition polling : World Q := after [Worker 0 Proceed] Example.dispatched.

(** The first worker about to write its first frame, and after it has. *)
Definition saving : World Q :=
  after [Worker 0 Proceed; Worker 0 Proceed] Example.dispatched.

Definition saved_first : World Q := after [Worker 0 Proceed] saving.

(** The first worker with its first frame done. *)
Definition second_frame : Thread :=
  mkThread 0 [0; 2; 4]%Z (Some 0) Running [2; 4]%Z AtRender None.

Definition one_done : World Q := after (Example.one_frame 0) Example.dispatched.

(** The second worker fails at its first external call. *)
Definition crash : list action := [Worker 1 (Fails ValueError)].

Definition crashed : World Q := after crash Example.dispatched.

Definition dead_worker : Thread :=
  mkThread 1 [6; 8]%Z (Some 1) (Died ValueError) [6; 8]%Z AtRender None.

Definition aftermath : list action := Example.one_frame 0 ++ [CallCleanup].

Definition after_crash : World Q := after aftermath crashed.

(** A second dispatch on top of the first. *)
Definition dispatched_twice : World Q := snd (run Example.dispatched).

(** Two updates that overlap: the first two workers have both read the
    counter before either writes it back. *)
Definition to_update (t : nat) : list action :=
  [Worker t Proceed; Worker t Proceed; Worker t Proceed].

Definition racing : list action :=
  to_update 0 ++ to_update 1
  ++ [Worker 0 Proceed; Worker 1 Proceed; Worker 0 Proceed; Worker 1 Proceed]
  ++ Example.one_frame 2 ++ Example.one_frame 1 ++ Example.one_frame 0
  ++ Example.one_frame 2 ++ Example.one_frame 0
  ++ [Worker 0 Proceed; Worker 1 Proceed; Worker 2 Proceed].

Definition raced : World Q := after racing Example.dispatched.

(** Every frame of the first dispatch and one of the second, all counted
    on the bar of the second. *)
Definition overrunning : list action :=
  Example.full_schedule ++ Example.one_frame 3.

Definition overrun : World Q := after overrunning dispatched_twice.

(** The first worker with the file of its first frame written, about to
    count it, and the bar it finds. *)
Definition counting_worker : Thread :=
  mkThread 0 [0; 2; 4]%Z (Some 0) Running [0; 2; 4]%Z AtUpdate None.

Definition fresh_bar : ProgressBar := mkBar 7 0 false.

(** A window of nine frames over the five of the trajectory. *)
Definition wide : World Q :=
  blank Example.universe "frames" Example.frame_indices 9 3 None None.

(** The dispatch run to its end, one worker after the other. *)
Definition run_out : World Q :=
  after (one_by_one 0 (threads (self Example.dispatched))) Example.dispatched.

Definition names : list string := ["frame_10.png"; "Frame_9.png"; "frame_2.png"].

Definition key_10 : list Natural.keypart :=
  [Natural.KStr "frame_"; Natural.KInt 10; Natural.KStr ".png"].

Definition key_9 : list Natural.keypart :=
  [Natural.KStr "frame_"; Natural.KInt 9; Natural.KStr ".png"].

(** The one-character string of the superscript two (code point 178). *)
Definition superscript_two : string := String (ascii_of_N 178) "".

End Cases.

(** ** Properties *)

Section Properties.

Context {V : Type} (mean : list V -> V) (zero : V).
Context (tqdm_bool : ProgressBar -> bool).

Implicit Types (w : World V) (g : Generator V).

(** *** Partitioning at dispatch *)

(** The slices taken at the running sums of a list of sizes are stdpp's
    [reshape] of the remaining array. *)
Lemma slices_are_reshape {A} (ary : list A) sizes acc :
  map (fun i => Numpy.slice (nth i (acc :: Numpy.cumsum_from acc sizes) 0)
                      (nth (S i) (acc :: Numpy.cumsum_from acc sizes) 0) ary)
      (seq 0 (length sizes))
  = reshape sizes (drop acc ary).
Proof.
  revert acc; induction sizes as [|s r IH]; intros acc; [done|].
  cbn [length seq map reshape Numpy.cumsum_from]. f_equal.
  - cbn [nth]. unfold Numpy.slice. f_equal. lia.
  - rewrite <- seq_shift, map_map, drop_drop, <- IH.
    apply map_ext; intros i. reflexivity.
Qed.

Lemma array_split_reshape {A} (ary : list A) N :
  N <> 0 ->
  Numpy.array_split ary N = Ok (reshape (Numpy.section_sizes (length ary) N) ary).
Proof.
  intros HN. destruct N as [|n]; [done|]. unfold Numpy.array_split, Numpy.section_sizes.
  set (q := length ary / S n). set (r := length ary mod S n).
  set (sizes := replicate r (q + 1) ++ replicate (S n - r) q).
  f_equal. unfold Numpy.cumsum. cbn [Numpy.cumsum_from]. rewrite Nat.add_0_r.
  assert (length sizes = S n) as Hlen.
  { unfold sizes. rewrite length_app, !length_replicate.
    pose proof (Nat.mod_upper_bound (length ary) (S n)). unfold r. lia. }
  rewrite <- Hlen at 1. rewrite (slices_are_reshape ary sizes 0). by rewrite drop_0.
Qed.

Lemma section_sizes_length len N : N <> 0 -> length (Numpy.section_sizes len N) = N.
Proof.
  intros HN. unfold Numpy.section_sizes. rewrite length_app, !length_replicate.
  pose proof (Nat.mod_upper_bound len N HN). lia.
Qed.

Lemma sum_list_append (l k : list nat) : sum_list (l ++ k) = sum_list l + sum_list k.
Proof. induction l as [|x l IH]; simpl; lia. Qed.

Lemma section_sizes_sum len N : N <> 0 -> sum_list (Numpy.section_sizes len N) = len.
Proof.
  intros HN. unfold Numpy.section_sizes. rewrite sum_list_append, !sum_list_replicate.
  pose proof (Nat.mod_upper_bound len N HN) as Hr.
  pose proof (Nat.div_mod_eq len N) as Hdm.
  nia.
Qed.

Lemma section_sizes_lookup len N b :
  b < N ->
  Numpy.section_sizes len N !! b = Some (len / N + if b <? len mod N then 1 else 0).
Proof.
  intros Hb. unfold Numpy.section_sizes.
  pose proof (Nat.mod_upper_bound len N ltac:(lia)) as Hr.
  destruct (Nat.ltb_spec b (len mod N)).
  - rewrite lookup_app_l by (rewrite length_replicate; lia).
    by apply lookup_replicate_2.
  - rewrite lookup_app_r by (rewrite length_replicate; lia).
    rewrite length_replicate, Nat.add_0_r. apply lookup_replicate_2. lia.
Qed.

Lemma reshape_lookup_length {A} sizes (l : list A) b s :
  sum_list sizes <= length l ->
  sizes !! b = Some s ->
  exists bucket, reshape sizes l !! b = Some bucket /\ length bucket = s.
Proof.
  revert l b; induction sizes as [|s0 r IH]; intros l b Hsum Hb; [done|].
  simpl in Hsum. destruct b as [|b]; simpl in *.
  - injection Hb as <-. eexists; split; [done|]. rewrite length_take. lia.
  - apply IH; [|done]. rewrite length_drop. lia.
Qed.

Lemma concat_mjoin {A} (ls : list (list A)) : concat ls = mjoin ls.
Proof. induction ls as [|l ls IH]; simpl; [done|]. by rewrite IH. Qed.

Lemma alter_last {A} (f : A -> A) (l : list A) (x : A) :
  alter f (length l) (l ++ [x]) = l ++ [f x].
Proof.
  rewrite <- (Nat.add_0_r (length l)) at 1. by rewrite alter_app_r.
Qed.

Lemma dispatch_loop pairs w :
  for_each pairs dispatch_body w
  = (Ok tt,
     mkWorld (set_threads (threads (self w)
                           ++ started_from (length (threads (self w))) pairs)
                          (self w))
             (events w ++ map EvThreadStart
                            (seq (length (threads (self w))) (length pairs)))).
Proof.
  revert w; induction pairs as [|[view subset] r IH]; intros [g ev].
  - destruct g; cbn. by rewrite !app_nil_r.
  - cbn [for_each]. unfold bind at 1. unfold dispatch_body at 1.
    unfold bind, get, modify, start_thread, emit; cbn.
    rewrite alter_last, IH. destruct g; cbn.
    rewrite length_app; cbn. rewrite Nat.add_1_r.
    rewrite <- !app_assoc; cbn. reflexivity.
Qed.

Lemma started_from_args t pairs :
  map (fun th => (th_view th, th_bucket th)) (started_from t pairs) = pairs.
Proof.
  revert t; induction pairs as [|[v b] r IH]; intros t; cbn; [done|].
  by rewrite IH.
Qed.

Lemma started_from_length t pairs : length (started_from t pairs) = length pairs.
Proof. revert t; induction pairs as [|[v b] r IH]; intros t; cbn; [done|]. by rewrite IH. Qed.

(** What [run] does when the split succeeds. *)
Lemma run_dispatches w buckets :
  Numpy.array_split (indices (self w)) (length (views (self w))) = Ok buckets ->
  run w
  = (Ok tt,
     mkWorld
       (set_threads
          (threads (self w)
           ++ started_from (length (threads (self w)))
                (zip (seq 0 (length (views (self w)))) buckets))
          (set_progress_bar
             (Some (mkBar (length (indices (self w))) 0 false)) (self w)))
       (events w ++ EvProgressOpen (length (indices (self w)))
          :: map EvThreadStart
               (seq (length (threads (self w)))
                    (length (zip (seq 0 (length (views (self w)))) buckets))))).
Proof.
  intros Hsplit. destruct w as [g ev]. cbn [self events] in *. unfold run.
  unfold bind at 1, get at 1. cbn [self events].
  unfold bind at 1, lift. rewrite Hsplit.
  unfold bind at 1, modify at 1. cbn [self events].
  unfold bind at 1, emit at 1. cbn [self events].
  change (for_each ?l _) with (for_each l (@dispatch_body V)).
  rewrite dispatch_loop. destruct g; cbn. by rewrite <- app_assoc.
Qed.

(** What [run] does without views. *)
Lemma run_without_views w :
  views (self w) = [] -> run w = (Raise ValueError, w).
Proof.
  intros Hv. destruct w as [g ev]. unfold run, bind, get, lift; cbn in *.
  by rewrite Hv.
Qed.

Lemma concat_position_unique {A} (ls : list (list A)) b j b' j' l l' :
  ls !! b = Some l -> j < length l ->
  ls !! b' = Some l' -> j' < length l' ->
  length (concat (take b ls)) + j = length (concat (take b' ls)) + j' ->
  b = b' /\ j = j'.
Proof.
  revert b b'; induction ls as [|l0 ls IH]; intros b b' Hb Hj Hb' Hj' Heq; [done|].
  destruct b as [|b], b' as [|b']; cbn in *.
  - lia.
  - injection Hb as ->. rewrite length_app in Heq. lia.
  - injection Hb' as ->. rewrite length_app in Heq. lia.
  - rewrite !length_app in Heq.
    destruct (IH b b') as [-> ->]; [done..|lia|done].
Qed.

Lemma concat_position_exists {A} (ls : list (list A)) k x :
  concat ls !! k = Some x ->
  exists b j l, ls !! b = Some l /\ l !! j = Some x
                /\ k = length (concat (take b ls)) + j.
Proof.
  revert k; induction ls as [|l0 ls IH]; intros k Hk; [done|].
  cbn in Hk. destruct (decide (k < length l0)) as [Hlt|Hge].
  - rewrite lookup_app_l in Hk by done. by exists 0, k, l0.
  - rewrite lookup_app_r in Hk by lia.
    destruct (IH _ Hk) as (b & j & l & Hb & Hj & Hpos).
    exists (S b), j, l. cbn. rewrite length_app. repeat split; [done..|lia].
Qed.

(** [array_split] yields an array-split partition. *)
Lemma array_split_is_partition {A} (L : list A) N :
  1 <= N ->
  exists buckets,
    Numpy.array_split L N = Ok buckets
    /\ Spec.array_split_partition L N buckets
    /\ (length L < N -> Spec.at_most_singletons buckets).
Proof.
  intros HN. assert (N <> 0) as HN0 by lia.
  exists (reshape (Numpy.section_sizes (length L) N) L).
  split; [by apply array_split_reshape|].
  assert (forall b bucket,
             reshape (Numpy.section_sizes (length L) N) L !! b = Some bucket ->
             length bucket = length L / N + (if b <? length L mod N then 1 else 0))
    as Hsize.
  { intros b bucket Hb.
    assert (b < N) as HbN.
    { apply lookup_lt_Some in Hb.
      by rewrite length_reshape, section_sizes_length in Hb. }
    destruct (reshape_lookup_length (Numpy.section_sizes (length L) N) L b _
                ltac:(by rewrite section_sizes_sum)
                (section_sizes_lookup (length L) N b HbN))
      as (bucket' & Hb' & Hlen).
    congruence. }
  assert (concat (reshape (Numpy.section_sizes (length L) N) L) = L) as Hcat.
  { rewrite concat_mjoin. apply join_reshape.
    by apply section_sizes_sum. }
  split; [split; [|split; [|split; [|split]]]|].
  - by rewrite length_reshape, section_sizes_length.
  - done.
  - done.
  - intros b1 b2 k1 k2 H1 H2.
    rewrite (Hsize _ _ H1), (Hsize _ _ H2).
    destruct (b1 <? _), (b2 <? _); lia.
  - intros k x Hk. rewrite <- Hcat in Hk at 1.
    destruct (concat_position_exists _ _ _ Hk) as (b & j & l & Hb & Hj & Hpos).
    exists (b, j). split.
    + exists l. done.
    + intros [b' j'] (l' & Hb' & Hj' & Hpos'). cbn in *.
      destruct (concat_position_unique _ b j b' j' l l' Hb
                  (lookup_lt_Some _ _ _ Hj) Hb' (lookup_lt_Some _ _ _ Hj'))
        as [-> ->]; [lia|done].
  - intros Hlt bucket Hin.
    apply list_elem_of_lookup in Hin as [b Hb].
    rewrite (Hsize _ _ Hb). rewrite Nat.div_small by done.
    destruct (b <? _); lia.
Qed.

(** C1. For every index list [L] and every number [N >= 1] of views,
    [run] succeeds, starts one worker per view on the buckets of
    [array_split L N], in view order, and these buckets are [N] lists whose
    concatenation in bucket order is [L], whose sizes are [len / N] plus
    one for the first [len mod N] buckets (so they differ by at most one),
    and in which every position of [L] occurs at exactly one place of one
    bucket; when [N > len], every bucket is empty or a singleton. *)
Theorem run_partitions_indices w (N : nat) :
  length (views (self w)) = N ->
  1 <= N ->
  exists buckets w',
    run w = (Ok tt, w')
    /\ map (fun th => (th_view th, th_bucket th))
           (drop (length (threads (self w))) (threads (self w')))
       = zip (seq 0 N) buckets
    /\ Spec.array_split_partition (indices (self w)) N buckets
    /\ (length (indices (self w)) < N -> Spec.at_most_singletons buckets).
Proof.
  intros Hviews HN.
  destruct (array_split_is_partition (indices (self w)) N HN)
    as (buckets & Hsplit & Hpart & Hsingle).
  exists buckets. eexists. split.
  { apply run_dispatches. by rewrite Hviews. }
  split; [|done].
  destruct w as [g ev]; destruct g; cbn in *.
  rewrite drop_app_length, started_from_args. by rewrite Hviews.
Qed.

(** *** Smoothing *)

Lemma frames_from_take_drop {A} (fs : list A) k lo hi :
  Spec.frames_from k lo hi fs
  = take (Z.to_nat (hi - k) - Z.to_nat (lo - k)) (drop (Z.to_nat (lo - k)) fs).
Proof.
  revert k; induction fs as [|f r IH]; intros k; cbn [Spec.frames_from].
  - by rewrite drop_nil, take_nil.
  - rewrite IH.
    destruct (Z.leb_spec lo k) as [Hlo|Hlo], (Z.ltb_spec k hi) as [Hhi|Hhi]; cbn [andb].
    + replace (Z.to_nat (lo - k)) with 0 by lia.
      replace (Z.to_nat (lo - (k + 1))) with 0 by lia.
      replace (Z.to_nat (hi - k) - 0) with (S (Z.to_nat (hi - (k + 1)))) by lia.
      by rewrite Nat.sub_0_r.
    + replace (Z.to_nat (hi - k)) with 0 by lia.
      replace (Z.to_nat (hi - (k + 1))) with 0 by lia.
      reflexivity.
    + replace (Z.to_nat (lo - k)) with (S (Z.to_nat (lo - (k + 1)))) by lia.
      cbn [drop]. f_equal. lia.
    + replace (Z.to_nat (hi - k)) with 0 by lia.
      replace (Z.to_nat (hi - (k + 1))) with 0 by lia.
      reflexivity.
Qed.

Lemma frames_in_take_drop {A} (fs : list A) lo hi :
  Spec.frames_in lo hi fs
  = take (Z.to_nat hi - Z.to_nat lo) (drop (Z.to_nat lo) fs).
Proof. unfold Spec.frames_in. by rewrite frames_from_take_drop, !Z.sub_0_r. Qed.

Lemma take_drop_clip {A} (l : list A) s e :
  take (Nat.min (length l) e - Nat.min (length l) s) (drop (Nat.min (length l) s) l)
  = take (e - s) (drop s l).
Proof.
  destruct (decide (length l <= s)) as [Hs|Hs].
  - rewrite (drop_ge l s) by done. rewrite drop_ge by lia. by rewrite !take_nil.
  - rewrite (Nat.min_r _ s) by lia.
    destruct (decide (e <= length l)) as [He|He].
    + by rewrite Nat.min_r by lia.
    + rewrite Nat.min_l by lia.
      rewrite !take_ge; [done|rewrite length_drop; lia..].
Qed.

(** The slice taken by the code is the set of frames the specification
    names. *)
Lemma zslice_frames_in {A} (fs : list A) lo hi :
  (0 <= lo)%Z -> (0 <= hi)%Z ->
  Numpy.zslice lo hi fs = Spec.frames_in lo hi fs.
Proof.
  intros Hlo Hhi. rewrite frames_in_take_drop.
  unfold Numpy.zslice, Numpy.norm_bound, Numpy.slice.
  destruct (Z.ltb_spec lo 0); [lia|]. destruct (Z.ltb_spec hi 0); [lia|].
  apply take_drop_clip.
Qed.

(** Frames outside the trajectory do not exist: clipping the bounds of an
    interval to the trajectory does not change the frames in it. *)
Lemma frames_in_clip {A} (fs : list A) lo hi :
  Spec.frames_in (Z.max 0 lo) (Z.min (Z.of_nat (length fs)) hi) fs
  = Spec.frames_in lo hi fs.
Proof.
  rewrite !frames_in_take_drop.
  replace (Z.to_nat (Z.max 0 lo)) with (Z.to_nat lo) by lia.
  replace (Z.to_nat (Z.min (Z.of_nat (length fs)) hi))
    with (Nat.min (length fs) (Z.to_nat hi)) by lia.
  destruct (decide (length fs <= Z.to_nat lo)) as [Hs|Hs].
  - rewrite !drop_ge by lia. by rewrite !take_nil.
  - rewrite <- (take_drop_clip fs (Z.to_nat lo) (Z.to_nat hi)).
    by rewrite (Nat.min_r _ (Z.to_nat lo)) by lia.
Qed.

Lemma zslice_map {A B} (f : A -> B) (l : list A) lo hi :
  Numpy.zslice lo hi (map f l) = map f (Numpy.zslice lo hi l).
Proof.
  unfold Numpy.zslice, Numpy.slice.
  change (map f) with (fmap (M:=list) f).
  by rewrite length_fmap, fmap_take, fmap_drop.
Qed.

Lemma zip_with_map_same {A B C D} (h : B -> C -> D) (F : A -> B) (G : A -> C)
    (l : list A) :
  zip_with h (map F l) (map G l) = map (fun x => h (F x) (G x)) l.
Proof. induction l as [|x l IH]; cbn; [done|]. by rewrite IH. Qed.

Lemma seq_snoc (k : nat) : seq 0 (S k) = seq 0 k ++ [k].
Proof. by rewrite seq_S. Qed.

Lemma smoothing_loop (sw : Z) (ts : list (list V)) (T k : nat) :
  Forall (fun row => length row = T) ts ->
  k <= T ->
  fold_left
    (fun smoothed_positions i =>
       set_column i
         (map mean (map (Numpy.zslice (window_start sw i) (window_end sw T i)) ts))
         smoothed_positions)
    (seq 0 k) (zeros_like zero ts)
  = map (fun row => map (smoothed_entry mean sw T row) (seq 0 k)
                    ++ replicate (T - k) zero) ts.
Proof.
  intros Hrows. induction k as [|k IH]; intros Hk.
  - cbn [seq fold_left map app]. unfold zeros_like. rewrite Nat.sub_0_r.
    apply map_ext_in. intros row Hin.
    rewrite Forall_forall in Hrows.
    rewrite <- (Hrows row) by (by apply list_elem_of_In).
    clear. induction row as [|x row IH]; cbn; [done|]. by rewrite IH.
  - rewrite seq_snoc, fold_left_app, IH by lia. cbn [fold_left].
    unfold set_column. rewrite map_map, zip_with_map_same.
    apply map_ext. intros row.
    replace (T - k) with (S (T - S k)) by lia.
    rewrite map_app. cbn [map replicate]. rewrite <- app_assoc. cbn [app].
    rewrite <- (Nat.add_0_r k) at 1.
    replace k with (length (map (smoothed_entry mean sw T row) (seq 0 k))) at 1
      by (by rewrite length_map, length_seq).
    by rewrite insert_app_r.
Qed.

Lemma timeseries_rows (u : Trajectory V) :
  Forall (fun row => length row = length (frames u)) (timeseries zero u).
Proof.
  unfold timeseries. rewrite Forall_forall. intros row Hin.
  apply list_elem_of_In, in_map_iff in Hin as (a & <- & _). by rewrite length_map.
Qed.

Lemma get_smooth_positions_eq g :
  get_smooth_positions mean zero g
  = map (fun row =>
           map (smoothed_entry mean (smoothing_window g) (length (frames (traj g))) row)
               (seq 0 (length (frames (traj g)))))
        (timeseries zero (traj g)).
Proof.
  unfold get_smooth_positions.
  rewrite (smoothing_loop _ _ (length (frames (traj g)))) by
    (auto using timeseries_rows).
  apply map_ext. intros row. by rewrite Nat.sub_diag, app_nil_r.
Qed.

Lemma nth_map_seq {A} (f : nat -> A) (d : A) (n i : nat) :
  i < n -> nth i (map f (seq 0 n)) d = f i.
Proof.
  intros Hi. rewrite nth_lookup.
  change (map f) with (fmap (M:=list) f).
  by rewrite list_lookup_fmap, lookup_seq_lt.
Qed.

(** Frame [i] of the smoothed array is the mean of the position arrays of
    the frames in the slice the loop takes. *)
Lemma smoothed_column g (i : nat) :
  i < length (frames (traj g)) ->
  get_column zero i (get_smooth_positions mean zero g)
  = Spec.mean_positions mean zero (n_atoms (traj g))
      (Numpy.zslice (window_start (smoothing_window g) i)
         (window_end (smoothing_window g) (length (frames (traj g))) i)
         (frames (traj g))).
Proof.
  intros Hi. rewrite get_smooth_positions_eq.
  unfold get_column, timeseries, Spec.mean_positions.
  rewrite !map_map. apply map_ext. intros a.
  rewrite nth_map_seq by done.
  unfold smoothed_entry. by rewrite zslice_map.
Qed.

Lemma smooth_trajectory_run w :
  smooth_trajectory mean zero w
  = (Ok tt,
     mkWorld
       (if in_memory (traj (self w)) then
          set_traj
            (mkTraj (n_atoms (traj (self w)))
               (imap (fun i _ => get_column zero i
                                   (get_smooth_positions mean zero (self w)))
                     (frames (traj (self w))))
               (in_memory (traj (self w))))
            (self w)
        else self w)
       (events w)).
Proof. reflexivity. Qed.

Lemma frames_in_same_clip {A} (fs : list A) lo hi lo' hi' :
  Z.max 0 lo = Z.max 0 lo' ->
  Z.min (Z.of_nat (length fs)) hi = Z.min (Z.of_nat (length fs)) hi' ->
  Spec.frames_in lo hi fs = Spec.frames_in lo' hi' fs.
Proof.
  intros Hlo Hhi.
  rewrite <- (frames_in_clip fs lo hi), <- (frames_in_clip fs lo' hi').
  by rewrite Hlo, Hhi.
Qed.

Lemma frames_between_length {A} (fs : list A) lo hi :
  (0 <= lo)%Z -> (lo <= hi + 1)%Z -> (hi < Z.of_nat (length fs))%Z ->
  Z.of_nat (length (Spec.frames_between lo hi fs)) = (hi - lo + 1)%Z.
Proof.
  intros Hlo Hle Hhi. unfold Spec.frames_between.
  rewrite frames_in_take_drop, length_take, length_drop. lia.
Qed.

Lemma odd_window_width (sw : Z) :
  (2 * (sw / 2) + 1)%Z = if Z.odd sw then sw else (sw + 1)%Z.
Proof.
  pose proof (Z.div_mod sw 2 ltac:(lia)) as Hdm.
  pose proof (Zmod_odd sw) as Hodd.
  destruct (Z.odd sw); lia.
Qed.

(** C2. For a window [sw > 1] smoothing succeeds.  On a trajectory of [T]
    frames held in memory it keeps the number of frames and writes into
    every frame [i] the mean of the original position arrays over the
    frames of the clipped half-open window from [max(0, i - sw//2)] to
    [min(T, i + sw//2 + 1)].  In particular frame 0 receives the mean over
    the frames numbered [0 .. sw//2], the last frame the mean over the
    frames numbered [T-1-sw//2 .. T-1] (in both cases the frames of the
    trajectory with such a number, which are [sw//2 + 1] frames when the
    trajectory has that many), and an interior frame
    [sw//2 <= i < T-1-sw//2] the mean over the frames
    [i - sw//2 .. i + sw//2], which are [sw] frames for odd [sw] and
    [sw + 1] for even [sw].  On a trajectory read from a file nothing of
    this is kept: every frame has the positions it had. *)
Theorem smoothing_window_law w :
  (1 < smoothing_window (self w))%Z ->
  let sw := smoothing_window (self w) in
  let fs := frames (traj (self w)) in
  let T := length fs in
  let h := (sw / 2)%Z in
  let mean_over := Spec.mean_positions mean zero (n_atoms (traj (self w))) in
  exists w',
    smooth_trajectory mean zero w = (Ok tt, w')
    /\ (in_memory (traj (self w)) = false -> w' = w)
    /\ (in_memory (traj (self w)) = true ->
        length (frames (traj (self w'))) = T
        /\ (forall i : nat, i < T ->
              frames (traj (self w')) !! i
              = Some (mean_over
                        (Spec.frames_in (Z.max 0 (Z.of_nat i - h))
                           (Z.min (Z.of_nat T) (Z.of_nat i + h + 1)) fs)))
        /\ (0 < T ->
              frames (traj (self w')) !! 0
              = Some (mean_over (Spec.frames_between 0 h fs))
              /\ frames (traj (self w')) !! (T - 1)
                 = Some (mean_over
                           (Spec.frames_between (Z.of_nat T - 1 - h)
                              (Z.of_nat T - 1) fs)))
        /\ ((h < Z.of_nat T)%Z ->
              Z.of_nat (length (Spec.frames_between 0 h fs)) = (h + 1)%Z
              /\ Z.of_nat (length (Spec.frames_between (Z.of_nat T - 1 - h)
                                     (Z.of_nat T - 1) fs)) = (h + 1)%Z)
        /\ (forall i : nat, (h <= Z.of_nat i < Z.of_nat T - 1 - h)%Z ->
              frames (traj (self w')) !! i
              = Some (mean_over
                        (Spec.frames_between (Z.of_nat i - h) (Z.of_nat i + h) fs))
              /\ Z.of_nat (length (Spec.frames_between (Z.of_nat i - h)
                                     (Z.of_nat i + h) fs))
                 = if Z.odd sw then sw else (sw + 1)%Z)).
Proof.
  intros Hsw sw fs T h mean_over.
  assert (1 <= h)%Z as Hh.
  { subst h sw. apply Z.div_le_lower_bound; lia. }
  eexists. split; [apply smooth_trajectory_run|].
  split.
  { intros Hfile. rewrite Hfile. by destruct w. }
  intros Hmem. rewrite Hmem.
  unfold set_traj. cbn [self traj frames]. fold fs.
  assert (forall i : nat, i < T ->
            imap (fun i _ => get_column zero i
                               (get_smooth_positions mean zero (self w))) fs !! i
            = Some (mean_over
                      (Spec.frames_in (Z.max 0 (Z.of_nat i - h))
                         (Z.min (Z.of_nat T) (Z.of_nat i + h + 1)) fs)))
    as Hmain.
  { intros i Hi. rewrite list_lookup_imap.
    destruct (lookup_lt_is_Some_2 fs i Hi) as [f ->]. cbn. f_equal.
    rewrite smoothed_column by done.
    unfold window_start, window_end. fold sw fs T h.
    rewrite zslice_frames_in by lia. reflexivity. }
  assert (forall i : nat, i < T ->
            imap (fun i _ => get_column zero i
                               (get_smooth_positions mean zero (self w))) fs !! i
            = Some (mean_over
                      (Spec.frames_between (Z.of_nat i - h) (Z.of_nat i + h) fs)))
    as Hbetween.
  { intros i Hi. rewrite Hmain by done. unfold Spec.frames_between.
    by rewrite (frames_in_clip fs). }
  split; [by rewrite length_imap|].
  split; [done|].
  split; [|split].
  - intros HT. split.
    + rewrite Hbetween by done. do 2 f_equal.
      apply frames_in_same_clip; lia.
    + rewrite Hbetween by lia. do 2 f_equal.
      apply frames_in_same_clip; fold T; lia.
  - intros HhT. split; rewrite frames_between_length by (fold T; lia); lia.
  - intros i Hi. split.
    + apply Hbetween. lia.
    + rewrite frames_between_length by (fold T; lia).
      rewrite <- odd_window_width. fold h. lia.
Qed.

(** *** Construction *)

Lemma create_views_loop (l : list nat) w :
  for_each l create_body w
  = (Ok tt,
     mkWorld (set_views (views (self w)
                         ++ replicate (length l) (new_view (self w))) (self w))
             (events w ++ view_events (length (views (self w))) (length l))).
Proof.
  revert w; induction l as [|x l IH]; intros [g ev].
  - destruct g; cbn. by rewrite !app_nil_r.
  - cbn [for_each]. unfold bind at 1. unfold create_body at 1.
    unfold bind, get, modify, emit; cbn [self events].
    rewrite IH. destruct g; cbn.
    rewrite length_app; cbn. rewrite Nat.add_1_r.
    by rewrite <- !app_assoc.
Qed.

Lemma create_views_run w :
  create_views w
  = (Ok tt,
     mkWorld (set_views (views (self w)
                         ++ replicate (Z.to_nat (num_views (self w)))
                              (new_view (self w))) (self w))
             (events w ++ view_events (length (views (self w)))
                            (Z.to_nat (num_views (self w))))).
Proof.
  unfold create_views. unfold bind at 1, get at 1.
  change (for_each ?l _) with (for_each l (@create_body V)).
  by rewrite create_views_loop, length_seq.
Qed.

Lemma init_run traj0 folder idx sw nv ra sel :
  init mean zero traj0 folder idx sw nv ra sel
  = (Ok tt,
     mkWorld
       (mkGen (constructed_traj mean zero traj0 sw (blank traj0 folder idx sw nv ra sel))
              sw folder idx
              (replicate (Z.to_nat nv)
                 (new_view (self (blank traj0 folder idx sw nv ra sel))))
              None nv ra sel [])
       (EvMakedirs folder :: view_events 0 (Z.to_nat nv))).
Proof.
  unfold init, init_body, constructed_traj.
  unfold bind at 1, get at 1. cbn [self blank smoothing_window image_folder].
  destruct (1 <? sw)%Z.
  - unfold bind at 1. rewrite smooth_trajectory_run.
    unfold bind at 1, emit at 1. rewrite create_views_run.
    cbn [self blank traj]. by destruct (in_memory traj0).
  - unfold bind at 1, ret at 1.
    unfold bind at 1, emit at 1. by rewrite create_views_run.
Qed.

(** Construction with a window above 1 holds the trajectory as
    [smooth_trajectory] leaves it, and builds as many views as requested. *)
Lemma init_smooths traj0 folder idx sw nv ra sel :
  (1 < sw)%Z ->
  traj (self (snd (init mean zero traj0 folder idx sw nv ra sel)))
  = traj (self (snd (smooth_trajectory mean zero
                       (blank traj0 folder idx sw nv ra sel)))).
Proof.
  intros Hsw. rewrite init_run. unfold constructed_traj. cbn [snd self traj].
  destruct (Z.ltb_spec 1 sw); [done|lia].
Qed.

Lemma init_views_count traj0 folder idx sw nv ra sel :
  length (views (self (snd (init mean zero traj0 folder idx sw nv ra sel))))
  = Z.to_nat nv.
Proof. rewrite init_run. cbn. by rewrite length_replicate. Qed.

(** C7. With a smoothing window [sw <= 1] (in particular 1) construction
    succeeds without smoothing: the trajectory held by the generator is
    exactly the one passed in. *)
Theorem small_window_leaves_positions traj0 folder idx sw nv ra sel :
  (sw <= 1)%Z ->
  exists w,
    init mean zero traj0 folder idx sw nv ra sel = (Ok tt, w)
    /\ traj (self w) = traj0
    /\ frames (traj (self w)) = frames traj0.
Proof.
  intros Hsw. eexists. split; [apply init_run|].
  unfold constructed_traj. cbn [self traj].
  destruct (Z.ltb_spec 1 sw); [lia|done].
Qed.

(** C8, as the code has it.  With [num_views = 0] construction succeeds
    with an empty pool of views and no worker; the error surfaces at
    dispatch, where [run] raises the [ValueError] of the split and leaves
    the generator as it was. *)
Theorem zero_views_fail_at_dispatch traj0 folder idx sw ra sel :
  exists w,
    init mean zero traj0 folder idx sw 0 ra sel = (Ok tt, w)
    /\ views (self w) = []
    /\ threads (self w) = []
    /\ run w = (Raise ValueError, w).
Proof.
  eexists. split; [apply init_run|].
  split; [done|]. split; [done|]. by apply run_without_views.
Qed.

(** *** Directory creation *)

Lemma makedirs_calls_app evs evs' :
  makedirs_calls (evs ++ evs') = makedirs_calls evs + makedirs_calls evs'.
Proof. unfold makedirs_calls. by rewrite filter_app, length_app. Qed.

Lemma view_events_no_makedirs v n : makedirs_calls (view_events v n) = 0.
Proof. revert v; induction n as [|n IH]; intros v; [done|]. apply (IH (S v)). Qed.

Lemma thread_starts_no_makedirs l : makedirs_calls (map EvThreadStart l) = 0.
Proof. induction l as [|x l IH]; [done|]. apply IH. Qed.

Lemma run_emits_no_makedirs w : makedirs_calls (emitted_by run w) = 0.
Proof.
  unfold emitted_by.
  destruct (views (self w)) as [|v vs] eqn:Hviews.
  - rewrite run_without_views by done. cbn. by rewrite drop_all.
  - destruct (array_split_is_partition (indices (self w)) (length (views (self w))))
      as (buckets & Hsplit & _); [rewrite Hviews; cbn; lia|].
    rewrite (run_dispatches w buckets Hsplit). cbn [snd events].
    rewrite drop_app_length. apply thread_starts_no_makedirs.
Qed.

Lemma worker_step_events t c w w' :
  worker_step t c w = Some w' ->
  events w' = events w
  \/ exists ev, events w' = events w ++ [ev] /\ is_makedirs ev = false.
Proof.
  unfold worker_step. intros Hstep.
  repeat (match type of Hstep with
          | context [match ?x with _ => _ end] => destruct x
          end; try discriminate);
    injection Hstep as <-; cbn; eauto.
Qed.

(** C9, as the code has it.  The image folder is created exactly once, by
    the constructor, before any view is built; dispatch ([run]) does not
    create it, and neither does any step of a worker, in particular no
    frame write. *)
Theorem makedirs_once_at_construction :
  (forall traj0 folder idx sw nv ra sel,
      exists rest,
        events (snd (init mean zero traj0 folder idx sw nv ra sel))
        = EvMakedirs folder :: rest
        /\ makedirs_calls
             (events (snd (init mean zero traj0 folder idx sw nv ra sel))) = 1)
  /\ (forall w, makedirs_calls (emitted_by run w) = 0)
  /\ (forall t c w w',
        worker_step t c w = Some w' ->
        makedirs_calls (events w') = makedirs_calls (events w)).
Proof.
  split; [|split].
  - intros. rewrite init_run. cbn [snd events]. eexists. split; [done|].
    change (EvMakedirs folder :: ?l) with ([EvMakedirs folder] ++ l).
    by rewrite makedirs_calls_app, view_events_no_makedirs.
  - apply run_emits_no_makedirs.
  - intros t c w w' Hstep.
    destruct (worker_step_events _ _ _ _ Hstep) as [->|(ev & -> & Hev)]; [done|].
    rewrite makedirs_calls_app. unfold makedirs_calls at 2. cbn.
    rewrite Hev. case_decide; [done|]. cbn. lia.
Qed.

(** *** Teardown and forced stop *)

(** Called with the thread alone, [_stop_thread] has no value for its
    second parameter. *)
Lemma stop_thread_unbound t w :
  _stop_thread [ObjThread t] w = (Raise TypeError, w).
Proof. reflexivity. Qed.

Lemma stop_attempt_skips t w : stop_attempt t w = (Ok tt, w).
Proof. reflexivity. Qed.

Lemma stop_loop l w : for_each l stop_attempt w = (Ok tt, w).
Proof.
  induction l as [|t l IH]; [done|].
  cbn [for_each]. unfold bind. by rewrite stop_attempt_skips.
Qed.

Lemma close_loop (l : list nat) w :
  for_each l close_body w
  = (Ok tt,
     mkWorld (set_views (fold_left (fun vs v => alter close_view v vs) l
                           (views (self w))) (self w))
             (events w ++ map EvViewClose l)).
Proof.
  revert w; induction l as [|v l IH]; intros [g ev].
  - destruct g; cbn. by rewrite app_nil_r.
  - cbn [for_each]. unfold bind at 1. unfold close_body at 1.
    unfold bind, modify, emit; cbn [self events].
    rewrite IH. destruct g; cbn. by rewrite <- app_assoc.
Qed.

Lemma alter_every {A} (f : A -> A) (l1 l2 : list A) :
  fold_left (fun l i => alter f i l) (seq (length l1) (length l2)) (l1 ++ l2)
  = l1 ++ map f l2.
Proof.
  revert l1; induction l2 as [|x l2 IH]; intros l1; [done|].
  cbn [length seq fold_left map].
  rewrite <- (Nat.add_0_r (length l1)) at 2. rewrite alter_app_r. cbn.
  replace (S (length l1)) with (length (l1 ++ [f x]))
    by (rewrite length_app; cbn; lia).
  change (l1 ++ f x :: l2) with (l1 ++ [f x] ++ l2).
  rewrite (app_assoc l1 [f x] l2), IH. by rewrite <- app_assoc.
Qed.

(** What [cleanup] does: it always returns; it closes the bar when there is
    one that tqdm counts as true, then every view in order, and it changes
    no thread. *)
Lemma cleanup_run w :
  cleanup tqdm_bool w
  = (Ok tt,
     mkWorld
       (set_views (map close_view (views (self w)))
          (set_progress_bar (bar_after_cleanup tqdm_bool (progress_bar (self w))) (self w)))
       (events w ++ bar_close_events tqdm_bool (progress_bar (self w))
          ++ map EvViewClose (seq 0 (length (views (self w)))))).
Proof.
  destruct w as [g ev]. unfold cleanup.
  unfold bind at 1, get at 1. cbn [self events].
  change (for_each ?l (fun v => _)) with (for_each l (@close_body V)).
  assert (forall w1 : World V,
             bind (for_each (seq 0 (length (views g))) close_body)
                  (fun _ => for_each (seq 0 (length (threads g))) stop_attempt) w1
             = (Ok tt,
                mkWorld (set_views
                           (fold_left (fun vs v => alter close_view v vs)
                              (seq 0 (length (views g))) (views (self w1)))
                           (self w1))
                        (events w1 ++ map EvViewClose (seq 0 (length (views g))))))
    as Hloops.
  { intros w1. unfold bind. by rewrite close_loop, stop_loop. }
  pose proof (alter_every close_view [] (views g)) as Hall. cbn in Hall.
  unfold bar_after_cleanup, bar_close_events.
  destruct g as [? ? ? ? vs [pb|] ? ? ? ?]; cbn [progress_bar views threads] in *.
  - destruct (tqdm_bool pb).
    + unfold bind at 1. unfold bind at 1, modify at 1, emit at 1.
      cbn [self events]. rewrite Hloops. cbn. rewrite Hall.
      by rewrite <- app_assoc.
    + unfold bind at 1, ret at 1. rewrite Hloops. cbn. by rewrite Hall.
  - unfold bind at 1, ret at 1. rewrite Hloops. cbn. by rewrite Hall.
Qed.

(** With both parameters supplied, [_stop_thread] would reach its target:
    a running thread gets [SystemExit] pending, a finished one makes
    [_async_raise] raise [ValueError], which [cleanup] would not catch. *)
Lemma stop_thread_bound_running w t th :
  threads (self w) = [th] -> t = 0 ->
  th_status th = Running -> th_ident th = Some 0 ->
  exists w',
    _stop_thread [ObjSelf; ObjThread t] w = (Ok tt, w')
    /\ threads (self w') = [set_async (Some SystemExit) th].
Proof.
  intros Hts -> Hst Hid. destruct w as [g ev]; cbn in Hts.
  unfold _stop_thread, bind at 1, get at 1. cbn [self]. rewrite Hts. cbn.
  rewrite Hid. unfold _async_raise, bind, SetAsyncExc, bind, get, modify, emit.
  cbn. rewrite Hts. cbn. unfold is_target. rewrite Hst, Hid. cbn.
  rewrite decide_True by done. cbn. eexists. split; [done|]. by destruct g.
Qed.

Lemma stop_thread_bound_finished w t th :
  threads (self w) !! t = Some th ->
  th_status th = Finished -> th_ident th = Some t ->
  Forall (fun th' => th_status th' = Running -> th_ident th' <> Some t)
         (threads (self w)) ->
  fst (_stop_thread [ObjSelf; ObjThread t] w) = Raise ValueError
  /\ is_TypeError ValueError = false.
Proof.
  intros Hth Hst Hid Hothers. destruct w as [g ev]; cbn in Hth, Hothers.
  unfold _stop_thread, bind at 1, get at 1. cbn [self]. rewrite Hth, Hid.
  unfold _async_raise, bind, SetAsyncExc, bind, get, modify, emit. cbn.
  assert (filter (fun th0 => is_target t th0 = true) (threads g) = []) as ->; [|done].
  clear Hth. induction Hothers as [|th' ts Hth' _ IH]; [done|].
  rewrite filter_cons, IH. rewrite decide_False; [done|].
  unfold is_target. destruct (th_status th'); try done.
  destruct (th_ident th') as [i|]; [|done].
  destruct (Nat.eqb_spec i t) as [->|]; [|done]. by specialize (Hth' eq_refl).
Qed.

(** *** Frame files *)

Lemma digit_value_char (d : N) : (d < 10)%N -> Path.digit_value (Path.digit_char d) = d.
Proof.
  intros Hd. unfold Path.digit_value, Path.digit_char.
  rewrite N_ascii_embedding by lia. lia.
Qed.

Lemma decimal_go_value (f : nat) (n : N) (acc : string) :
  (n < 2 ^ N.of_nat f)%N ->
  exists d : N, forall v,
    Path.value_from v (Path.decimal_go (S f) n acc)
    = Path.value_from (v * 10 ^ d + n)%N acc.
Proof.
  revert n acc; induction f as [|f IH]; intros n acc Hn;
    cbn [Path.decimal_go];
    pose proof (N.mod_lt n 10 ltac:(lia)) as Hmod;
    pose proof (N.div_mod n 10 ltac:(lia)) as Hdm;
    set (q := (n / 10)%N) in *; set (r := (n mod 10)%N) in *;
    clearbody q r;
    destruct (N.eqb_spec q 0) as [Hq|Hq].
  - exists 1%N. intros v. cbn [Path.value_from].
    rewrite digit_value_char by done. f_equal. rewrite N.pow_1_r. lia.
  - cbn in Hn. lia.
  - exists 1%N. intros v. cbn [Path.value_from].
    rewrite digit_value_char by done. f_equal. rewrite N.pow_1_r. lia.
  - assert (q < 2 ^ N.of_nat f)%N as Hlt.
    { rewrite Nat2N.inj_succ, N.pow_succ_r' in Hn. lia. }
    destruct (IH q (String (Path.digit_char r) acc) Hlt) as [d Hd].
    exists (d + 1)%N. intros v. rewrite Hd. cbn [Path.value_from].
    rewrite digit_value_char by done. f_equal.
    rewrite N.pow_add_r, N.pow_1_r. lia.
Qed.

(** Reading [decimal n] back gives [n]: no digit is lost to the fuel. *)
Lemma decimal_value (n : N) : Path.value (Path.decimal n) = n.
Proof.
  unfold Path.value, Path.decimal.
  destruct (decimal_go_value (N.to_nat (N.size n)) n "") as [d Hd].
  { rewrite N2Nat.id. apply N.size_gt. }
  rewrite Hd. cbn. lia.
Qed.

Lemma decimal_go_length (k f : nat) (n : N) (acc : string) :
  1 <= k -> (n < 10 ^ N.of_nat k)%N ->
  String.length (Path.decimal_go f n acc) <= k + String.length acc.
Proof.
  revert k n acc; induction f as [|f IH]; intros k n acc Hk Hn.
  - cbn. lia.
  - cbn [Path.decimal_go].
    pose proof (N.mod_lt n 10 ltac:(lia)) as Hmod.
    pose proof (N.div_mod n 10 ltac:(lia)) as Hdm.
    set (q := (n / 10)%N) in *. set (r := (n mod 10)%N) in *. clearbody q r.
    destruct (N.eqb_spec q 0) as [Hq|Hq]; [cbn; lia|].
    destruct k as [|[|k]]; [lia| |].
    + cbn in Hn. lia.
    + etransitivity; [apply (IH (S k))|cbn; lia]; [lia|].
      rewrite Nat2N.inj_succ, N.pow_succ_r' in Hn. lia.
Qed.

Lemma length_app_string (s1 s2 : string) :
  String.length (s1 +:+ s2) = String.length s1 + String.length s2.
Proof.
  induction s1 as [|c s1 IH]; [done|].
  change (String c s1 +:+ s2) with (String c (s1 +:+ s2)).
  cbn [String.length]. by rewrite IH.
Qed.

Lemma length_zeros k : String.length (Path.zeros k) = k.
Proof. induction k as [|k IH]; cbn; [done|]. unfold Path.zeros in IH. by rewrite IH. Qed.

Lemma format_06d_nonneg (i : Z) :
  (0 <= i)%Z ->
  Path.format_06d i
  = Path.zeros (6 - String.length (Path.decimal (Z.to_N i)))
    +:+ Path.decimal (Z.to_N i).
Proof.
  intros Hi. unfold Path.format_06d.
  destruct (Z.ltb_spec i 0); [lia|].
  rewrite Zabs2N.abs_N_nonneg by done. cbn [String.length String.append].
  by rewrite Nat.sub_0_r.
Qed.

Lemma format_06d_width (i : Z) :
  (0 <= i < 1000000)%Z -> String.length (Path.format_06d i) = 6.
Proof.
  intros Hi. rewrite format_06d_nonneg by lia.
  rewrite length_app_string, length_zeros.
  pose proof (decimal_go_length 6 (S (N.to_nat (N.size (Z.to_N i)))) (Z.to_N i) ""
                ltac:(lia) ltac:(cbn; lia)) as Hlen.
  unfold Path.decimal. cbn [String.length] in Hlen. lia.
Qed.

Lemma join_plain (folder name : string) :
  Path.starts_with_sep name = false ->
  folder <> "" -> Path.ends_with_sep folder = false ->
  Path.join folder name = folder +:+ "/" +:+ name.
Proof.
  intros Hname Hne Hsep. unfold Path.join. rewrite Hname, Hsep.
  destruct (String.eqb_spec folder ""); done.
Qed.

Lemma make_movie_run output_file fps w :
  make_movie output_file fps w
  = (Ok tt,
     mkWorld (self w)
       (events w
        ++ [EvWriteVideo
              (map (Path.frame_path (image_folder (self w))) (indices (self w)))
              fps output_file "libx264"])).
Proof. reflexivity. Qed.

Lemma worker_step_imsave t c w w' path :
  worker_step t c w = Some w' ->
  events w' = events w ++ [EvImsave path] ->
  exists th i rest,
    threads (self w) !! t = Some th /\ th_todo th = i :: rest
    /\ path = Path.frame_path (image_folder (self w)) i.
Proof.
  unfold worker_step. intros Hstep Hev.
  destruct (threads (self w) !! t) as [th|] eqn:Hth; [|done].
  exists th.
  destruct (th_status th), (th_async th), (th_todo th) as [|i rest];
    try discriminate.
  all: destruct (th_pc th), c; try destruct (progress_bar (self w)) as [pb|];
    try destruct (update_reads pb);
    try discriminate; injection Hstep as <-; cbn in Hev;
    try (exfalso; revert Hev; clear;
         generalize (events w); intros l Hev;
         apply (f_equal (@length event)) in Hev;
         rewrite ?length_app in Hev; cbn in Hev; lia);
    try (apply app_inj_tail in Hev as [_ Hev]; try discriminate;
         injection Hev as <-; by exists i, rest).
Qed.

(** C6. The path of frame [i] is a function of the image folder and of
    [i] alone: [os.path.join] of the folder and [frame_] followed by [i]
    in decimal, padded with zeros to six digits, and [.png] (for an
    ordinary folder name: the folder, a slash and that name; for
    [0 <= i < 10^6] the number takes exactly six characters).  A worker
    saves frame [i] under that path, and [make_movie] hands the encoder
    exactly these paths for [self.indices], in the order of the list,
    computed from the folder name and the index list only. *)
Theorem frame_paths_from_indices :
  (forall folder i,
      Path.frame_path folder i
      = Path.join folder ("frame_" +:+ Path.format_06d i +:+ ".png"))
  /\ (forall folder i,
        folder <> "" -> Path.ends_with_sep folder = false ->
        Path.frame_path folder i
        = folder +:+ "/" +:+ "frame_" +:+ Path.format_06d i +:+ ".png")
  /\ (forall i, (0 <= i)%Z ->
        Path.format_06d i
        = Path.zeros (6 - String.length (Path.decimal (Z.to_N i)))
          +:+ Path.decimal (Z.to_N i)
        /\ Path.value (Path.decimal (Z.to_N i)) = Z.to_N i)
  /\ (forall i, (0 <= i < 1000000)%Z -> String.length (Path.format_06d i) = 6)
  /\ (forall t c w w' path,
        worker_step t c w = Some w' ->
        events w' = events w ++ [EvImsave path] ->
        exists th i rest,
          threads (self w) !! t = Some th /\ th_todo th = i :: rest
          /\ path = Path.frame_path (image_folder (self w)) i)
  /\ (forall output_file fps w,
        make_movie output_file fps w
        = (Ok tt,
           mkWorld (self w)
             (events w
              ++ [EvWriteVideo
                    (map (Path.frame_path (image_folder (self w)))
                         (indices (self w)))
                    fps output_file "libx264"]))).
Proof.
  split; [done|]. split; [|split; [|split; [|split]]].
  - intros folder i Hne Hsep. unfold Path.frame_path. by apply join_plain.
  - intros i Hi. split; [by apply format_06d_nonneg|apply decimal_value].
  - apply format_06d_width.
  - apply worker_step_imsave.
  - apply make_movie_run.
Qed.

(** *** Steps of a worker, and the counter in a dispatch *)

Lemma worker_step_effect t c w w' :
  worker_step t c w = Some w' ->
  exists th th',
    threads (self w) !! t = Some th
    /\ th_status th = Running
    /\ threads (self w') = <[t := th']> (threads (self w))
    /\ step_effect w w' th th'.
Proof.
  unfold worker_step. intros Hstep.
  destruct (threads (self w) !! t) as [th|] eqn:Hth; [|done].
  exists th.
  destruct w as [g ev]. destruct g as [tr sw folder idx vs pbar nv ra sel ts].
  cbn in Hth.
  destruct th as [v b id st todo pc async]. cbn in Hstep.
  destruct st; try discriminate.
  destruct async as [e|].
  { injection Hstep as <-. eexists. repeat split; [done..|].
    by apply (effect_end _ _ _ _ (Died e)). }
  destruct todo as [|i rest].
  { injection Hstep as <-. eexists. repeat split; [done..|].
    by apply (effect_end _ _ _ _ Finished). }
  destruct pc as [| | | |bar n].
  - destruct c as [| |e]; injection Hstep as <-; eexists;
      (repeat split; [done..|]);
      first [by eapply effect_render|by apply (effect_end _ _ _ _ (Died e))].
  - destruct c as [| |e]; injection Hstep as <-.
    + eexists. repeat split; [done..|]. by eapply effect_ready.
    + exists (mkThread v b id Running (i :: rest) AtPoll None).
      repeat split; cbn; [by rewrite list_insert_id|]. by eapply effect_sleep.
    + eexists. repeat split; [done..|]. by apply (effect_end _ _ _ _ (Died e)).
  - destruct c as [| |e]; injection Hstep as <-; eexists;
      (repeat split; [done..|]);
      first [by eapply effect_save|by apply (effect_end _ _ _ _ (Died e))].
  - destruct c as [| |e].
    3: { injection Hstep as <-. eexists. repeat split; [done..|].
         by apply (effect_end _ _ _ _ (Died e)). }
    all: destruct pbar as [pb|];
      [unfold update_reads in Hstep; destruct (pb_closed pb) eqn:Hcl|];
      injection Hstep as <-; eexists; (repeat split; [done..|]);
      first [by eapply effect_skip|by eapply effect_read
            |by apply (effect_end _ _ _ _ (Died AttributeError))].
  - destruct c as [| |e]; injection Hstep as <-; eexists;
      (repeat split; [done..|]).
    + eapply (effect_write _ _ _ _ i rest bar n Running); try done. by left.
    + eapply (effect_write _ _ _ _ i rest bar n Running); try done. by left.
    + eapply (effect_write _ _ _ _ i rest bar n (Died e)); try done.
      right. by exists e.
Qed.

(** What a step does to the threads and to the bar, in short. *)
Lemma step_effect_frame w w' th th' :
  step_effect w w' th th' ->
  traj (self w') = traj (self w)
  /\ image_folder (self w') = image_folder (self w)
  /\ indices (self w') = indices (self w)
  /\ th_bucket th' = th_bucket th
  /\ th_view th' = th_view th
  /\ th_ident th' = th_ident th
  /\ th_async th' = th_async th
  /\ exists evs,
       events w' = events w ++ evs
       /\ Forall (fun ev => is_progress_open ev = false) evs
       /\ Forall (fun ev => is_makedirs ev = false) evs.
Proof.
  intros [st -> _ _ Hself Hev|i rest _ _ -> Hself Hev|i rest _ _ -> Hself Hev
         |i rest _ _ -> Hself Hev|i rest _ _ -> Hself Hev
         |i rest pb _ _ _ _ -> Hself Hev|i rest pb _ _ _ _ -> Hself Hev
         |i rest bar n st _ _ _ -> Hself Hev];
    rewrite Hself, Hev; (repeat split; [done..|]).
  all: first [ exists []; rewrite app_nil_r; by repeat split
             | eexists; split; [reflexivity|]; by repeat constructor ].
Qed.

Lemma bars_created_app w w' evs :
  events w' = events w ++ evs ->
  Forall (fun ev => is_progress_open ev = false) evs ->
  bars_created w' = bars_created w.
Proof.
  intros Hev Hno. unfold bars_created. rewrite Hev, filter_app, length_app.
  assert (filter (fun ev => is_progress_open ev = true) evs = []) as ->.
  { clear Hev. induction Hno as [|ev evs Hev' _ IH]; [done|].
    rewrite filter_cons, IH. rewrite decide_False; [done|]. by rewrite Hev'. }
  cbn. lia.
Qed.

Lemma step_effect_bars w w' th th' :
  step_effect w w' th th' -> bars_created w' = bars_created w.
Proof.
  intros Heff.
  destruct (step_effect_frame _ _ _ _ Heff)
    as (_ & _ & _ & _ & _ & _ & _ & evs & Hev & Hno & _).
  by eapply bars_created_app.
Qed.

(** What a step does to the counter and to the frames its worker has
    left: nothing; or a frame goes, and then the counter stays or becomes
    one more than the worker had read. *)
Lemma step_effect_count w w' th th' :
  th_status th = Running ->
  step_effect w w' th th' ->
  (th_status th' = Finished -> th_todo th' = [])
  /\ (counter w' = counter w
      /\ th_todo th' = th_todo th
      /\ (forall bar n, th_pc th' = AtStore bar n ->
            th_pc th = AtStore bar n
            \/ th_pc th = AtUpdate /\ bar = bars_created w /\ n = counter w)
      \/ exists i,
           th_todo th = i :: th_todo th'
           /\ th_pc th' = AtRender
           /\ (counter w' = counter w /\ th_pc th = AtUpdate
               /\ (exists pb, progress_bar (self w) = Some pb
                              /\ pb_closed pb = true)
               \/ exists bar n,
                    th_pc th = AtStore bar n
                    /\ progress_bar (self w') = bar_after_store bar n w)).
Proof.
  intros Hrun
    [st -> Hfin _ Hself Hev|i rest Hpc Htodo -> Hself Hev
    |i rest Hpc Htodo -> Hself Hev|i rest Hpc Htodo -> Hself Hev
    |i rest Hpc Htodo -> Hself Hev|i rest pb Hpc Htodo Hpb Hcl -> Hself Hev
    |i rest pb Hpc Htodo Hpb Hcl -> Hself Hev
    |i rest bar n st Hpc Htodo Hst -> Hself Hev];
    unfold counter; rewrite Hself; cbn.
  - split; [done|]. left. split; [done|]. split; [done|]. intros bar n Hn. by left.
  - split; [by rewrite Hrun|]. left. by repeat split.
  - split; [by rewrite Hrun|]. left. split; [done|]. split; [done|].
    intros bar n Hn. by left.
  - split; [by rewrite Hrun|]. left. by repeat split.
  - split; [by rewrite Hrun|]. left. by repeat split.
  - split; [by rewrite Hrun|]. left. split; [done|]. split; [done|].
    intros bar n [= <- <-]. right. by rewrite Hpb.
  - split; [by rewrite Hrun|]. right. exists i. rewrite Htodo.
    split; [done|]. split; [done|]. left. split; [done|]. split; [done|].
    by exists pb.
  - split; [by destruct Hst as [->|[e ->]]|].
    right. exists i. rewrite Htodo. split; [done|]. split; [done|].
    right. by exists bar, n.
Qed.

Lemma sum_insert {A} (f : A -> nat) (l : list A) t x y :
  l !! t = Some x ->
  sum_list (map f (<[t := y]> l)) + f x = sum_list (map f l) + f y.
Proof.
  revert t; induction l as [|a l IH]; intros t Ht; [done|].
  destruct t as [|t].
  - injection Ht as ->. cbn. lia.
  - specialize (IH t Ht).
    change (sum_list (map f (<[S t:=y]> (a :: l))))
      with (f a + sum_list (map f (<[t:=y]> l))).
    change (sum_list (map f (a :: l))) with (f a + sum_list (map f l)).
    lia.
Qed.

Lemma saved_app w w' evs :
  events w' = events w ++ evs ->
  saved w' = saved w + length (filter (fun ev => is_imsave ev = true) evs).
Proof. intros Hev. unfold saved. by rewrite Hev, filter_app, length_app. Qed.

Lemma no_imsave_filter evs :
  no_imsave evs -> filter (fun ev => is_imsave ev = true) evs = [].
Proof.
  induction 1 as [|ev evs Hev _ IH]; [done|].
  rewrite filter_cons, IH. rewrite decide_False; [done|]. by rewrite Hev.
Qed.

(** A thread that takes a step is one of this dispatch. *)
Lemma running_is_recent (ts : list Thread) k t th :
  Forall (fun th => th_status th <> Running) (take k ts) ->
  ts !! t = Some th -> th_status th = Running -> k <= t.
Proof.
  intros Hold Hth Hrun. destruct (decide (k <= t)) as [|Hlt]; [done|].
  rewrite Forall_lookup in Hold. exfalso. apply (Hold t th); [|done].
  rewrite lookup_take_lt by lia. done.
Qed.

(** The counter after a write is one more than what was read, or what it
    was. *)
Lemma counter_after_store bar n w w' :
  progress_bar (self w') = bar_after_store bar n w ->
  counter w' = n + 1 \/ counter w' = counter w.
Proof.
  unfold counter, bar_after_store. intros ->.
  destruct (progress_bar (self w)) as [pb|]; [|by right].
  destruct (bar =? bars_created w); [by left|by right].
Qed.

Lemma dispatch_inv_step L k t c w w' :
  dispatch_inv L k w ->
  worker_step t c w = Some w' ->
  dispatch_inv L k w'.
Proof.
  intros [Hold Htotal Hread Hfin] Hstep.
  destruct (worker_step_effect _ _ _ _ Hstep) as (th & th' & Hth & Hrun & Hts & Heff).
  pose proof (running_is_recent _ _ _ _ Hold Hth Hrun) as Hk.
  assert (drop k (threads (self w)) !! (t - k) = Some th) as Hth'.
  { rewrite lookup_drop. by replace (k + (t - k)) with t by lia. }
  pose proof (sum_insert (fun th => length (th_todo th)) _ (t - k) th th' Hth')
    as Hrem.
  fold (remaining (<[t - k:=th']> (drop k (threads (self w))))) in Hrem.
  fold (remaining (drop k (threads (self w)))) in Hrem.
  cbn beta in Hrem.
  pose proof (Forall_lookup_1 _ _ _ _ Hread Hth') as Hmine. cbn beta in Hmine.
  destruct (step_effect_count _ _ _ _ Hrun Heff) as [Hfin' Hcount].
  assert (counter w' + remaining (<[t - k:=th']> (drop k (threads (self w))))
          <= length L
          /\ remaining (<[t - k:=th']> (drop k (threads (self w))))
             <= remaining (drop k (threads (self w)))) as [Htotal' Hless].
  { destruct Hcount as [(Hc & Htodo & _)
                       |(i & Htodo & _ & [[Hc _]|(bar & n & Hpc & Hbar)])].
    - rewrite Htodo in Hrem. lia.
    - rewrite Htodo in Hrem. cbn in Hrem. lia.
    - specialize (Hmine bar n Hpc). rewrite Htodo in Hrem. cbn in Hrem.
      destruct (counter_after_store _ _ _ _ Hbar); lia. }
  split; rewrite ?Hts, ?(take_insert_ge _ k t) by done;
    rewrite ?(drop_insert_ge _ k t) by done.
  - done.
  - done.
  - apply Forall_insert.
    + eapply Forall_impl; [exact Hread|].
      intros th0 H0 bar n Hpc. specialize (H0 bar n Hpc). lia.
    + intros bar n Hpc.
      destruct Hcount as [(Hc & Htodo & Hst)|(i & _ & Hpc' & _)];
        [|by rewrite Hpc' in Hpc].
      destruct (Hst bar n Hpc) as [Hold'|(_ & _ & ->)].
      * specialize (Hmine bar n Hold'). lia.
      * lia.
  - by apply Forall_insert.
Qed.

(** The caller's actions touch neither the threads nor the counter. *)
Lemma counter_after_cleanup w : counter (snd (cleanup tqdm_bool w)) = counter w.
Proof.
  rewrite cleanup_run. destruct w as [g ev]; destruct g as [? ? ? ? ? pb ? ? ? ?].
  unfold counter, bar_after_cleanup; cbn.
  destruct pb as [pb|]; [|done]. by destruct (tqdm_bool pb).
Qed.

Lemma cleanup_writes_no_frame w :
  no_imsave (bar_close_events tqdm_bool (progress_bar (self w))
             ++ map EvViewClose (seq 0 (length (views (self w))))).
Proof.
  apply Forall_app. split.
  - unfold bar_close_events. destruct (progress_bar (self w)) as [pb|];
      [destruct (tqdm_bool pb)|]; by repeat constructor.
  - generalize (seq 0 (length (views (self w)))). intros l.
    induction l; by constructor.
Qed.

Lemma cleanup_opens_no_bar w :
  Forall (fun ev => is_progress_open ev = false)
    (bar_close_events tqdm_bool (progress_bar (self w))
     ++ map EvViewClose (seq 0 (length (views (self w))))).
Proof.
  apply Forall_app. split.
  - unfold bar_close_events. destruct (progress_bar (self w)) as [pb|];
      [destruct (tqdm_bool pb)|]; by repeat constructor.
  - generalize (seq 0 (length (views (self w)))). intros l.
    induction l; by constructor.
Qed.

Lemma dispatch_inv_quiet L k w w' :
  dispatch_inv L k w ->
  threads (self w') = threads (self w) ->
  counter w' = counter w ->
  dispatch_inv L k w'.
Proof.
  intros [Hold Htotal Hread Hfin] Hts Hc.
  split; rewrite ?Hts, ?Hc; done.
Qed.

Lemma dispatch_inv_act L k a w w' :
  dispatch_inv L k w ->
  act tqdm_bool a w = Some w' ->
  dispatch_inv L k w'.
Proof.
  intros Hinv Hact. destruct a as [t c| |output_file fps]; cbn [act] in Hact.
  - eauto using dispatch_inv_step.
  - injection Hact as <-.
    eapply dispatch_inv_quiet; [done|..].
    + rewrite cleanup_run. by destruct w as [[] ?].
    + apply counter_after_cleanup.
  - injection Hact as <-. by eapply dispatch_inv_quiet.
Qed.

Lemma dispatch_inv_exec L k schedule w w' :
  dispatch_inv L k w ->
  exec tqdm_bool schedule w = Some w' ->
  dispatch_inv L k w'.
Proof.
  revert w; induction schedule as [|a rest IH]; intros w Hinv Hexec; cbn in Hexec.
  - by injection Hexec as <-.
  - destruct (act tqdm_bool a w) as [w1|] eqn:Hact; [|done].
    eauto using dispatch_inv_act.
Qed.

Lemma started_from_remaining t pairs :
  remaining (started_from t pairs) = length (concat (map snd pairs)).
Proof.
  revert t; induction pairs as [|[v b] r IH]; intros t; [done|].
  cbn. rewrite length_app. unfold remaining in IH. by rewrite IH.
Qed.

Lemma started_from_running t pairs :
  Forall (fun th => th_status th = Running /\ th_pc th = AtRender)
         (started_from t pairs).
Proof.
  revert t; induction pairs as [|[v b] r IH]; intros t; constructor; auto.
Qed.

(** A dispatch from a generator none of whose earlier workers is running
    establishes the invariant, with the counter at zero. *)
Lemma run_establishes_inv w0 w1 :
  Forall (fun th => th_status th <> Running) (threads (self w0)) ->
  run w0 = (Ok tt, w1) ->
  counter w1 = 0
  /\ remaining (drop (length (threads (self w0))) (threads (self w1)))
     = length (indices (self w0))
  /\ dispatch_inv (indices (self w0)) (length (threads (self w0))) w1.
Proof.
  intros Hold Hrun.
  destruct (views (self w0)) as [|v0 vs] eqn:Hviews.
  { rewrite run_without_views in Hrun by done. discriminate. }
  destruct (array_split_is_partition (indices (self w0)) (length (views (self w0))))
    as (buckets & Hsplit & (Hlen & Hcat & _) & _); [rewrite Hviews; cbn; lia|].
  rewrite (run_dispatches w0 buckets Hsplit) in Hrun. injection Hrun as <-.
  destruct w0 as [g ev]; destruct g as [tr sw folder idx vs' pbar nv ra sel ts].
  cbn in *.
  assert (remaining (started_from (length ts) (zip (seq 0 (length vs')) buckets))
          = length idx) as Hrem.
  { rewrite started_from_remaining.
    change (map snd ?l) with (l.*2). rewrite snd_zip, Hcat; [done|].
    rewrite length_seq. lia. }
  split; [done|]. rewrite drop_app_length. split; [done|].
  split; unfold counter; cbn; rewrite ?take_app_length, ?drop_app_length.
  - done.
  - lia.
  - eapply Forall_impl; [apply started_from_running|].
    intros th [_ Hpc] bar n Hn. by rewrite Hpc in Hn.
  - eapply Forall_impl; [apply started_from_running|].
    intros th [Hst _]. by rewrite Hst.
Qed.

(** *** Claims about teardown *)

(** The three phases of [cleanup] in order, and its safety when [run] was
    never called. *)
Lemma cleanup_order w :
  emitted_by (cleanup tqdm_bool) w
  = bar_close_events tqdm_bool (progress_bar (self w))
    ++ map EvViewClose (seq 0 (length (views (self w)))).
Proof. unfold emitted_by. rewrite cleanup_run. cbn. by rewrite drop_app_length. Qed.

Lemma cleanup_without_run traj0 folder idx sw nv ra sel :
  exists w',
    cleanup tqdm_bool (snd (init mean zero traj0 folder idx sw nv ra sel))
    = (Ok tt, w')
    /\ Forall (fun v => view_closed v = true) (views (self w'))
    /\ progress_bar (self w') = None /\ threads (self w') = [].
Proof.
  rewrite init_run. cbn [snd]. eexists. split; [apply cleanup_run|].
  cbn. split; [|done]. rewrite Forall_forall. intros v Hv.
  apply list_elem_of_In, in_map_iff in Hv as (v0 & <- & _). done.
Qed.

(** C10. Whatever the worker threads are doing, every [_stop_thread] call
    made by [cleanup] raises [TypeError] and changes nothing, the loop
    catches it and goes on, so the loop and [cleanup] as a whole return
    without an exception, leave every thread exactly as it was (running
    threads keep running, none gets an exception set) and never call
    [PyThreadState_SetAsyncExc]. *)
Theorem cleanup_delivers_no_stop w :
  (forall t (w1 : World V), _stop_thread [ObjThread t] w1 = (Raise TypeError, w1))
  /\ (forall l (w1 : World V), for_each l stop_attempt w1 = (Ok tt, w1))
  /\ exists w',
       cleanup tqdm_bool w = (Ok tt, w')
       /\ threads (self w') = threads (self w)
       /\ forall tid exc,
            EvSetAsyncExc tid exc ∉ emitted_by (cleanup tqdm_bool) w.
Proof.
  split; [done|]. split; [apply stop_loop|].
  eexists. split; [apply cleanup_run|]. split; [by destruct w as [[] ?]|].
  intros tid exc. rewrite cleanup_order. intros Hin.
  apply elem_of_app in Hin as [Hin|Hin].
  - unfold bar_close_events in Hin.
    destruct (progress_bar (self w)) as [pb|]; [destruct (tqdm_bool pb)|].
    + by apply list_elem_of_singleton in Hin.
    + by apply elem_of_nil in Hin.
    + by apply elem_of_nil in Hin.
  - apply list_elem_of_In, in_map_iff in Hin as (v & Hv & _). discriminate.
Qed.

(** C3. For a worker that has already finished, the forced-stop attempt
    [cleanup] makes on its handle returns normally and changes nothing;
    [cleanup] as a whole returns normally, with the progress counter at the
    value it had and the finished worker as it was. *)
Theorem forced_stop_of_finished_worker w t th :
  threads (self w) !! t = Some th ->
  th_status th = Finished ->
  stop_attempt t w = (Ok tt, w)
  /\ exists w',
       cleanup tqdm_bool w = (Ok tt, w')
       /\ counter w' = counter w
       /\ threads (self w') !! t = Some th.
Proof.
  intros Hth Hst. split; [done|].
  eexists. split; [apply cleanup_run|].
  destruct w as [g ev]; destruct g as [? ? ? ? ? pb ? ? ? ?]; cbn in *.
  split; [|done]. unfold counter, bar_after_cleanup; cbn.
  destruct pb as [pb|]; [|done]. by destruct (tqdm_bool pb).
Qed.

End Properties.

(** ** The claims that fail, at concrete inputs *)

(** C4. Three workers are rendering when [cleanup] is called.  It returns
    normally, and all three are still running, with no exception pending;
    left to run, they go on to write all seven frames and return, while the
    bar, which [cleanup] has closed, counts none of them. *)
Theorem cleanup_leaves_workers_running :
  exists w',
    cleanup Example.tqdm_bool Example.dispatched = (Ok tt, w')
    /\ map th_status (threads (self w')) = [Running; Running; Running]
    /\ map th_async (threads (self w')) = [None; None; None]
    /\ exists w'',
         exec Example.tqdm_bool Example.full_schedule_uncounted w' = Some w''
         /\ map th_status (threads (self w'')) = [Finished; Finished; Finished]
         /\ saved w'' = 7 /\ counter w'' = 0.
Proof.
  eexists. split; [apply cleanup_run|].
  split; [reflexivity|]. split; [reflexivity|].
  eexists. split; [vm_compute; reflexivity|]. repeat split; reflexivity.
Qed.

(** C5 as stated fails in three ways.  Two workers whose updates overlap
    count one frame between them: all seven files are written, every
    worker returns, and the counter is at six.  After [cleanup] has closed
    the bar the workers write their seven files and return, and the counter
    is where it was, at zero.  And after a second call of [run] the workers
    of both dispatches count on the new bar, which goes past the seven
    requested frames. *)
Lemma counter_misses_and_overruns :
  (exec Example.tqdm_bool Cases.racing Example.dispatched = Some Cases.raced
   /\ map th_status (threads (self Cases.raced)) = [Finished; Finished; Finished]
   /\ saved Cases.raced = 7
   /\ length (indices (self Cases.raced)) = 7
   /\ counter Cases.raced = 6)
  /\ (exec Example.tqdm_bool (CallCleanup :: Example.full_schedule_uncounted)
        Example.dispatched
      = Some Example.torn_down_early
      /\ map th_status (threads (self Example.torn_down_early))
         = [Finished; Finished; Finished]
      /\ saved Example.torn_down_early = 7
      /\ length (indices (self Example.torn_down_early)) = 7
      /\ counter Example.torn_down_early = 0)
  /\ (run Example.dispatched = (Ok tt, Cases.dispatched_twice)
      /\ exec Example.tqdm_bool Cases.overrunning Cases.dispatched_twice
         = Some Cases.overrun
      /\ length (indices (self Cases.overrun)) = 7
      /\ counter Cases.overrun = 8).
Proof.
  split; [|split].
  - do 3 (split; [vm_compute; reflexivity|]). split; vm_compute; reflexivity.
  - do 3 (split; [vm_compute; reflexivity|]). split; vm_compute; reflexivity.
  - split; [vm_compute; reflexivity|]. split; [vm_compute; reflexivity|].
    split; vm_compute; reflexivity.
Qed.

(** C8 as stated fails: with [num_views = 0] the constructor raises nothing. *)
Lemma zero_views_construct_without_error : ~ raises Example.no_views.
Proof. intros [e He]. vm_compute in He. discriminate. Qed.

(** C9 as stated fails: [run] does not create the image folder. *)
Lemma dispatch_creates_no_folder :
  makedirs_calls (emitted_by run Example.constructed) <> 1.
Proof. vm_compute. discriminate. Qed.

(** ** The theorems at the concrete generator *)

Lemma run_partitions_indices_witness :
  length (views (self Example.constructed)) = 3
  /\ 1 <= 3
  /\ exists buckets w',
       run Example.constructed = (Ok tt, w')
       /\ map (fun th => (th_view th, th_bucket th))
              (drop (length (threads (self Example.constructed)))
                    (threads (self w')))
          = zip (seq 0 3) buckets
       /\ Spec.array_split_partition (indices (self Example.constructed)) 3 buckets
       /\ (length (indices (self Example.constructed)) < 3 ->
           Spec.at_most_singletons buckets).
Proof.
  split; [reflexivity|]. split; [repeat constructor|].
  apply (run_partitions_indices Example.constructed 3);
    [reflexivity|repeat constructor].
Defined.

Lemma smoothing_window_law_witness :
  (1 < smoothing_window (self Example.raw_on_file))%Z
  /\ (1 < smoothing_window (self Example.raw))%Z
  /\ smooth_trajectory Example.Qmean 0%Q Example.raw_on_file
     = (Ok tt, Example.raw_on_file)
  /\ exists w',
       smooth_trajectory Example.Qmean 0%Q Example.raw = (Ok tt, w')
       /\ frames (traj (self w')) !! 0
          = Some (Spec.mean_positions Example.Qmean 0%Q 2
                    (Spec.frames_between 0 1 (frames Example.universe)))
       /\ frames (traj (self w')) !! 2
          = Some (Spec.mean_positions Example.Qmean 0%Q 2
                    (Spec.frames_between 1 3 (frames Example.universe))).
Proof.
  split; [reflexivity|]. split; [reflexivity|]. split.
  - destruct (smoothing_window_law Example.Qmean 0%Q Example.raw_on_file eq_refl)
      as (w' & Hrun & Hfile & _).
    rewrite Hrun. f_equal. exact (Hfile eq_refl).
  - destruct (smoothing_window_law Example.Qmean 0%Q Example.raw eq_refl)
      as (w' & Hrun & _ & Hmem).
    destruct (Hmem eq_refl) as (_ & _ & Hends & _ & Hinner).
    exists w'. split; [exact Hrun|]. split.
    + apply Hends. repeat constructor.
    + apply (Hinner 2). split; [discriminate|reflexivity].
Defined.

Lemma forced_stop_of_finished_worker_witness :
  threads (self Example.completed) !! 0 = Some Example.finished_worker
  /\ th_status Example.finished_worker = Finished
  /\ stop_attempt 0 Example.completed = (Ok tt, Example.completed)
  /\ exists w',
       cleanup Example.tqdm_bool Example.completed = (Ok tt, w')
       /\ counter w' = counter Example.completed
       /\ threads (self w') !! 0 = Some Example.finished_worker.
Proof.
  split; [reflexivity|]. split; [reflexivity|].
  apply (forced_stop_of_finished_worker Example.tqdm_bool Example.completed 0
           Example.finished_worker); reflexivity.
Defined.

Lemma frame_paths_from_indices_witness :
  "frames"%string <> ""%string
  /\ Path.ends_with_sep "frames" = false
  /\ (0 <= 10 < 1000000)%Z
  /\ Path.frame_path "frames" 10
     = ("frames" +:+ "/" +:+ "frame_" +:+ Path.format_06d 10 +:+ ".png")%string
  /\ String.length (Path.format_06d 10) = 6.
Proof.
  destruct (frame_paths_from_indices (V:=Q)) as (_ & Hplain & _ & Hwidth & _).
  assert ("frames"%string <> ""%string) as Hne by discriminate.
  assert ((0 <= 10 < 1000000)%Z) as Hi by (split; [discriminate|reflexivity]).
  split; [exact Hne|]. split; [reflexivity|]. split; [exact Hi|].
  split; [apply (Hplain "frames"%string 10%Z Hne eq_refl)|apply (Hwidth 10%Z Hi)].
Defined.

Lemma small_window_leaves_positions_witness :
  (1 <= 1)%Z
  /\ exists w,
       init Example.Qmean 0%Q Example.universe "frames" Example.frame_indices
            1 3 None None = (Ok tt, w)
       /\ traj (self w) = Example.universe
       /\ frames (traj (self w)) = frames Example.universe.
Proof.
  split; [discriminate|].
  apply (small_window_leaves_positions Example.Qmean 0%Q Example.universe
           "frames" Example.frame_indices 1 3 None None).
  discriminate.
Defined.

Lemma makedirs_once_at_construction_witness :
  worker_step 0 Proceed Example.dispatched
  = Some (match worker_step 0 Proceed Example.dispatched with
          | Some w => w
          | None => Example.dispatched
          end)
  /\ makedirs_calls
       (events (match worker_step 0 Proceed Example.dispatched with
                | Some w => w
                | None => Example.dispatched
                end))
     = makedirs_calls (events Example.dispatched).
Proof.
  destruct (makedirs_once_at_construction Example.Qmean 0%Q) as (_ & _ & Hstep).
  split; [reflexivity|]. apply (Hstep 0 Proceed). reflexivity.
Defined.

(** ** Properties of natural sorting *)

Section NaturalSorting.

Import Natural.

Lemma re_split_nonempty key : re_split key <> [].
Proof.
  induction key as [|c r IH]; [done|]. cbn [re_split].
  destruct (re_split r) as [|t tl]; [done|].
  destruct (is_ascii_digit c); [|done].
  destruct t; [destruct tl|]; done.
Qed.

Lemma re_split_alternates key : alternates (re_split key).
Proof.
  induction key as [|c r IH]; [done|]. cbn [re_split].
  destruct (re_split r) as [|t tl] eqn:Hr; [done|].
  destruct (is_ascii_digit c) eqn:Hc.
  - destruct t as [|c0 t].
    + destruct tl as [|d tl'].
      * cbn. by rewrite Hc.
      * cbn in IH |- *. destruct IH as (_ & Hne & Hd & Hrest).
        rewrite Hc, Hd. done.
    + change (alternates (EmptyString :: String c EmptyString :: String c0 t :: tl)).
      cbn [alternates]. cbn [all_chars nonempty]. rewrite Hc. done.
  - destruct tl as [|d tl'].
    + cbn in IH |- *. by rewrite Hc, IH.
    + cbn in IH |- *. destruct IH as (Ht & Hne & Hd & Hrest).
      rewrite Hc, Ht. done.
Qed.

Lemma re_split_join key : join_pieces (re_split key) = key.
Proof.
  induction key as [|c r IH]; [done|]. cbn [re_split].
  destruct (re_split r) as [|t tl] eqn:Hr.
  { by destruct (re_split_nonempty r). }
  destruct (is_ascii_digit c).
  - destruct t as [|c0 t]; [destruct tl as [|d tl']|];
      cbn in IH |- *; by rewrite <- IH.
  - cbn in IH |- *. by rewrite <- IH.
Qed.

Lemma convert_text t k :
  all_chars (fun c => negb (is_ascii_digit c)) t = true ->
  convert t = Ok k -> exists s, k = KStr s.
Proof.
  unfold convert, isdigit, int. intros Ht Hk.
  destruct t as [|c t]; cbn in *; [injection Hk as <-; eauto|].
  apply andb_prop in Ht as [Hc _]. apply negb_true_iff in Hc. rewrite Hc in Hk.
  cbn in Hk. destruct (char_isdigit c && all_chars char_isdigit t);
    [done|injection Hk as <-; eauto].
Qed.

Lemma all_chars_impl (p q : ascii -> bool) s :
  (forall c, p c = true -> q c = true) ->
  all_chars p s = true -> all_chars q s = true.
Proof.
  intros Hpq. induction s as [|c s IH]; [done|]. cbn.
  intros [Hc Hs]%andb_prop. by rewrite (Hpq c Hc), IH.
Qed.

Lemma convert_digits d :
  nonempty d = true -> all_chars is_ascii_digit d = true ->
  convert d = Ok (KInt (Path.value d)).
Proof.
  intros Hne Hd. unfold convert, isdigit, int. rewrite Hne, Hd.
  rewrite (all_chars_impl is_ascii_digit char_isdigit); [done| |done].
  intros c Hc. unfold char_isdigit. by rewrite Hc.
Qed.

Lemma map_convert_shape n pieces k :
  length pieces <= n -> alternates pieces ->
  map_result convert pieces = Ok k -> key_shape true k.
Proof.
  revert pieces k; induction n as [|n IH]; intros pieces k Hn Halt Hk.
  { destruct pieces; [done|cbn in Hn; lia]. }
  destruct pieces as [|t [|d rest]]; [done| |].
  - cbn in Halt, Hk. destruct (convert t) as [kt|] eqn:Ht; [|done].
    injection Hk as <-. destruct (convert_text t kt Halt Ht) as [s ->]. done.
  - cbn [alternates] in Halt. destruct Halt as (Ht & Hne & Hd & Hrest).
    cbn [map_result] in Hk.
    destruct (convert t) as [kt|] eqn:Hct; [|done].
    rewrite (convert_digits d Hne Hd) in Hk.
    destruct (map_result convert rest) as [kr|] eqn:Hr; [|done].
    injection Hk as <-. destruct (convert_text t kt Ht Hct) as [s ->].
    cbn. repeat split. apply (IH rest); [cbn in Hn; lia|done..].
Qed.

(** The key of a string has texts and numbers in turn. *)
Lemma alphanum_key_shape key k :
  alphanum_key key = Ok k -> key_shape true k.
Proof.
  intros Hk. eapply map_convert_shape; [done|apply re_split_alternates|done].
Qed.

Lemma key_lt_total e a b :
  key_shape e a -> key_shape e b -> exists r, key_lt a b = Ok r.
Proof.
  revert e b; induction a as [|x a IH]; intros e b Ha Hb.
  - destruct b; cbn; eauto.
  - destruct b as [|y b]; [cbn; eauto|].
    destruct x, y; cbn in Ha, Hb |- *; destruct Ha as [-> Ha], Hb as [? Hb];
      try done; match goal with |- context [if ?c then _ else _] =>
                  destruct c end; eauto.
Qed.

(** X2. On Latin-1 strings, two keys made by [alphanum_key] can always be
    compared: ordering them never raises the [TypeError] of a number
    against a text. *)
Theorem keys_always_comparable a b ka kb :
  alphanum_key a = Ok ka ->
  alphanum_key b = Ok kb ->
  exists r, key_lt ka kb = Ok r.
Proof.
  intros Ha Hb. eapply key_lt_total; by eapply alphanum_key_shape.
Qed.

Lemma code_inj x y : code x = code y -> x = y.
Proof.
  unfold code. intros H.
  by rewrite <- (ascii_N_embedding x), <- (ascii_N_embedding y), H.
Qed.

Lemma str_ltb_irrefl a : str_ltb a a = false.
Proof. induction a as [|x a IH]; [done|]. cbn. by rewrite N.eqb_refl. Qed.

Lemma str_ltb_asym a b : str_ltb a b = true -> str_ltb b a = false.
Proof.
  revert b; induction a as [|x a IH]; intros [|y b]; cbn; try done.
  destruct (N.eqb_spec (code x) (code y)) as [Heq|Hne].
  - rewrite Heq, N.eqb_refl. apply IH.
  - intros Hlt%N.ltb_lt. destruct (N.eqb_spec (code y) (code x)); [lia|].
    apply N.ltb_ge. lia.
Qed.

Lemma str_ltb_trich a b :
  str_ltb a b = false -> str_ltb b a = false -> a = b.
Proof.
  revert b; induction a as [|x a IH]; intros [|y b]; cbn; try done.
  destruct (N.eqb_spec (code x) (code y)) as [Heq|Hne].
  - rewrite Heq, N.eqb_refl. intros H1 H2.
    by rewrite (code_inj _ _ Heq), (IH b H1 H2).
  - intros H1%N.ltb_ge. destruct (N.eqb_spec (code y) (code x)); [lia|].
    intros H2%N.ltb_ge. lia.
Qed.

Lemma str_ltb_trans a b c :
  str_ltb a b = true -> str_ltb b c = true -> str_ltb a c = true.
Proof.
  revert b c; induction a as [|x a IH]; intros [|y b] [|z c]; cbn; try done.
  destruct (N.eqb_spec (code x) (code y)) as [Hxy|Hxy],
           (N.eqb_spec (code y) (code z)) as [Hyz|Hyz],
           (N.eqb_spec (code x) (code z)) as [Hxz|Hxz];
    rewrite ?N.ltb_lt; try lia; eauto.
Qed.

Lemma part_eqb_eq x y : part_eqb x y = true <-> x = y.
Proof.
  destruct x as [n|s], y as [m|t]; cbn; try done.
  - rewrite N.eqb_eq. split; congruence.
  - rewrite String.eqb_eq. split; congruence.
Qed.

Lemma part_eqb_refl x : part_eqb x x = true.
Proof. by apply part_eqb_eq. Qed.

Lemma part_eqb_sym x y : part_eqb x y = part_eqb y x.
Proof.
  destruct (part_eqb x y) eqn:H1, (part_eqb y x) eqn:H2; try done.
  - apply part_eqb_eq in H1 as ->. by rewrite part_eqb_refl in H2.
  - apply part_eqb_eq in H2 as ->. by rewrite part_eqb_refl in H1.
Qed.

Lemma part_lt_trich x y :
  same_kind x y -> part_eqb y x = false -> part_lt y x = Ok false ->
  part_lt x y = Ok true.
Proof.
  destruct x as [n|s], y as [m|t]; cbn; try done; intros _ Hne Hlt.
  - f_equal. apply N.ltb_lt. apply N.eqb_neq in Hne.
    injection Hlt as Hlt%N.ltb_ge. lia.
  - f_equal. injection Hlt as Hlt.
    destruct (str_ltb s t) eqn:Hst; [done|].
    rewrite (str_ltb_trich s t Hst Hlt), String.eqb_refl in Hne. done.
Qed.

Lemma part_lt_asym x y :
  part_lt x y = Ok true -> part_lt y x = Ok false /\ part_eqb y x = false.
Proof.
  destruct x as [n|s], y as [m|t]; cbn; try done; intros Hlt; injection Hlt as Hlt.
  - apply N.ltb_lt in Hlt. split; [f_equal; apply N.ltb_ge; lia|].
    apply N.eqb_neq. lia.
  - split; [by rewrite (str_ltb_asym s t Hlt)|].
    destruct (String.eqb_spec t s) as [->|]; [|done].
    by rewrite str_ltb_irrefl in Hlt.
Qed.

Lemma part_lt_trans x y z :
  part_lt x y = Ok true -> part_lt y z = Ok true -> part_lt x z = Ok true.
Proof.
  destruct x as [n|s], y as [m|t], z as [k|u]; cbn; try done;
    intros H1 H2; injection H1 as H1; injection H2 as H2; f_equal.
  - apply N.ltb_lt in H1, H2. apply N.ltb_lt. lia.
  - by eapply str_ltb_trans.
Qed.

Lemma key_shape_head e x a y b :
  key_shape e (x :: a) -> key_shape e (y :: b) ->
  same_kind x y /\ key_shape (negb e) a /\ key_shape (negb e) b.
Proof.
  destruct x, y; cbn; intros [-> Ha] [? Hb]; done.
Qed.

Lemma key_lt_irrefl a : key_lt a a = Ok false.
Proof. induction a as [|x a IH]; [done|]. cbn. by rewrite part_eqb_refl. Qed.

Lemma key_lt_asym e a b :
  key_shape e a -> key_shape e b ->
  key_lt a b = Ok true -> key_lt b a = Ok false.
Proof.
  revert e b; induction a as [|x a IH]; intros e [|y b] Ha Hb; cbn; try done.
  destruct (key_shape_head _ _ _ _ _ Ha Hb) as (Hk & Ha' & Hb').
  rewrite (part_eqb_sym y x). destruct (part_eqb x y).
  - by apply (IH (negb e)).
  - intros Hlt. by apply part_lt_asym in Hlt as [? _].
Qed.

Lemma key_le_trans e a b c :
  key_shape e a -> key_shape e b -> key_shape e c ->
  key_lt b a = Ok false -> key_lt c b = Ok false -> key_lt c a = Ok false.
Proof.
  revert e b c; induction a as [|x a IH]; intros e b c Ha Hb Hc Hab Hbc.
  { by destruct c. }
  destruct b as [|y b]; [done|]. destruct c as [|z c]; [done|].
  destruct (key_shape_head _ _ _ _ _ Ha Hb) as (Hxy & Ha' & Hb').
  destruct (key_shape_head _ _ _ _ _ Hb Hc) as (Hyz & _ & Hc').
  cbn in Hab, Hbc |- *.
  destruct (part_eqb y x) eqn:Eyx.
  - apply part_eqb_eq in Eyx as ->.
    destruct (part_eqb z x); [by apply (IH (negb e) b)|done].
  - pose proof (part_lt_trich x y Hxy Eyx Hab) as Hlt_xy.
    destruct (part_eqb z y) eqn:Ezy.
    + apply part_eqb_eq in Ezy as ->. by rewrite Eyx.
    + pose proof (part_lt_trich y z Hyz Ezy Hbc) as Hlt_yz.
      pose proof (part_lt_trans _ _ _ Hlt_xy Hlt_yz) as Hlt_xz.
      by apply part_lt_asym in Hlt_xz as [-> ->].
Qed.

Lemma insert_sorted_spec {A} (x : list keypart * A) l :
  key_shape true (fst x) ->
  Forall (fun p => key_shape true (fst p)) l ->
  exists r,
    insert_sorted key_lt x l = Ok r
    /\ r ≡ₚ x :: l
    /\ (StronglySorted pair_le l -> StronglySorted pair_le r)
    /\ (forall k, filter (fun p => fst p = k) r
                  = filter (fun p => fst p = k) (x :: l)).
Proof.
  intros Hx. induction 1 as [|y l Hy Hl IH].
  { exists [x]. repeat split; [done|]. intros _. by repeat constructor. }
  cbn [insert_sorted].
  destruct (key_lt_total true (fst y) (fst x) Hy Hx) as [[] Hlt]; rewrite Hlt.
  - destruct IH as (r & -> & Hperm & Hsorted & Hstable).
    exists (y :: r). split; [done|]. split; [|split].
    + rewrite Hperm. apply perm_swap.
    + intros Hs. apply StronglySorted_inv in Hs as [Hs Hall].
      constructor; [by apply Hsorted|].
      rewrite Hperm. constructor; [|done].
      unfold pair_le. by eapply key_lt_asym.
    + intros k. rewrite !filter_cons, Hstable, filter_cons.
      destruct (decide (fst y = k)) as [Hyk|Hyk],
               (decide (fst x = k)) as [Hxk|Hxk]; try done.
      rewrite Hyk, Hxk, key_lt_irrefl in Hlt. done.
  - exists (x :: y :: l). repeat split; [done|].
    intros Hs. constructor; [done|].
    pose proof Hs as [_ Hall]%StronglySorted_inv.
    constructor; [done|].
    rewrite Forall_forall in Hall, Hl |- *. intros z Hz.
    unfold pair_le. eapply (key_le_trans true (fst x) (fst y) (fst z));
      [done|done|by apply Hl|done|by apply Hall].
Qed.

Lemma sort_pairs_spec {A} (l : list (list keypart * A)) :
  Forall (fun p => key_shape true (fst p)) l ->
  exists r,
    sort_pairs key_lt l = Ok r
    /\ r ≡ₚ l
    /\ StronglySorted pair_le r
    /\ (forall k, filter (fun p => fst p = k) r = filter (fun p => fst p = k) l).
Proof.
  induction 1 as [|x l Hx Hl IH].
  { exists []. split; [done|]. split; [done|]. split; [constructor|done]. }
  destruct IH as (r' & Hr' & Hperm & Hsorted & Hstable).
  cbn [sort_pairs]. rewrite Hr'.
  destruct (insert_sorted_spec x r' Hx) as (r & Hr & Hperm' & Hsorted' & Hstable').
  { by rewrite Hperm. }
  exists r. split; [done|]. split; [by rewrite Hperm', Hperm|].
  split; [by apply Hsorted'|].
  intros k. by rewrite Hstable', !filter_cons, Hstable.
Qed.

Lemma re_split_chars (p : ascii -> bool) key :
  all_chars p key = true ->
  Forall (fun t => all_chars p t = true) (re_split key).
Proof.
  induction key as [|c r IH]; [by repeat constructor|].
  cbn [all_chars re_split]. intros [Hc Hr]%andb_prop. specialize (IH Hr).
  destruct (re_split r) as [|t tl]; [repeat constructor; cbn; by rewrite Hc|].
  apply Forall_cons in IH as [Ht Htl].
  destruct (is_ascii_digit c).
  - destruct t as [|c0 t]; [destruct tl as [|d tl']|].
    + repeat constructor; cbn; by rewrite ?Hc.
    + apply Forall_cons in Htl as [Hd Htl'].
      repeat constructor; cbn; by rewrite ?Hc, ?Hd.
    + repeat constructor; cbn; by rewrite ?Hc.
  - constructor; [cbn; by rewrite Hc, Ht|done].
Qed.

Lemma convert_ok t :
  all_chars (fun c => negb (is_superscript c)) t = true ->
  exists k, convert t = Ok k.
Proof.
  intros Ht. unfold convert, isdigit, int.
  destruct (nonempty t && all_chars char_isdigit t) eqn:Hd; [|eauto].
  apply andb_prop in Hd as [_ Hd].
  assert (all_chars is_ascii_digit t = true) as ->; [|eauto].
  clear -Ht Hd. induction t as [|c t IH]; [done|]. cbn in *.
  apply andb_prop in Ht as [Hc Ht], Hd as [Hc' Hd].
  rewrite IH by done. unfold char_isdigit in Hc'.
  destruct (is_ascii_digit c); [done|]. cbn in Hc'. by rewrite Hc' in Hc.
Qed.

Lemma alphanum_key_ok key :
  all_chars (fun c => negb (is_superscript c)) key = true ->
  exists k, alphanum_key key = Ok k.
Proof.
  intros Hkey%re_split_chars. unfold alphanum_key.
  induction Hkey as [|t ts Ht _ IH]; [by exists []|].
  destruct (convert_ok t Ht) as [k Hk], IH as [ks Hks].
  exists (k :: ks). cbn. by rewrite Hk, Hks.
Qed.

Lemma map_result_ok {A B} (f : A -> result B) (l : list A) :
  Forall (fun x => exists y, f x = Ok y) l ->
  exists ys, map_result f l = Ok ys /\ Forall2 (fun x y => f x = Ok y) l ys.
Proof.
  induction 1 as [|x l [y Hy] _ (ys & Hys & Hall)]; [by exists []|].
  exists (y :: ys). cbn. rewrite Hy, Hys. by repeat constructor.
Qed.

Lemma zip_keyed (l : list string) keys :
  Forall2 (fun x k => alphanum_key x = Ok k) l keys ->
  Forall keyed (zip keys l) /\ map snd (zip keys l) = l.
Proof.
  induction 1 as [|x k l keys Hk _ [IH1 IH2]]; [done|].
  cbn. split; [by constructor|by rewrite IH2].
Qed.

Lemma filter_keyed (pairs : list (list keypart * string)) k :
  Forall keyed pairs ->
  map snd (filter (fun p => fst p = k) pairs)
  = filter (fun x => alphanum_key x = Ok k) (map snd pairs).
Proof.
  induction 1 as [|[k0 s] pairs Hk _ IH]; [done|].
  cbn [map snd]. rewrite !filter_cons. unfold keyed in Hk.
  cbn [fst snd] in Hk |- *. rewrite Hk. destruct (decide (k0 = k)) as [->|Hne].
  - rewrite decide_True by done. cbn. by rewrite IH.
  - rewrite decide_False by congruence. done.
Qed.

Lemma sorted_lookup {A} (R : A -> A -> Prop) (l : list A) i j x y :
  StronglySorted R l -> i < j -> l !! i = Some x -> l !! j = Some y -> R x y.
Proof.
  intros Hs. revert i j. induction Hs as [|a l Hs IH Hall]; intros i j Hij Hi Hj.
  { done. }
  destruct j as [|j]; [lia|]. cbn in Hj. destruct i as [|i].
  - injection Hi as <-. rewrite Forall_forall in Hall. apply Hall.
    by eapply list_elem_of_lookup_2.
  - apply (IH i j); [lia|done..].
Qed.

(** X3. On strings without the superscripts two, three and one (and of no
    more characters than the digits [int] converts under every
    interpreter), [sorted_alphanumeric] returns a list (it raises
    nothing): a permutation of its argument, in natural order (no later key
    is smaller than an earlier one), with the strings of equal key in the
    order they came in. *)
Theorem sorted_alphanumeric_sorts (l : list string) :
  Forall (fun s => all_chars (fun c => negb (is_superscript c)) s = true) l ->
  Forall (fun s => String.length s <= max_str_digits) l ->
  exists out,
    sorted_alphanumeric l = Ok out
    /\ out ≡ₚ l
    /\ in_natural_order out
    /\ forall k, filter (fun x => alphanum_key x = Ok k) out
                 = filter (fun x => alphanum_key x = Ok k) l.
Proof.
  intros Hl _.
  destruct (map_result_ok alphanum_key l) as (keys & Hkeys & Hall).
  { eapply Forall_impl; [exact Hl|]. intros s Hs. by apply alphanum_key_ok. }
  destruct (zip_keyed l keys Hall) as [Hkeyed Hsnd].
  destruct (sort_pairs_spec (zip keys l)) as (r & Hr & Hperm & Hsorted & Hstable).
  { eapply Forall_impl; [exact Hkeyed|]. intros [k s] Hk.
    by eapply alphanum_key_shape. }
  assert (Forall keyed r) as Hkeyed_r by (by rewrite Hperm).
  exists (map snd r). unfold sorted_alphanumeric. rewrite Hkeys, Hr.
  split; [done|]. split; [|split].
  - etransitivity; [apply Permutation_map, Hperm|by rewrite Hsnd].
  - intros i j a b Hij Hi Hj.
    change (map snd r) with (snd <$> r) in Hi, Hj.
    rewrite list_lookup_fmap in Hi, Hj.
    destruct (r !! i) as [[ka a']|] eqn:Hri; [|done].
    destruct (r !! j) as [[kb b']|] eqn:Hrj; [|done].
    cbn in Hi, Hj. injection Hi as ->. injection Hj as ->.
    rewrite Forall_lookup in Hkeyed_r.
    exists ka, kb. split; [exact (Hkeyed_r _ _ Hri)|].
    split; [exact (Hkeyed_r _ _ Hrj)|].
    exact (sorted_lookup _ _ _ _ _ _ Hsorted Hij Hri Hrj).
  - intros k. rewrite <- (filter_keyed r k Hkeyed_r), Hstable.
    by rewrite (filter_keyed _ k Hkeyed), Hsnd.
Qed.

(** X1. [re.split('([0-9]+)', key)] loses nothing and cuts where it should:
    the pieces put together again are the key, and they are in turn a text
    without digits and a non-empty run of digits, beginning and ending with
    a text. *)
Theorem re_split_pieces key :
  join_pieces (re_split key) = key /\ alternates (re_split key).
Proof. split; [apply re_split_join|apply re_split_alternates]. Qed.

Lemma append_cons c (s t : string) : String c s +:+ t = String c (s +:+ t).
Proof. reflexivity. Qed.

Lemma append_empty_r (s : string) : s +:+ "" = s.
Proof. induction s as [|c s IH]; [done|]. by rewrite append_cons, IH. Qed.

Lemma append_assoc (a b c : string) : (a +:+ b) +:+ c = a +:+ b +:+ c.
Proof. induction a as [|x a IH]; [done|]. by rewrite !append_cons, IH. Qed.

Lemma all_chars_app p (a b : string) :
  all_chars p (a +:+ b) = all_chars p a && all_chars p b.
Proof.
  induction a as [|x a IH]; [done|]. rewrite append_cons. cbn.
  by rewrite IH, andb_assoc.
Qed.

Lemma re_split_text t :
  all_chars (fun c => negb (is_ascii_digit c)) t = true -> re_split t = [t].
Proof.
  induction t as [|c t IH]; [done|]. cbn [all_chars re_split].
  intros [Hc Ht]%andb_prop. rewrite (IH Ht).
  apply negb_true_iff in Hc. by rewrite Hc.
Qed.

Lemma re_split_digits d q :
  nonempty d = true -> all_chars is_ascii_digit d = true ->
  all_chars (fun c => negb (is_ascii_digit c)) q = true ->
  re_split (d +:+ q) = [""; d; q].
Proof.
  intros Hne Hd Hq. induction d as [|c d IH]; [done|].
  cbn in Hd. apply andb_prop in Hd as [Hc Hd].
  rewrite append_cons. cbn [re_split]. destruct d as [|c' d].
  - change ("" +:+ q) with q. rewrite (re_split_text q Hq), Hc.
    by destruct q.
  - rewrite (IH eq_refl Hd), Hc. done.
Qed.

Lemma re_split_prefix p s :
  all_chars (fun c => negb (is_ascii_digit c)) p = true ->
  re_split (p +:+ s)
  = match re_split s with
    | t :: tl => (p +:+ t) :: tl
    | [] => [p]
    end.
Proof.
  induction p as [|c p IH]; cbn [all_chars].
  - intros _. change ("" +:+ s) with s. destruct (re_split s) eqn:Hs; [|done].
    by destruct (re_split_nonempty s).
  - intros [Hc Hp]%andb_prop. rewrite append_cons. cbn [re_split].
    rewrite (IH Hp). apply negb_true_iff in Hc. rewrite Hc.
    destruct (re_split s) eqn:Hs; [|done]. by destruct (re_split_nonempty s).
Qed.

Lemma is_digit_char d : (d < 10)%N -> is_ascii_digit (Path.digit_char d) = true.
Proof.
  intros Hd. unfold is_ascii_digit, code, Path.digit_char.
  rewrite N_ascii_embedding by lia.
  apply andb_true_intro. split; apply N.leb_le; lia.
Qed.

Lemma decimal_go_digits f n acc :
  all_chars is_ascii_digit acc = true ->
  all_chars is_ascii_digit (Path.decimal_go f n acc) = true.
Proof.
  revert n acc; induction f as [|f IH]; intros n acc Hacc; [done|].
  cbn [Path.decimal_go].
  assert (all_chars is_ascii_digit (String (Path.digit_char (n mod 10)) acc) = true)
    as Hacc'.
  { cbn. rewrite Hacc, is_digit_char; [done|]. apply N.mod_lt. lia. }
  destruct (n / 10 =? 0)%N; [done|]. by apply IH.
Qed.

Lemma decimal_go_nonempty f n acc : nonempty (Path.decimal_go (S f) n acc) = true.
Proof.
  revert n acc; induction f as [|f IH]; intros n acc; cbn [Path.decimal_go].
  - by destruct (n / 10 =? 0)%N.
  - destruct (n / 10 =? 0)%N; [done|]. apply IH.
Qed.

Lemma zeros_digits k : all_chars is_ascii_digit (Path.zeros k) = true.
Proof. induction k as [|k IH]; [done|]. exact IH. Qed.

Lemma value_zeros k s : Path.value (Path.zeros k +:+ s) = Path.value s.
Proof.
  unfold Path.value. induction k as [|k IH]; [done|].
  change (Path.zeros (S k)) with (String "0" (Path.zeros k)).
  rewrite append_cons. exact IH.
Qed.

(** The number in a frame name: digits only, at least one, reading back as
    the index. *)
Lemma format_06d_digits (i : Z) :
  (0 <= i)%Z ->
  nonempty (Path.format_06d i) = true
  /\ all_chars is_ascii_digit (Path.format_06d i) = true
  /\ Path.value (Path.format_06d i) = Z.to_N i.
Proof.
  intros Hi. rewrite format_06d_nonneg by done.
  pose proof (decimal_go_nonempty (N.to_nat (N.size (Z.to_N i))) (Z.to_N i) "")
    as Hne.
  pose proof (decimal_go_digits (S (N.to_nat (N.size (Z.to_N i)))) (Z.to_N i) ""
                eq_refl) as Hd.
  fold (Path.decimal (Z.to_N i)) in Hne, Hd.
  split; [|split].
  - destruct (Path.zeros _); [exact Hne|done].
  - by rewrite all_chars_app, zeros_digits, Hd.
  - by rewrite value_zeros, decimal_value.
Qed.

Lemma frame_path_prefix folder i :
  Path.frame_path folder i
  = path_prefix folder +:+ Path.format_06d i +:+ ".png".
Proof.
  unfold Path.frame_path, Path.join, path_prefix.
  change (Path.starts_with_sep ("frame_" +:+ Path.format_06d i +:+ ".png"))
    with false. cbn match.
  destruct (String.eqb folder "" || Path.ends_with_sep folder)%bool;
    by rewrite !append_assoc.
Qed.

Lemma path_prefix_text folder :
  all_chars (fun c => negb (is_ascii_digit c)) folder = true ->
  all_chars (fun c => negb (is_ascii_digit c)) (path_prefix folder) = true
  /\ isdigit (path_prefix folder) = false.
Proof.
  intros Hf. unfold path_prefix, isdigit.
  destruct (String.eqb folder "" || Path.ends_with_sep folder)%bool;
    rewrite !all_chars_app, ?Hf; split; try done;
    change (all_chars char_isdigit "frame_") with false;
    by rewrite !andb_false_r.
Qed.

Lemma frame_key_of_path folder i :
  all_chars (fun c => negb (is_ascii_digit c)) folder = true ->
  (0 <= i)%Z ->
  alphanum_key (Path.frame_path folder i) = Ok (frame_key folder i).
Proof.
  intros Hf Hi. destruct (path_prefix_text folder Hf) as [Hp Hnd].
  destruct (format_06d_digits i Hi) as (Hne & Hd & Hv).
  unfold alphanum_key. rewrite frame_path_prefix, (re_split_prefix _ _ Hp).
  rewrite (re_split_digits _ ".png" Hne Hd eq_refl), append_empty_r.
  cbn [map_result]. unfold convert at 1. rewrite Hnd.
  rewrite (convert_digits _ Hne Hd), Hv. done.
Qed.

Lemma frame_key_lt folder i j :
  (0 <= i)%Z -> (0 <= j)%Z ->
  key_lt (frame_key folder i) (frame_key folder j) = Ok (i <? j)%Z.
Proof.
  intros Hi Hj. unfold frame_key. cbn. rewrite String.eqb_refl.
  destruct (N.eqb_spec (Z.to_N i) (Z.to_N j)) as [Heq|Hne].
  - f_equal. symmetry. apply Z.ltb_ge. lia.
  - f_equal. destruct (N.ltb_spec (Z.to_N i) (Z.to_N j)), (Z.ltb_spec i j);
      try done; lia.
Qed.

Lemma insert_index_Forall (P : Z -> Prop) x l :
  P x -> Forall P l -> Forall P (insert_index x l).
Proof.
  intros Hx. induction 1 as [|y l Hy Hl IH]; cbn; [by repeat constructor|].
  destruct (y <? x)%Z; by repeat constructor.
Qed.

Lemma sort_indices_Forall (P : Z -> Prop) l :
  Forall P l -> Forall P (sort_indices l).
Proof. induction 1; cbn; [done|]. by apply insert_index_Forall. Qed.

Lemma insert_index_perm x l : insert_index x l ≡ₚ x :: l.
Proof.
  induction l as [|y l IH]; cbn; [done|].
  destruct (y <? x)%Z; [|done]. rewrite IH. apply perm_swap.
Qed.

Lemma sort_indices_perm l : sort_indices l ≡ₚ l.
Proof. induction l as [|x l IH]; cbn; [done|]. by rewrite insert_index_perm, IH. Qed.

Lemma insert_index_sorted x l :
  StronglySorted Z.le l -> StronglySorted Z.le (insert_index x l).
Proof.
  induction 1 as [|y l Hs IH Hall]; cbn; [by repeat constructor|].
  destruct (Z.ltb_spec y x).
  - constructor; [done|]. rewrite insert_index_perm. constructor; [lia|done].
  - constructor; [by constructor|]. constructor; [done|].
    eapply Forall_impl; [exact Hall|]. intros z Hz. cbn in Hz. lia.
Qed.

Lemma sort_indices_sorted l : StronglySorted Z.le (sort_indices l).
Proof.
  induction l as [|x l IH]; cbn; [constructor|]. by apply insert_index_sorted.
Qed.

Lemma sort_indices_of_sorted l : StronglySorted Z.le l -> sort_indices l = l.
Proof.
  induction 1 as [|x l Hs IH Hall]; [done|]. cbn. rewrite IH.
  destruct Hall as [|y l Hy _]; [done|]. cbn.
  destruct (Z.ltb_spec y x); [lia|done].
Qed.

Lemma insert_frame folder (f : Z -> string) x l :
  (0 <= x)%Z -> Forall (fun i => (0 <= i)%Z) l ->
  insert_sorted key_lt (frame_key folder x, f x)
    (map (fun i => (frame_key folder i, f i)) l)
  = Ok (map (fun i => (frame_key folder i, f i)) (insert_index x l)).
Proof.
  intros Hx. induction 1 as [|y l Hy _ IH]; [done|].
  cbn [map insert_sorted insert_index fst].
  rewrite (frame_key_lt folder y x Hy Hx).
  destruct (y <? x)%Z; [|done]. by rewrite IH.
Qed.

Lemma sort_frames folder (f : Z -> string) l :
  Forall (fun i => (0 <= i)%Z) l ->
  sort_pairs key_lt (map (fun i => (frame_key folder i, f i)) l)
  = Ok (map (fun i => (frame_key folder i, f i)) (sort_indices l)).
Proof.
  induction 1 as [|x l Hx Hl IH]; [done|].
  cbn [map sort_pairs sort_indices]. rewrite IH.
  apply insert_frame; [done|]. by apply sort_indices_Forall.
Qed.

(** X5. Natural order is numeric order on frame files: for an image folder
    whose name has no digit and indices that are not negative,
    [sorted_alphanumeric] puts the frame paths in the order of their
    indices, whatever the number of digits; the paths of a list of indices
    that is already ascending come back unchanged. *)
Theorem frame_files_sort_by_index folder idx :
  all_chars (fun c => negb (is_ascii_digit c)) folder = true ->
  Forall (fun i => (0 <= i)%Z) idx ->
  sorted_alphanumeric (map (Path.frame_path folder) idx)
  = Ok (map (Path.frame_path folder) (sort_indices idx))
  /\ sort_indices idx ≡ₚ idx
  /\ StronglySorted Z.le (sort_indices idx)
  /\ (StronglySorted Z.le idx ->
      sorted_alphanumeric (map (Path.frame_path folder) idx)
      = Ok (map (Path.frame_path folder) idx)).
Proof.
  intros Hf Hidx.
  assert (sorted_alphanumeric (map (Path.frame_path folder) idx)
          = Ok (map (Path.frame_path folder) (sort_indices idx))) as Hsort.
  { unfold sorted_alphanumeric.
    assert (map_result alphanum_key (map (Path.frame_path folder) idx)
            = Ok (map (frame_key folder) idx)) as ->.
    { induction Hidx as [|i idx Hi _ IH]; [done|].
      cbn. by rewrite (frame_key_of_path folder i Hf Hi), IH. }
    assert (zip (map (frame_key folder) idx) (map (Path.frame_path folder) idx)
            = map (fun i => (frame_key folder i, Path.frame_path folder i)) idx)
      as ->.
    { clear. induction idx as [|i idx IH]; [done|]. cbn. by rewrite IH. }
    rewrite (sort_frames folder _ idx Hidx). by rewrite map_map. }
  split; [done|]. split; [apply sort_indices_perm|].
  split; [apply sort_indices_sorted|].
  intros Hs. by rewrite Hsort, sort_indices_of_sorted.
Qed.

Lemma superscript_not_digit c : is_superscript c = true -> is_ascii_digit c = false.
Proof.
  unfold is_superscript, is_ascii_digit. intros H.
  apply orb_prop in H as [H|H]; [apply orb_prop in H as [H|H]|];
    apply N.eqb_eq in H; rewrite H; reflexivity.
Qed.

Lemma convert_raises t e : convert t = Raise e -> e = ValueError.
Proof.
  unfold convert, int. destruct (isdigit t); [|done].
  destruct (all_chars is_ascii_digit t); [done|]. congruence.
Qed.

Lemma map_result_raises {A B} (f : A -> result B) (l : list A) x e0 :
  (forall y e, f y = Raise e -> e = e0) ->
  x ∈ l -> f x = Raise e0 -> map_result f l = Raise e0.
Proof.
  intros Honly Hin Hx. induction Hin as [x l|x y l Hin IH]; cbn.
  - by rewrite Hx.
  - destruct (f y) as [b|e] eqn:Hy; [by rewrite IH|].
    by rewrite (Honly y e Hy).
Qed.

(** X4. A string made only of the superscripts two, three and one passes
    [isdigit] and fails [int]: with such a string anywhere in the list,
    [sorted_alphanumeric] raises [ValueError]. *)
Theorem superscript_name_raises (l : list string) s :
  s ∈ l -> nonempty s = true -> all_chars is_superscript s = true ->
  sorted_alphanumeric l = Raise ValueError.
Proof.
  intros Hin Hne Hs. unfold sorted_alphanumeric.
  rewrite (map_result_raises alphanum_key l s ValueError); [done| |done|].
  - intros y e. unfold alphanum_key. generalize (re_split y). intros pieces.
    induction pieces as [|t ts IH]; [done|]. cbn.
    destruct (convert t) eqn:Ht.
    + destruct (map_result convert ts); [done|]. intros [= <-]. by apply IH.
    + intros [= <-]. by eapply convert_raises.
  - assert (all_chars (fun c => negb (is_ascii_digit c)) s = true) as Htext.
    { eapply all_chars_impl; [|exact Hs]. intros c Hc.
      by rewrite (superscript_not_digit c Hc). }
    unfold alphanum_key. rewrite (re_split_text s Htext). cbn.
    unfold convert, isdigit, int. rewrite Hne.
    rewrite (all_chars_impl is_superscript char_isdigit s); [| |done].
    + destruct s as [|c s]; [done|]. cbn in Hs |- *.
      apply andb_prop in Hs as [Hc _]. by rewrite (superscript_not_digit c Hc).
    + intros c Hc. unfold char_isdigit. rewrite Hc. apply orb_true_r.
Qed.

(** *** One file per index *)

Lemma append_inj_l (p a b : string) : p +:+ a = p +:+ b -> a = b.
Proof.
  induction p as [|c p IH]; [done|]. rewrite !append_cons.
  intros H. injection H as H. auto.
Qed.

Lemma append_inj_r (a b t : string) : a +:+ t = b +:+ t -> a = b.
Proof.
  revert b; induction a as [|x a IH]; intros [|y b] H.
  - done.
  - apply (f_equal String.length) in H.
    rewrite !length_app_string in H. cbn in H. lia.
  - apply (f_equal String.length) in H.
    rewrite !length_app_string in H. cbn in H. lia.
  - rewrite !append_cons in H. injection H as -> H. f_equal. auto.
Qed.

(** The digits of a formatted index read back as its absolute value, and
    the first character is the sign exactly for a negative index. *)
Lemma format_06d_neg (i : Z) :
  (i < 0)%Z ->
  exists rest, Path.format_06d i = String "-" rest /\ Path.value rest = Z.abs_N i.
Proof.
  intros Hi. unfold Path.format_06d.
  destruct (Z.ltb_spec i 0); [|lia].
  rewrite append_cons. eexists. split; [reflexivity|].
  change ("" +:+ ?s) with s. by rewrite value_zeros, decimal_value.
Qed.

Lemma format_06d_inj (i j : Z) : Path.format_06d i = Path.format_06d j -> i = j.
Proof.
  intros H.
  destruct (Z.ltb_spec i 0) as [Hi|Hi], (Z.ltb_spec j 0) as [Hj|Hj].
  - destruct (format_06d_neg i Hi) as (ri & Hri & Hvi).
    destruct (format_06d_neg j Hj) as (rj & Hrj & Hvj).
    rewrite Hri, Hrj in H. injection H as ->. lia.
  - destruct (format_06d_neg i Hi) as (ri & Hri & _).
    destruct (format_06d_digits j Hj) as (_ & Hd & _).
    rewrite <- H, Hri in Hd. discriminate.
  - destruct (format_06d_neg j Hj) as (rj & Hrj & _).
    destruct (format_06d_digits i Hi) as (_ & Hd & _).
    rewrite H, Hrj in Hd. discriminate.
  - destruct (format_06d_digits i Hi) as (_ & _ & Hvi).
    destruct (format_06d_digits j Hj) as (_ & _ & Hvj).
    rewrite H in Hvi. lia.
Qed.

(** X9. The file name determines the frame: within one image folder two
    different indices, whatever their sign and number of digits, never
    share a file, so the list of files [make_movie] reads has a repetition
    only where the index list has one. *)
Theorem one_file_per_index folder (idx : list Z) :
  (forall i j, Path.frame_path folder i = Path.frame_path folder j -> i = j)
  /\ (NoDup idx -> NoDup (map (Path.frame_path folder) idx)).
Proof.
  assert (forall i j, Path.frame_path folder i = Path.frame_path folder j -> i = j)
    as Hinj.
  { intros i j H. rewrite !frame_path_prefix in H.
    apply append_inj_l, append_inj_r in H. by apply format_06d_inj. }
  split; [exact Hinj|].
  intros Hnd. apply NoDup_fmap_2; [|done]. intros i j. apply Hinj.
Qed.

End NaturalSorting.

(** ** Properties of workers, dispatch and teardown *)

Section MoreProperties.

Context {V : Type} (mean : list V -> V) (zero : V).
Context (tqdm_bool : ProgressBar -> bool).

Implicit Types (w : World V) (g : Generator V).

(** X6. A step of one worker touches nothing of the others: the
    trajectory and the configuration of the generator stay as they are,
    every other thread is unchanged, and among the views only the worker's
    own can change, and that only in the frame it shows. *)
Theorem worker_step_stays_in_its_lane t c w w' :
  worker_step t c w = Some w' ->
  traj (self w') = traj (self w)
  /\ indices (self w') = indices (self w)
  /\ image_folder (self w') = image_folder (self w)
  /\ length (threads (self w')) = length (threads (self w))
  /\ (forall t', t' <> t -> threads (self w') !! t' = threads (self w) !! t')
  /\ exists th,
       threads (self w) !! t = Some th
       /\ length (views (self w')) = length (views (self w))
       /\ (forall v, v <> th_view th ->
             views (self w') !! v = views (self w) !! v)
       /\ (forall v x, views (self w) !! v = Some x ->
             exists x', views (self w') !! v = Some x'
                        /\ view_reps x' = view_reps x
                        /\ view_closed x' = view_closed x).
Proof.
  intros Hstep.
  destruct (worker_step_effect _ _ _ _ Hstep) as (th & th' & Hth & _ & Hts & Heff).
  assert (traj (self w') = traj (self w)
          /\ indices (self w') = indices (self w)
          /\ image_folder (self w') = image_folder (self w)
          /\ (views (self w') = views (self w)
              \/ exists i, views (self w')
                           = alter (point_at i) (th_view th) (views (self w))))
    as (Htraj & Hidx & Hfolder & Hviews).
  { destruct Heff as [st _ _ _ Hself _|i rest _ _ _ Hself _|i rest _ _ _ Hself _
                     |i rest _ _ _ Hself _|i rest _ _ _ Hself _
                     |i rest pb _ _ _ _ _ Hself _|i rest pb _ _ _ _ _ Hself _
                     |i rest bar n st _ _ _ _ Hself _];
      rewrite Hself; repeat split; eauto. }
  split; [done|]. split; [done|]. split; [done|].
  split; [by rewrite Hts, length_insert|].
  split; [intros t' Ht'; by rewrite Hts, list_lookup_insert_ne|].
  exists th. split; [done|].
  destruct Hviews as [->|[i ->]].
  { split; [done|]. split; [done|]. intros v x Hx. by exists x. }
  split; [by rewrite length_alter|].
  split; [intros v Hv; by rewrite list_lookup_alter_ne|].
  intros v x Hx. destruct (decide (v = th_view th)) as [->|Hv].
  - exists (point_at i x). by rewrite list_lookup_alter_eq, Hx.
  - exists x. by rewrite list_lookup_alter_ne.
Qed.

(** X7. The poll loop has no bound: while the widget has not delivered the
    image, a worker only sleeps, however often it is scheduled; nothing of
    the generator changes and no frame is written or counted. *)
Theorem poll_waits_as_long_as_it_takes (n : nat) w t th i rest :
  threads (self w) !! t = Some th ->
  th_status th = Running -> th_async th = None ->
  th_todo th = i :: rest -> th_pc th = AtPoll ->
  exec tqdm_bool (replicate n (Worker t NotReady)) w
  = Some (mkWorld (self w) (events w ++ replicate n EvSleep)).
Proof.
  intros Hth Hst Has Htodo Hpc. revert w Hth.
  induction n as [|n IH]; intros w Hth.
  { cbn. rewrite app_nil_r. by destruct w. }
  cbn [replicate exec act]. unfold worker_step.
  rewrite Hth, Hst, Has, Htodo, Hpc.
  rewrite (IH (log EvSleep w)) by done. cbn. by rewrite <- app_assoc.
Qed.

Lemma act_keeps_stopped a w w' t th :
  act tqdm_bool a w = Some w' ->
  threads (self w) !! t = Some th -> th_status th <> Running ->
  threads (self w') !! t = Some th.
Proof.
  intros Hact Hth Hst. destruct a as [t' c| |output_file fps]; cbn [act] in Hact.
  - destruct (worker_step_effect _ _ _ _ Hact) as (th0 & th' & Hth0 & Hrun & Hts & _).
    rewrite Hts. destruct (decide (t' = t)) as [->|Hne]; [congruence|].
    by rewrite list_lookup_insert_ne.
  - injection Hact as <-. rewrite cleanup_run. by destruct w as [[] ?].
  - by injection Hact as <-.
Qed.

Lemma exec_keeps_stopped schedule w w' t th :
  exec tqdm_bool schedule w = Some w' ->
  threads (self w) !! t = Some th -> th_status th <> Running ->
  threads (self w') !! t = Some th.
Proof.
  revert w; induction schedule as [|a rest IH]; intros w Hexec Hth Hst;
    cbn in Hexec.
  - by injection Hexec as <-.
  - destruct (act tqdm_bool a w) as [w1|] eqn:Hact; [|done].
    eauto using act_keeps_stopped.
Qed.

Lemma sum_list_lookup_le {A} (f : A -> nat) (l : list A) i x :
  l !! i = Some x -> f x <= sum_list (map f l).
Proof.
  revert i; induction l as [|a l IH]; intros [|i] Hi; cbn in *; try done.
  - injection Hi as ->. lia.
  - specialize (IH i Hi). lia.
Qed.

(** X8. A worker that has died stays dead and takes its bucket with it: it
    can take no further step, the frames it had left are never written by
    it, and the counter can no longer reach the number of requested frames
    by as many as were left. *)
Theorem dead_worker_halts_its_bucket w0 w1 s1 w s2 w' t th e :
  Forall (fun th => th_status th <> Running) (threads (self w0)) ->
  run w0 = (Ok tt, w1) ->
  exec tqdm_bool s1 w1 = Some w ->
  length (threads (self w0)) <= t ->
  threads (self w) !! t = Some th ->
  th_status th = Died e ->
  exec tqdm_bool s2 w = Some w' ->
  threads (self w') !! t = Some th
  /\ (forall c, worker_step t c w' = None)
  /\ counter w' + length (th_todo th) <= length (indices (self w0)).
Proof.
  intros Hold Hrun Hs1 Ht Hth Hdied Hs2.
  assert (threads (self w') !! t = Some th) as Hth'.
  { eapply exec_keeps_stopped; [done..|]. by rewrite Hdied. }
  split; [done|]. split.
  - intros c. unfold worker_step. by rewrite Hth', Hdied.
  - destruct (run_establishes_inv w0 w1 Hold Hrun) as (_ & _ & Hinv1).
    assert (dispatch_inv (indices (self w0)) (length (threads (self w0))) w')
      as [_ Htotal _ _].
    { eapply dispatch_inv_exec; [|exact Hs2].
      eapply dispatch_inv_exec; [|exact Hs1]. exact Hinv1. }
    assert (drop (length (threads (self w0))) (threads (self w')) !! (t - length (threads (self w0)))
            = Some th) as Hdrop.
    { rewrite lookup_drop. by replace (_ + (t - _)) with t by lia. }
    pose proof (sum_list_lookup_le (fun th => length (th_todo th)) _ _ _ Hdrop)
      as Hle.
    unfold remaining in Htotal. lia.
Qed.

(** *** Sessions: what holds whatever the caller does *)

Lemma run_outcome w :
  run w = (Raise ValueError, w)
  \/ exists buckets,
       Numpy.array_split (indices (self w)) (length (views (self w))) = Ok buckets
       /\ length buckets = length (views (self w))
       /\ concat buckets = indices (self w)
       /\ run w
          = (Ok tt,
             mkWorld
               (set_threads
                  (threads (self w)
                   ++ started_from (length (threads (self w)))
                        (zip (seq 0 (length (views (self w)))) buckets))
                  (set_progress_bar
                     (Some (mkBar (length (indices (self w))) 0 false)) (self w)))
               (events w ++ EvProgressOpen (length (indices (self w)))
                  :: map EvThreadStart
                       (seq (length (threads (self w)))
                            (length (zip (seq 0 (length (views (self w)))) buckets))))).
Proof.
  destruct (views (self w)) as [|v0 vs] eqn:Hviews.
  { left. by apply run_without_views. }
  right.
  destruct (array_split_is_partition (indices (self w)) (length (views (self w))))
    as (buckets & Hsplit & (Hlen & Hcat & _) & _); [rewrite Hviews; cbn; lia|].
  exists buckets. rewrite <- Hviews. split; [done|]. split; [done|].
  split; [done|]. by apply run_dispatches.
Qed.

Lemma started_from_lookup t pairs j v b :
  pairs !! j = Some (v, b) ->
  started_from t pairs !! j = Some (start (new_thread v b) (t + j)).
Proof.
  revert t j; induction pairs as [|[v0 b0] r IH]; intros t [|j] Hj; try done.
  - injection Hj as -> ->. cbn. by rewrite Nat.add_0_r.
  - change (started_from (S t) r !! j = Some (start (new_thread v b) (t + S j))).
    change (r !! j = Some (v, b)) in Hj.
    rewrite (IH (S t) j Hj). do 2 f_equal. lia.
Qed.

Lemma started_from_inv t pairs j th :
  started_from t pairs !! j = Some th ->
  exists v b, pairs !! j = Some (v, b) /\ th = start (new_thread v b) (t + j).
Proof.
  intros Hj. destruct (pairs !! j) as [[v b]|] eqn:Hp.
  - rewrite (started_from_lookup t pairs j v b Hp) in Hj. injection Hj as <-. eauto.
  - apply lookup_ge_None in Hp. apply lookup_lt_Some in Hj.
    rewrite started_from_length in Hj. lia.
Qed.

Lemma session_inv_run w : session_inv w -> session_inv (snd (run w)).
Proof.
  intros [Hid Has Hbar]. destruct (run_outcome w) as [->|(buckets & _ & _ & _ & ->)].
  { done. }
  destruct w as [g ev]; destruct g as [tr sw folder idx vs pbar nv ra sel ts].
  unfold idents_are_positions in *. cbn in *. split; cbn.
  - intros t th Hth. apply lookup_app_Some in Hth as [Hth|[Hge Hth]]; [eauto|].
    apply started_from_inv in Hth as (v & b & _ & ->). cbn. f_equal. lia.
  - apply Forall_app. split; [done|]. apply Forall_lookup. intros j th Hth.
    by apply started_from_inv in Hth as (v & b & _ & ->).
  - done.
Qed.

Lemma session_inv_act a w w' :
  session_inv w -> act tqdm_bool a w = Some w' -> session_inv w'.
Proof.
  intros [Hid Has Hbar] Hact. destruct a as [t c| |output_file fps]; cbn [act] in Hact.
  - destruct (worker_step_effect _ _ _ _ Hact) as (th & th' & Hth & _ & Hts & Heff).
    destruct (step_effect_frame _ _ _ _ Heff)
      as (_ & _ & _ & _ & _ & Hi & Ha & _).
    assert (is_Some (progress_bar (self w)) -> is_Some (progress_bar (self w')))
      as Hb.
    { destruct Heff as [st _ _ _ Hself _|i rest _ _ _ Hself _|i rest _ _ _ Hself _
                       |i rest _ _ _ Hself _|i rest _ _ _ Hself _
                       |i rest pb _ _ _ _ _ Hself _|i rest pb _ _ _ _ _ Hself _
                       |i rest bar n st _ _ _ _ Hself _];
        rewrite Hself; eauto.
      intros [pb Hpb]. cbn. unfold bar_after_store. rewrite Hpb.
      destruct (bar =? bars_created w); eauto. }
    unfold idents_are_positions in *. split.
    + intros t' th0. rewrite Hts. intros Hth0.
      destruct (decide (t' = t)) as [->|Hne].
      * rewrite list_lookup_insert_eq in Hth0 by (by eapply lookup_lt_Some).
        injection Hth0 as <-. rewrite Hi. eauto.
      * rewrite list_lookup_insert_ne in Hth0 by done. eauto.
    + rewrite Hts. apply Forall_insert; [done|].
      rewrite Ha. by eapply (Forall_lookup_1 _ _ _ _ Has).
    + rewrite Hts. intros _. apply Hb, Hbar. intros Hnil.
      by rewrite Hnil in Hth.
  - injection Hact as <-. rewrite cleanup_run.
    destruct w as [g ev]; destruct g as [tr sw folder idx vs pbar nv ra sel ts].
    unfold idents_are_positions in *. cbn in *. split; cbn; [done..|].
    intros Hne. specialize (Hbar Hne). destruct Hbar as [pb ->]. cbn.
    by destruct (tqdm_bool pb).
  - injection Hact as <-. split; [exact Hid|exact Has|exact Hbar].
Qed.

Lemma session_inv_perform c w w' :
  session_inv w -> perform tqdm_bool c w = Some w' -> session_inv w'.
Proof.
  intros Hinv Hc. destruct c as [|a]; cbn in Hc.
  - injection Hc as <-. by apply session_inv_run.
  - by eapply session_inv_act.
Qed.

Lemma session_inv_session calls w w' :
  session_inv w -> session tqdm_bool calls w = Some w' -> session_inv w'.
Proof.
  revert w; induction calls as [|c rest IH]; intros w Hinv Hs; cbn in Hs.
  - by injection Hs as <-.
  - destruct (perform tqdm_bool c w) as [w1|] eqn:Hc; [|done].
    eauto using session_inv_perform.
Qed.

Lemma session_inv_init traj0 folder idx sw nv ra sel :
  session_inv (snd (init mean zero traj0 folder idx sw nv ra sel)).
Proof. rewrite init_run. split; cbn; [by intros t th|done..]. Qed.

(** The threads at which [PyThreadState_SetAsyncExc(t, ...)] finds a live
    thread state: the one at position [t], if it runs. *)
Lemma targets_of_position w t :
  idents_are_positions w ->
  forall j th, threads (self w) !! j = Some th ->
    is_target t th = true <-> j = t /\ th_status th = Running.
Proof.
  intros Hid j th Hth. unfold is_target. rewrite (Hid j th Hth).
  destruct (th_status th); try (split; [done|by intros [_ ?]]).
  destruct (Nat.eqb_spec j t); split; try done; by intros [? _].
Qed.

Lemma filter_none {A} (P : A -> Prop) `{forall x, Decision (P x)} (l : list A) :
  Forall (fun x => ~ P x) l -> filter P l = [].
Proof.
  induction 1 as [|x l Hx _ IH]; [done|]. by rewrite filter_cons, decide_False.
Qed.

Lemma live_targets w t th :
  idents_are_positions w -> threads (self w) !! t = Some th ->
  forall f,
    map (fun th0 => if is_target t th0 then f th0 else th0) (threads (self w))
    = (if decide (th_status th = Running)
       then <[t := f th]> (threads (self w)) else threads (self w))
    /\ length (filter (fun th0 => is_target t th0 = true) (threads (self w)))
       = (if decide (th_status th = Running) then 1 else 0).
Proof.
  intros Hid Hth f. pose proof (targets_of_position w t Hid) as Htar.
  split.
  - apply list_eq. intros j. rewrite list_lookup_fmap.
    destruct (decide (th_status th = Running)) as [Hrun|Hrun].
    + destruct (decide (j = t)) as [->|Hne].
      * rewrite list_lookup_insert_eq by (by eapply lookup_lt_Some).
        rewrite Hth. cbn. by rewrite (proj2 (Htar t th Hth)).
      * rewrite list_lookup_insert_ne by done.
        destruct (threads (self w) !! j) as [th0|] eqn:Hj; [|done]. cbn.
        destruct (is_target t th0) eqn:Ht0; [|done].
        by apply (Htar j th0 Hj) in Ht0 as [? _].
    + destruct (threads (self w) !! j) as [th0|] eqn:Hj; [|done]. cbn.
      destruct (is_target t th0) eqn:Ht0; [|done].
      apply (Htar j th0 Hj) in Ht0 as [-> Hst]. congruence.
  - rewrite <- (take_drop_middle _ _ _ Hth) at 1.
    rewrite filter_app, filter_cons.
    rewrite (filter_none _ (take t _)), (filter_none _ (drop (S t) _)).
    + destruct (decide (th_status th = Running)) as [Hrun|Hrun].
      * rewrite decide_True; [done|]. by apply (Htar t th Hth).
      * rewrite decide_False; [done|]. intros Ht0.
        by apply (Htar t th Hth) in Ht0 as [_ ?].
    + apply Forall_lookup. intros j th0 Hj Ht0. rewrite lookup_drop in Hj.
      apply (Htar _ th0 Hj) in Ht0 as [? _]. lia.
    + apply Forall_lookup. intros j th0 Hj Ht0.
      apply lookup_take_Some in Hj as [Hj Hlt].
      apply (Htar _ th0 Hj) in Ht0 as [? _]. lia.
Qed.

(** X10. Called as it is declared, with the generator and the thread,
    [_stop_thread] does stop a worker that is running, in every state a
    session can reach: the call returns, [SystemExit] is pending in that
    thread and in no other, and at its next step, whatever the widget does,
    the worker dies of it without writing or counting anything more. *)
Theorem stop_thread_as_declared traj0 folder idx sw nv ra sel calls w t th :
  session tqdm_bool calls (snd (init mean zero traj0 folder idx sw nv ra sel))
  = Some w ->
  threads (self w) !! t = Some th ->
  th_status th = Running ->
  exists w',
    _stop_thread [ObjSelf; ObjThread t] w = (Ok tt, w')
    /\ threads (self w')
       = <[t := set_async (Some SystemExit) th]> (threads (self w))
    /\ events w' = events w ++ [EvSetAsyncExc t (Some SystemExit)]
    /\ forall c,
         worker_step t c w'
         = Some (put_thread t
                   (set_status (Died SystemExit) (set_async (Some SystemExit) th))
                   w').
Proof.
  intros Hs Hth Hrun.
  pose proof (session_inv_session _ _ _ (session_inv_init _ _ _ _ _ _ _) Hs)
    as [Hid _ _].
  destruct (live_targets w t th Hid Hth (set_async (Some SystemExit)))
    as [Hmap Hlen].
  rewrite decide_True in Hmap by done. rewrite decide_True in Hlen by done.
  pose proof (Hid t th Hth) as Hident.
  destruct w as [g ev]. cbn [self events] in *.
  unfold _stop_thread, bind at 1, get at 1. cbn [self]. rewrite Hth, Hident.
  unfold _async_raise, bind at 1, SetAsyncExc, bind, get, modify, emit.
  cbn [self events fst snd]. rewrite Hmap, Hlen. cbn.
  eexists. split; [reflexivity|]. cbn. destruct g; cbn in *.
  split; [done|]. split; [done|]. intros c. unfold worker_step. cbn.
  rewrite list_lookup_insert_eq by (by eapply lookup_lt_Some). cbn.
  by rewrite Hrun.
Qed.

Lemma no_targets (ts : list Thread) tid (f : Thread -> Thread) :
  Forall (fun th => th_status th = Running -> th_ident th <> Some tid) ts ->
  map (fun th => if is_target tid th then f th else th) ts = ts
  /\ length (filter (fun th => is_target tid th = true) ts) = 0.
Proof.
  induction 1 as [|th ts Hth _ [IH1 IH2]]; [done|].
  assert (is_target tid th = false) as Hno.
  { unfold is_target. destruct (th_status th); try done.
    destruct (th_ident th) as [i|]; [|done].
    destruct (Nat.eqb_spec i tid) as [->|]; [|done]. by destruct Hth. }
  split; [cbn; by rewrite Hno, IH1|].
  rewrite filter_cons, decide_False by (by rewrite Hno). done.
Qed.

(** X11. Called as it is declared with a thread whose identifier no running
    thread carries, as is the case for a worker that has returned or died
    until its identifier is given to a new thread, [_stop_thread] raises
    [ValueError], which is not the [TypeError] that [cleanup] catches, and
    changes nothing in the generator. *)
Theorem stop_thread_of_stopped_worker w t th tid :
  threads (self w) !! t = Some th ->
  th_ident th = Some tid ->
  Forall (fun th' => th_status th' = Running -> th_ident th' <> Some tid)
         (threads (self w)) ->
  _stop_thread [ObjSelf; ObjThread t] w
  = (Raise ValueError,
     mkWorld (self w) (events w ++ [EvSetAsyncExc tid (Some SystemExit)]))
  /\ is_TypeError ValueError = false.
Proof.
  intros Hth Hident Hfree.
  destruct (no_targets _ tid (set_async (Some SystemExit)) Hfree) as [Hmap Hlen].
  destruct w as [g ev]. cbn [self events] in *.
  unfold _stop_thread, bind at 1, get at 1. cbn [self]. rewrite Hth, Hident.
  unfold _async_raise, bind at 1, SetAsyncExc, bind, get, modify, emit.
  cbn [self events fst snd]. rewrite Hmap, Hlen. cbn.
  split; [|done]. by destruct g.
Qed.

(** X12. In a session, that is, construction followed by any calls of
    [run], [cleanup] and [make_movie] and any steps of the workers, a worker
    dies only when something outside fails: a step on which no external
    call raises leaves the worker running or returned.  In particular no
    worker ever finds the progress bar missing, and none is ever stopped by
    [cleanup]. *)
Theorem workers_die_only_of_failures traj0 folder idx sw nv ra sel calls w t c w' :
  session tqdm_bool calls (snd (init mean zero traj0 folder idx sw nv ra sel))
  = Some w ->
  worker_step t c w = Some w' ->
  (forall e, c <> Fails e) ->
  exists th',
    threads (self w') !! t = Some th'
    /\ (th_status th' = Running \/ th_status th' = Finished).
Proof.
  intros Hs Hstep Hc.
  pose proof (session_inv_session _ _ _ (session_inv_init _ _ _ _ _ _ _) Hs)
    as [_ Has Hbar].
  unfold worker_step in Hstep.
  destruct (threads (self w) !! t) as [th|] eqn:Hth; [|done].
  pose proof (Forall_lookup_1 _ _ _ _ Has Hth) as Hnone. cbn beta in Hnone.
  destruct Hbar as [pb Hpb]; [intros Hnil; by rewrite Hnil in Hth|].
  assert (t < length (threads (self w))) as Hlt by (by eapply lookup_lt_Some).
  rewrite Hnone, Hpb in Hstep.
  destruct (th_status th) eqn:Hst; try discriminate.
  destruct (th_todo th) as [|i rest] eqn:Htodo.
  { injection Hstep as <-.
    eexists. cbn. rewrite list_lookup_insert_eq by done. split; [done|]. by right. }
  destruct c as [| |e]; [| |by destruct (Hc e)].
  all: destruct (th_pc th) as [| | | |bar n]; try destruct (update_reads pb);
    injection Hstep as <-; unfold store_count; cbn.
  all: try (rewrite list_lookup_insert_eq by done; eexists; split; [done|];
            left; first [exact Hst|reflexivity]).
  all: exists th; split; [done|by left].
Qed.

(** X13. [run] does not look at the workers of an earlier dispatch: a
    second call registers as many workers again, over the same views and
    the same buckets, while the first are still running, and replaces the
    progress bar by a fresh one at zero. *)
Theorem second_run_shares_the_views w0 w1 w2 :
  run w0 = (Ok tt, w1) ->
  run w1 = (Ok tt, w2) ->
  length (threads (self w2))
  = length (threads (self w0)) + 2 * length (views (self w0))
  /\ progress_bar (self w2) = Some (mkBar (length (indices (self w0))) 0 false)
  /\ forall v, v < length (views (self w0)) ->
       exists th1 th2,
         threads (self w2) !! (length (threads (self w0)) + v) = Some th1
         /\ threads (self w2)
              !! (length (threads (self w0)) + length (views (self w0)) + v)
            = Some th2
         /\ th_view th1 = v /\ th_view th2 = v
         /\ th_bucket th1 = th_bucket th2
         /\ th_status th1 = Running /\ th_status th2 = Running.
Proof.
  intros Hrun1 Hrun2.
  destruct (run_outcome w0) as [Hr|(b1 & Hsplit & Hlen1 & _ & Hr)];
    rewrite Hr in Hrun1; [done|]. injection Hrun1 as <-.
  match type of Hrun2 with run ?x = _ => set (w1 := x) in * end.
  assert (views (self w1) = views (self w0) /\ indices (self w1) = indices (self w0)
          /\ threads (self w1)
             = threads (self w0)
               ++ started_from (length (threads (self w0)))
                    (zip (seq 0 (length (views (self w0)))) b1))
    as (Hv & Hi & Ht).
  { unfold w1. by destruct w0 as [[] ?]. }
  rewrite (run_dispatches w1 b1) in Hrun2 by (by rewrite Hv, Hi).
  rewrite Hv, Hi, Ht in Hrun2. injection Hrun2 as <-. clearbody w1.
  assert (forall (g : Generator V) l, threads (set_threads l g) = l) as Hst
    by (by intros []).
  assert (forall (g : Generator V) l p,
             progress_bar (set_threads l (set_progress_bar p g)) = p) as Hsp
    by (by intros []).
  cbn [self]. rewrite Hst, Hsp.
  assert (length (zip (seq 0 (length (views (self w0)))) b1)
          = length (views (self w0))) as Hzip.
  { rewrite length_zip, length_seq. lia. }
  split; [|split].
  - rewrite !length_app, !started_from_length, Hzip. lia.
  - done.
  - intros v Hlt.
    destruct (lookup_lt_is_Some_2 b1 v) as [b Hb]; [lia|].
    assert (zip (seq 0 (length (views (self w0)))) b1 !! v = Some (v, b)) as Hpair.
    { apply lookup_zip_with_Some. exists v, b. split; [done|].
      split; [|done]. by apply lookup_seq. }
    exists (start (new_thread v b) (length (threads (self w0)) + v)),
           (start (new_thread v b)
              (length (threads (self w0)) + length (views (self w0)) + v)).
    split; [|split].
    + rewrite <- app_assoc, lookup_app_r by lia.
      replace (_ + v - _) with v by lia.
      rewrite lookup_app_l by (rewrite started_from_length; lia).
      by apply started_from_lookup.
    + rewrite lookup_app_r
        by (rewrite length_app, started_from_length; lia).
      rewrite length_app, started_from_length, Hzip.
      replace (_ + _ + v - _) with v by lia.
      by rewrite (started_from_lookup _ _ v v b Hpair).
    + done.
Qed.

(** *** The files of a dispatch *)

Lemma thread_files_later folder w w' evs th :
  events w' = events w ++ evs ->
  thread_files folder w th -> thread_files folder w' th.
Proof.
  intros Hev [(done & Hb & Hdone) Hhead Hidle Hret].
  assert (forall i, was_saved folder w i -> was_saved folder w' i) as Hmono.
  { intros i Hi. unfold was_saved in *. rewrite Hev. apply elem_of_app. by left. }
  split; [|intros Hpc|done..].
  - exists done. split; [done|]. eapply Forall_impl; [exact Hdone|]. exact Hmono.
  - destruct (Hhead Hpc) as (i & rest & Htodo & Hi). eauto.
Qed.

Lemma written_bound folder w th :
  thread_files folder w th -> length (th_todo th) <= length (th_bucket th).
Proof. intros [(done & -> & _) _ _ _]. rewrite length_app. lia. Qed.

Lemma files_inv_step L folder s0 k t c w w' :
  files_inv L folder s0 k w ->
  worker_step t c w = Some w' ->
  files_inv L folder s0 k w'.
Proof.
  intros [Hfolder Hidx Hold Hbuckets Hthreads Hcount] Hstep.
  destruct (worker_step_effect _ _ _ _ Hstep) as (th & th' & Hth & Hrun & Hts & Heff).
  pose proof (running_is_recent _ _ _ _ Hold Hth Hrun) as Hk.
  assert (drop k (threads (self w)) !! (t - k) = Some th) as Hth'.
  { rewrite lookup_drop. by replace (k + (t - k)) with t by lia. }
  destruct (step_effect_frame _ _ _ _ Heff)
    as (_ & Hf' & Hi' & Hb' & _ & _ & _ & evs & Hevs & _).
  pose proof (Forall_lookup_1 _ _ _ _ Hthreads Hth') as Hfiles.
  pose proof (written_bound _ _ _ Hfiles) as Hbound.
  pose proof (sum_insert written _ (t - k) th th' Hth') as Hsum.
  assert (Forall (thread_files folder w') (drop k (threads (self w)))) as Hkeep.
  { eapply Forall_impl; [exact Hthreads|].
    intros th0. by apply thread_files_later with evs. }
  assert (thread_files folder w' th
          /\ (forall i, was_saved folder w i -> was_saved folder w' i))
    as [Hfiles' Hmono].
  { split; [by apply thread_files_later with w evs|].
    intros i Hi. unfold was_saved in *. rewrite Hevs. apply elem_of_app. by left. }
  pose proof Hfiles' as Hsame.
  destruct Hfiles' as [(done & Hb & Hdone) Hhead Hidle Hret].
  assert (thread_files folder w' th'
          /\ saved w' + written th = saved w + written th') as [Hnew Hsaved].
  { destruct Heff as [st -> Hfin Hst _ Hev|i rest Hpc Htodo -> _ Hev
                     |i rest Hpc Htodo -> _ Hev|i rest Hpc Htodo -> _ Hev
                     |i rest Hpc Htodo -> _ Hev|i rest pb Hpc Htodo _ _ -> _ Hev
                     |i rest pb Hpc Htodo _ _ -> _ Hev
                     |i rest bar n st Hpc Htodo Hst -> _ Hev].
    - split; [split; cbn; eauto|].
      rewrite (saved_app w w' [] ltac:(by rewrite app_nil_r)). cbn.
      unfold written, counting. cbn. lia.
    - split; [split; cbn; eauto; try done; by rewrite Htodo|].
      rewrite (saved_app w w' _ Hev). cbn. rewrite decide_False by done.
      unfold written, counting. cbn. rewrite Hpc. cbn. lia.
    - split; [exact Hsame|]. rewrite (saved_app w w' _ Hev). cbn.
      rewrite decide_False by done. cbn. lia.
    - split; [split; cbn; eauto; try done; by rewrite Htodo|].
      rewrite (saved_app w w' [] ltac:(by rewrite app_nil_r)).
      unfold written, counting. cbn. rewrite Hpc. cbn. lia.
    - split.
      + split; cbn; eauto; try (by rewrite Htodo).
        intros _. exists i, rest. split; [done|]. unfold was_saved.
        rewrite Hev, Hfolder. apply elem_of_app. right.
        by apply list_elem_of_singleton.
      + rewrite (saved_app w w' _ Hev). cbn. rewrite decide_True by done.
        unfold written, counting. cbn. rewrite Hpc. cbn. lia.
    - assert (counting th = true) as Hcount' by (unfold counting; by rewrite Hpc).
      split.
      + split; cbn; eauto; try (by rewrite Htodo).
      + rewrite (saved_app w w' _ Hev). cbn. rewrite decide_False by done.
        unfold written, counting. cbn. rewrite Hpc. cbn. lia.
    - assert (counting th = true) as Hcount' by (unfold counting; by rewrite Hpc).
      split.
      + destruct (Hhead Hcount') as (i0 & rest0 & Htodo0 & Hi0).
        rewrite Htodo in Htodo0. injection Htodo0 as <- <-.
        split; cbn; try done.
        * exists (done ++ [i]). rewrite Htodo. cbn.
          split; [by rewrite Hb, Htodo, <- app_assoc|].
          apply Forall_app. split; [done|]. by constructor.
        * by rewrite Hrun.
      + rewrite (saved_app w w' _ Hev). cbn. rewrite decide_False by done.
        unfold written, counting. cbn. rewrite Hpc, Htodo in *. cbn in *. lia.
    - assert (counting th = true) as Hcount' by (unfold counting; by rewrite Hpc).
      split.
      + destruct (Hhead Hcount') as (i0 & rest0 & Htodo0 & Hi0).
        rewrite Htodo in Htodo0. injection Htodo0 as <- <-.
        split; cbn; try done.
        * exists (done ++ [i]). rewrite Htodo. cbn.
          split; [by rewrite Hb, Htodo, <- app_assoc|].
          apply Forall_app. split; [done|]. by constructor.
        * by destruct Hst as [->|[e ->]].
      + rewrite (saved_app w w' [] ltac:(by rewrite app_nil_r)).
        unfold written, counting. cbn. rewrite Hpc, Htodo in *. cbn in *. lia. }
  split; rewrite ?Hts, ?(take_insert_ge _ k t) by done;
    rewrite ?(drop_insert_ge _ k t) by done.
  - congruence.
  - congruence.
  - done.
  - rewrite <- Hbuckets. f_equal. apply list_eq. intros j.
    rewrite !list_lookup_fmap. destruct (decide (j = t - k)) as [->|Hne].
    + rewrite list_lookup_insert_eq by (by eapply lookup_lt_Some).
      rewrite Hth'. cbn. by rewrite Hb'.
    + by rewrite list_lookup_insert_ne.
  - by apply Forall_insert.
  - lia.
Qed.

Lemma files_inv_quiet L folder s0 k w w' evs :
  files_inv L folder s0 k w ->
  image_folder (self w') = image_folder (self w) ->
  indices (self w') = indices (self w) ->
  threads (self w') = threads (self w) ->
  events w' = events w ++ evs -> no_imsave evs ->
  files_inv L folder s0 k w'.
Proof.
  intros [Hfolder Hidx Hold Hbuckets Hthreads Hcount] Hf Hi Hts Hev Hno.
  split; rewrite ?Hts; try done; try congruence.
  - eapply Forall_impl; [exact Hthreads|].
    intros th0. by apply thread_files_later with evs.
  - by rewrite (saved_app w w' evs Hev), (no_imsave_filter evs Hno), Nat.add_0_r.
Qed.

Lemma files_inv_act L folder s0 k a w w' :
  files_inv L folder s0 k w ->
  act tqdm_bool a w = Some w' ->
  files_inv L folder s0 k w'.
Proof.
  intros Hinv Hact. destruct a as [t c| |output_file fps]; cbn [act] in Hact.
  - by eapply files_inv_step.
  - injection Hact as <-. rewrite cleanup_run.
    eapply files_inv_quiet; [exact Hinv|by destruct w as [[] ?]..| |].
    + cbn. reflexivity.
    + apply cleanup_writes_no_frame.
  - injection Hact as <-.
    eapply files_inv_quiet; [exact Hinv|done..|cbn; reflexivity|].
    by repeat constructor.
Qed.

Lemma files_inv_exec L folder s0 k schedule w w' :
  files_inv L folder s0 k w ->
  exec tqdm_bool schedule w = Some w' ->
  files_inv L folder s0 k w'.
Proof.
  revert w; induction schedule as [|a rest IH]; intros w Hinv Hexec; cbn in Hexec.
  - by injection Hexec as <-.
  - destruct (act tqdm_bool a w) as [w1|] eqn:Hact; [|done].
    eauto using files_inv_act.
Qed.

Lemma started_from_files folder (w : World V) t pairs :
  Forall (thread_files folder w) (started_from t pairs)
  /\ sum_list (map written (started_from t pairs)) = 0.
Proof.
  revert t; induction pairs as [|[v b] r IH]; intros t; [by split|].
  destruct (IH (S t)) as [IH1 IH2]. split.
  - constructor; [|done]. split; cbn; try done. by exists [].
  - change (sum_list (map written (started_from t ((v, b) :: r))))
      with (written (start (new_thread v b) t)
            + sum_list (map written (started_from (S t) r))).
    rewrite IH2. unfold written. cbn. lia.
Qed.

Lemma run_establishes_files w0 w1 :
  Forall (fun th => th_status th <> Running) (threads (self w0)) ->
  run w0 = (Ok tt, w1) ->
  files_inv (indices (self w0)) (image_folder (self w0)) (saved w1)
    (length (threads (self w0))) w1.
Proof.
  intros Hold Hrun.
  destruct (run_outcome w0) as [Hr|(buckets & _ & Hlen & Hcat & Hr)];
    rewrite Hr in Hrun; [done|]. injection Hrun as <-.
  match goal with |- files_inv _ _ _ _ ?x => set (w1 := x) end.
  assert (threads (self w1)
          = threads (self w0)
            ++ started_from (length (threads (self w0)))
                 (zip (seq 0 (length (views (self w0)))) buckets)) as Hts.
  { unfold w1. by destruct w0 as [[] ?]. }
  destruct (started_from_files (image_folder (self w0)) w1
              (length (threads (self w0)))
              (zip (seq 0 (length (views (self w0)))) buckets)) as [Hfiles Hzero].
  split; rewrite ?Hts, ?take_app_length, ?drop_app_length.
  - unfold w1. by destruct w0 as [[] ?].
  - unfold w1. by destruct w0 as [[] ?].
  - done.
  - rewrite <- Hcat.
    pose proof (started_from_args (length (threads (self w0)))
                  (zip (seq 0 (length (views (self w0)))) buckets)) as Hargs.
    apply (f_equal (map snd)) in Hargs. rewrite map_map in Hargs. cbn in Hargs.
    change (map snd ?l) with (l.*2) in Hargs.
    rewrite snd_zip in Hargs by (rewrite length_seq; lia).
    change (map (fun x => th_bucket x)) with (map th_bucket) in Hargs.
    by rewrite Hargs.
  - done.
  - rewrite Hzero. lia.
Qed.

(** X14. Each worker goes through its bucket from the front: in every
    state of a dispatch, what a worker has left is the end of its bucket,
    every frame before that has its file, and the files written since the
    dispatch are as many as the frames the workers have got through, so no
    worker writes a frame of its bucket twice or skips one. *)
Theorem workers_write_their_buckets_in_order w0 w1 schedule w t th :
  Forall (fun th => th_status th <> Running) (threads (self w0)) ->
  run w0 = (Ok tt, w1) ->
  exec tqdm_bool schedule w1 = Some w ->
  length (threads (self w0)) <= t ->
  threads (self w) !! t = Some th ->
  (exists done,
     th_bucket th = done ++ th_todo th
     /\ Forall (fun i => EvImsave (Path.frame_path (image_folder (self w0)) i)
                           ∈ events w) done)
  /\ saved w
     = saved w1
       + sum_list (map written (drop (length (threads (self w0)))
                                  (threads (self w)))).
Proof.
  intros Hold Hrun Hexec Ht Hth.
  pose proof (files_inv_exec _ _ _ _ _ _ _
                (run_establishes_files w0 w1 Hold Hrun) Hexec)
    as [_ _ _ _ Hthreads Hcount].
  split; [|done].
  assert (drop (length (threads (self w0))) (threads (self w))
            !! (t - length (threads (self w0))) = Some th) as Hth'.
  { rewrite lookup_drop. by replace (_ + (t - _)) with t by lia. }
  by destruct (Forall_lookup_1 _ _ _ _ Hthreads Hth') as [Hdone _ _ _].
Qed.

(** X15. Once every worker of a dispatch has returned, every file that
    [make_movie] puts in its list has been written, and the files written
    since the dispatch are exactly as many as the requested frames. *)
Theorem finished_dispatch_has_every_file w0 w1 schedule w output_file fps :
  Forall (fun th => th_status th <> Running) (threads (self w0)) ->
  run w0 = (Ok tt, w1) ->
  exec tqdm_bool schedule w1 = Some w ->
  workers_finished (length (threads (self w0))) w ->
  exists image_files,
    make_movie output_file fps w
    = (Ok tt,
       mkWorld (self w)
         (events w ++ [EvWriteVideo image_files fps output_file "libx264"]))
    /\ length image_files = length (indices (self w0))
    /\ Forall (fun path => EvImsave path ∈ events w) image_files
    /\ saved w = saved w1 + length (indices (self w0)).
Proof.
  intros Hold Hrun Hexec Hfin.
  pose proof (files_inv_exec _ _ _ _ _ _ _
                (run_establishes_files w0 w1 Hold Hrun) Hexec)
    as [Hfolder Hidx _ Hbuckets Hthreads Hcount].
  unfold workers_finished in Hfin.
  eexists. split; [apply make_movie_run|]. rewrite Hfolder, Hidx.
  split; [by rewrite length_map|].
  assert (Forall (fun th => Forall (was_saved (image_folder (self w0)) w)
                              (th_bucket th)
                            /\ written th = length (th_bucket th))
            (drop (length (threads (self w0))) (threads (self w)))) as Hall.
  { apply Forall_lookup. intros j th Hj.
    destruct (Forall_lookup_1 _ _ _ _ Hthreads Hj)
      as [(done & Hb & Hdone) _ Hidle Hret].
    pose proof (Forall_lookup_1 _ _ _ _ Hfin Hj) as Hst. cbn beta in Hst.
    specialize (Hret Hst). specialize (Hidle Hret).
    rewrite Hret, app_nil_r in Hb. unfold written, counting.
    rewrite Hb, Hret, Hidle.
    split; [done|]. cbn. lia. }
  rewrite Hcount. rewrite <- Hbuckets. clear -Hall.
  induction Hall as [|th ts [Hth Hw] _ [IH1 IH2]]; [by split|].
  cbn. rewrite map_app, length_app. split.
  - apply Forall_app. split; [|done].
    apply Forall_fmap. eapply Forall_impl; [exact Hth|]. done.
  - rewrite Hw. lia.
Qed.

(** *** The views of a dispatch *)

Lemma step_effect_views w w' th th' :
  step_effect w w' th th' ->
  th_view th' = th_view th
  /\ (views (self w') = views (self w)
      /\ (th_status th' = Running -> th_pc th' <> AtRender ->
          th_status th = Running /\ th_pc th <> AtRender
          /\ th_todo th' = th_todo th)
      \/ exists i rest,
           th_todo th' = i :: rest
           /\ views (self w')
              = alter (point_at i) (th_view th) (views (self w))).
Proof.
  intros [st -> _ Hst Hself _|i rest Hpc Htodo -> Hself _|i rest Hpc Htodo -> Hself _
         |i rest Hpc Htodo -> Hself _|i rest Hpc Htodo -> Hself _
         |i rest pb Hpc Htodo _ _ -> Hself _|i rest pb Hpc Htodo _ _ -> Hself _
         |i rest bar n st Hpc Htodo _ -> Hself _];
    rewrite Hself; (split; [done|]).
  - left. split; [done|]. cbn. done.
  - right. exists i, rest. by split.
  - left. split; [done|]. intros Hrun _. rewrite Hpc. done.
  - left. split; [done|]. cbn. intros Hrun _. rewrite Hpc. done.
  - left. split; [done|]. cbn. intros Hrun _. rewrite Hpc. done.
  - left. split; [done|]. cbn. intros Hrun _. rewrite Hpc. done.
  - left. split; [done|]. cbn. done.
  - left. split; [done|]. cbn. done.
Qed.

Lemma views_inv_step k t c w w' :
  views_inv k w -> worker_step t c w = Some w' -> views_inv k w'.
Proof.
  intros [Hold Hown Hframe] Hstep.
  destruct (worker_step_effect _ _ _ _ Hstep) as (th & th' & Hth & Hrun & Hts & Heff).
  pose proof (running_is_recent _ _ _ _ Hold Hth Hrun) as Hk.
  destruct (step_effect_views _ _ _ _ Heff) as [Hview Hviews].
  assert (t < length (threads (self w))) as Hlt by (by eapply lookup_lt_Some).
  assert (length (views (self w')) = length (views (self w))) as Hlen.
  { destruct Hviews as [[-> _]|(i & rest & _ & ->)]; [done|].
    by rewrite length_alter. }
  destruct (Hown t th Hk Hth) as [Hvt Hvlt].
  split.
  - by rewrite Hts, take_insert_ge.
  - intros t' th0 Hk'. rewrite Hts, Hlen. intros Hth0.
    destruct (decide (t' = t)) as [->|Hne].
    + rewrite list_lookup_insert_eq in Hth0 by done. injection Hth0 as <-.
      by rewrite Hview.
    + rewrite list_lookup_insert_ne in Hth0 by done. eauto.
  - intros t' th0 Hk'. rewrite Hts. intros Hth0 Hrun0 Hpc0.
    destruct (decide (t' = t)) as [->|Hne].
    + rewrite list_lookup_insert_eq in Hth0 by done. injection Hth0 as <-.
      rewrite Hview.
      destruct Hviews as [[-> Hsame]|(i & rest & Htodo & ->)].
      * destruct (Hsame Hrun0 Hpc0) as (Hr & Hp & ->). eauto.
      * destruct (lookup_lt_is_Some_2 (views (self w)) (th_view th)) as [v Hv];
          [lia|].
        exists i, rest, (point_at i v). split; [done|].
        by rewrite list_lookup_alter_eq, Hv.
    + rewrite list_lookup_insert_ne in Hth0 by done.
      destruct (Hframe t' th0 Hk' Hth0 Hrun0 Hpc0) as (i & rest & v & Htodo & Hv & Hf).
      exists i, rest, v. split; [done|]. split; [|done].
      destruct Hviews as [[-> _]|(i' & rest' & _ & ->)]; [done|].
      rewrite list_lookup_alter_ne; [done|].
      destruct (Hown t' th0 Hk' Hth0) as [-> _]. lia.
Qed.

Lemma views_inv_act k a w w' :
  views_inv k w -> act tqdm_bool a w = Some w' -> views_inv k w'.
Proof.
  intros Hinv Hact. destruct a as [t c| |output_file fps]; cbn [act] in Hact.
  - by eapply views_inv_step.
  - injection Hact as <-. rewrite cleanup_run. destruct Hinv as [Hold Hown Hframe].
    destruct w as [g ev]; destruct g as [tr sw folder idx vs pbar nv ra sel ts].
    cbn [self views threads] in *.
    split; cbn [fst snd self views threads set_views set_progress_bar].
    + exact Hold.
    + intros t th Hk Hth. rewrite length_map. eauto.
    + intros t th Hk Hth Hrun Hpc.
      destruct (Hframe t th Hk Hth Hrun Hpc) as (i & rest & v & Htodo & Hv & Hf).
      exists i, rest, (close_view v). split; [done|].
      by rewrite list_lookup_fmap, Hv.
  - injection Hact as <-. by destruct Hinv.
Qed.

Lemma views_inv_exec k schedule w w' :
  views_inv k w -> exec tqdm_bool schedule w = Some w' -> views_inv k w'.
Proof.
  revert w; induction schedule as [|a rest IH]; intros w Hinv Hexec; cbn in Hexec.
  - by injection Hexec as <-.
  - destruct (act tqdm_bool a w) as [w1|] eqn:Hact; [|done].
    eauto using views_inv_act.
Qed.

Lemma run_establishes_views w0 w1 :
  Forall (fun th => th_status th <> Running) (threads (self w0)) ->
  run w0 = (Ok tt, w1) ->
  views_inv (length (threads (self w0))) w1.
Proof.
  intros Hold Hrun.
  destruct (run_outcome w0) as [Hr|(buckets & _ & Hlen & Hcat & Hr)];
    rewrite Hr in Hrun; [done|]. injection Hrun as <-.
  match goal with |- views_inv _ ?x => set (w1 := x) end.
  assert (threads (self w1)
          = threads (self w0)
            ++ started_from (length (threads (self w0)))
                 (zip (seq 0 (length (views (self w0)))) buckets)
          /\ views (self w1) = views (self w0)) as [Hts Hvs].
  { unfold w1. by destruct w0 as [[] ?]. }
  assert (forall t th, length (threads (self w0)) <= t ->
            threads (self w1) !! t = Some th ->
            th_view th = t - length (threads (self w0))
            /\ t - length (threads (self w0)) < length (views (self w0))
            /\ th_pc th = AtRender) as Hnew.
  { intros t th Ht. rewrite Hts, lookup_app_r by done. intros Hth.
    apply started_from_inv in Hth as (v & b & Hpair & ->). cbn.
    apply lookup_zip_with_Some in Hpair as (v' & b' & [= <- <-] & Hv & _).
    apply lookup_seq in Hv as [-> Hv]. cbn. done. }
  split.
  - by rewrite Hts, take_app_length.
  - intros t th Ht Hth. rewrite Hvs.
    by destruct (Hnew t th Ht Hth) as (? & ? & _).
  - intros t th Ht Hth _ Hpc. by destruct (Hnew t th Ht Hth) as (_ & _ & ?).
Qed.

(** X16. In a dispatch every file gets the picture of its own frame: when a
    worker writes a file, its name is that of the frame its view has been
    set to, and no other running worker drives that view. *)
Theorem written_file_shows_its_frame w0 w1 schedule w t c w' path :
  Forall (fun th => th_status th <> Running) (threads (self w0)) ->
  run w0 = (Ok tt, w1) ->
  exec tqdm_bool schedule w1 = Some w ->
  worker_step t c w = Some w' ->
  events w' = events w ++ [EvImsave path] ->
  exists th i v,
    threads (self w) !! t = Some th
    /\ path = Path.frame_path (image_folder (self w0)) i
    /\ views (self w) !! th_view th = Some v
    /\ view_frame v = Some i
    /\ forall t' th', t' <> t -> threads (self w) !! t' = Some th' ->
         th_status th' = Running -> th_view th' <> th_view th.
Proof.
  intros Hold Hrun Hexec Hstep Hev.
  pose proof (views_inv_exec _ _ _ _ (run_establishes_views w0 w1 Hold Hrun) Hexec)
    as [Hold' Hown Hframe].
  pose proof (files_inv_exec _ _ _ _ _ _ _
                (run_establishes_files w0 w1 Hold Hrun) Hexec)
    as [Hfolder _ _ _ _ _].
  destruct (worker_step_effect _ _ _ _ Hstep) as (th & th' & Hth & Hst & _ & Heff).
  pose proof (running_is_recent _ _ _ _ Hold' Hth Hst) as Hk.
  exists th.
  assert (exists i rest, th_pc th = AtSave /\ th_todo th = i :: rest
                         /\ path = Path.frame_path (image_folder (self w)) i)
    as (i & rest & Hpc & Htodo & ->).
  { destruct Heff as [st _ _ _ _ Hev'|i rest _ _ _ _ Hev'|i rest _ _ _ _ Hev'
                     |i rest _ _ _ _ Hev'|i rest Hpc Htodo _ _ Hev'
                     |i rest pb _ _ _ _ _ _ Hev'|i rest pb _ _ _ _ _ _ Hev'
                     |i rest bar n st _ _ _ _ _ Hev'];
      rewrite Hev' in Hev; try (apply app_inv_head in Hev; discriminate).
    - rewrite <- (app_nil_r (events w)) in Hev at 1.
      apply app_inv_head in Hev. discriminate.
    - rewrite <- (app_nil_r (events w)) in Hev at 1.
      apply app_inv_head in Hev. discriminate.
    - apply app_inv_head in Hev. injection Hev as <-. eauto.
    - rewrite <- (app_nil_r (events w)) in Hev at 1.
      apply app_inv_head in Hev. discriminate. }
  destruct (Hframe t th Hk Hth Hst) as (i' & rest' & v & Htodo' & Hv & Hf);
    [by rewrite Hpc|].
  rewrite Htodo in Htodo'. injection Htodo' as <- <-.
  exists i, v. rewrite Hfolder. split; [done|]. split; [done|].
  split; [done|]. split; [done|].
  intros t' th0 Hne Hth0 Hrun0.
  pose proof (running_is_recent _ _ _ _ Hold' Hth0 Hrun0) as Hk'.
  destruct (Hown t th Hk Hth) as [-> _]. destruct (Hown t' th0 Hk' Hth0) as [-> _].
  lia.
Qed.

(** *** Construction and teardown *)

(** X17. Construction accepts any number of views and makes them all
    alike: for [num_views] below one there is none, otherwise there are
    [num_views], each open, at no frame yet, carrying the custom
    representations in the order given followed by the ball-and-stick
    ones, which fall back to protein and nucleic only when no selection
    was given. *)
Theorem constructed_views_are_alike traj0 folder idx sw nv ra sel :
  exists w,
    init mean zero traj0 folder idx sw nv ra sel = (Ok tt, w)
    /\ length (views (self w)) = Z.to_nat nv
    /\ ((nv <= 0)%Z -> views (self w) = [])
    /\ forall v view, views (self w) !! v = Some view ->
         view_reps view
         = match ra with
           | Some l => map Representation l
           | None => []
           end
           ++ match sel with
              | None => [BallAndStick "protein"; BallAndStick "nucleic"]
              | Some s => [BallAndStick s]
              end
         /\ view_frame view = None /\ view_closed view = false.
Proof.
  eexists. split; [apply init_run|]. cbn [self views].
  split; [by rewrite length_replicate|]. split.
  - intros Hnv. by replace (Z.to_nat nv) with 0 by lia.
  - intros v view Hv. apply lookup_replicate in Hv as [-> _]. done.
Qed.

(** X18. On a trajectory held in memory, a window that reaches over the
    whole trajectory from every frame takes the motion out of it: every
    frame gets the same positions, the mean over all frames. *)
Theorem wide_window_freezes_trajectory w :
  in_memory (traj (self w)) = true ->
  (1 < smoothing_window (self w))%Z ->
  (Z.of_nat (length (frames (traj (self w)))) - 1
   <= smoothing_window (self w) / 2)%Z ->
  exists w',
    smooth_trajectory mean zero w = (Ok tt, w')
    /\ frames (traj (self w'))
       = replicate (length (frames (traj (self w))))
           (Spec.mean_positions mean zero (n_atoms (traj (self w)))
              (frames (traj (self w)))).
Proof.
  intros Hmem Hsw Hwide. eexists. split; [apply smooth_trajectory_run|].
  rewrite Hmem. unfold set_traj. cbn [self traj frames].
  apply list_eq. intros i. rewrite list_lookup_imap.
  destruct (frames (traj (self w)) !! i) as [f|] eqn:Hi.
  - pose proof (lookup_lt_Some _ _ _ Hi) as Hlt. cbn.
    rewrite (proj2 (lookup_replicate _ _ _ _)) by done. f_equal.
    rewrite smoothed_column by done. f_equal.
    unfold window_start, window_end.
    rewrite zslice_frames_in, frames_in_take_drop by lia.
    replace (Z.to_nat (Z.max 0 _)) with 0 by lia.
    replace (Z.to_nat (Z.min _ _)) with (length (frames (traj (self w)))) by lia.
    by rewrite drop_0, Nat.sub_0_r, firstn_all.
  - cbn. symmetry. apply lookup_replicate_None. by apply lookup_ge_None.
Qed.

(** X19. [cleanup] can be called again: after one call every view is
    closed and the threads are as before, and a second call leaves the
    generator exactly as the first left it and raises nothing. *)
Theorem cleanup_twice w :
  exists w1 w2,
    cleanup tqdm_bool w = (Ok tt, w1)
    /\ cleanup tqdm_bool w1 = (Ok tt, w2)
    /\ Forall (fun v => view_closed v = true) (views (self w1))
    /\ threads (self w1) = threads (self w)
    /\ self w2 = self w1.
Proof.
  eexists. eexists. split; [apply cleanup_run|]. split; [apply cleanup_run|].
  destruct w as [g ev]; destruct g as [tr sw folder idx vs pbar nv ra sel ts].
  cbn [self views threads progress_bar set_views set_progress_bar].
  split; [|split; [done|]].
  - apply Forall_fmap. by apply Forall_true.
  - assert (map close_view (map close_view vs) = map close_view vs) as Hvs.
    { rewrite map_map. by apply map_ext. }
    assert (bar_after_cleanup tqdm_bool (bar_after_cleanup tqdm_bool pbar)
            = bar_after_cleanup tqdm_bool pbar) as Hbar.
    { destruct pbar as [pb|]; [|done]. cbn.
      destruct (tqdm_bool pb) eqn:Hpb; cbn.
      - by destruct (tqdm_bool (close_bar pb)).
      - by rewrite Hpb. }
    unfold set_views, set_progress_bar. cbn. by rewrite Hvs, Hbar.
Qed.

(** *** Running to completion *)

Lemma bars_created_log w ev :
  is_progress_open ev = false -> bars_created (log ev w) = bars_created w.
Proof.
  intros Hev. apply (bars_created_app w (log ev w) [ev]); [done|].
  by repeat constructor.
Qed.

Lemma proceed_step t w th pb :
  threads (self w) !! t = Some th ->
  th_status th = Running -> th_async th = None ->
  progress_bar (self w) = Some pb -> pb_closed pb = false ->
  (forall bar n, th_pc th = AtStore bar n ->
     bar = bars_created w /\ n = pb_n pb) ->
  exists w' th' pb',
    worker_step t Proceed w = Some w'
    /\ threads (self w') = <[t := th']> (threads (self w))
    /\ th_async th' = None
    /\ progress_bar (self w') = Some pb' /\ pb_closed pb' = false
    /\ bars_created w' = bars_created w
    /\ (forall bar n, th_pc th' = AtStore bar n ->
          bar = bars_created w' /\ n = pb_n pb')
    /\ pb_n pb' + length (th_todo th') = pb_n pb + length (th_todo th)
    /\ (th_status th' = Finished
        \/ th_status th' = Running /\ S (steps_left th') = steps_left th
           /\ th_todo th <> []).
Proof.
  intros Hth Hrun Has Hpb Hcl Hfresh. unfold worker_step.
  rewrite Hth, Hrun, Has.
  destruct (th_todo th) as [|i rest] eqn:Htodo.
  { exists (put_thread t (set_status Finished th) w), (set_status Finished th), pb.
    cbn. rewrite ?Htodo. repeat (split; [done|]). by left. }
  destruct (th_pc th) as [| | | |bar n] eqn:Hpc.
  - eexists. exists (set_pc AtPoll th), pb. split; [reflexivity|].
    rewrite bars_created_log by done. cbn. rewrite ?Htodo.
    repeat (split; [done|]). right. unfold steps_left. cbn.
    rewrite ?Hpc, ?Htodo. cbn. split; [done|]. split; [lia|done].
  - eexists. exists (set_pc AtSave th), pb. split; [reflexivity|].
    cbn. rewrite ?Htodo.
    repeat (split; [done|]). right. unfold steps_left. cbn.
    rewrite ?Hpc, ?Htodo. cbn. split; [done|]. split; [lia|done].
  - eexists. exists (set_pc AtUpdate th), pb. split; [reflexivity|].
    rewrite bars_created_log by done. cbn. rewrite ?Htodo.
    repeat (split; [done|]). right. unfold steps_left. cbn.
    rewrite ?Hpc, ?Htodo. cbn. split; [done|]. split; [lia|done].
  - rewrite Hpb. unfold update_reads. rewrite Hcl.
    eexists. exists (set_pc (AtStore (bars_created w) (pb_n pb)) th), pb.
    split; [reflexivity|].
    rewrite bars_created_log by done. cbn. rewrite ?Htodo.
    do 5 (split; [done|]). split; [by intros ? ? [= <- <-]|].
    split; [done|]. right. unfold steps_left. cbn.
    rewrite ?Hpc, ?Htodo. cbn. split; [done|]. split; [lia|done].
  - destruct (Hfresh bar n eq_refl) as [-> ->].
    eexists. exists (set_status Running (next_frame th)), (update_writes (pb_n pb) 1 pb).
    split; [reflexivity|]. unfold store_count, bar_after_store. cbn.
    rewrite Hpb, Nat.eqb_refl, ?Htodo. cbn.
    do 5 (split; [done|]). split; [done|]. split; [lia|].
    right. unfold steps_left. cbn. rewrite ?Hpc, ?Htodo. cbn.
    split; [done|]. split; [lia|done].
Qed.

Lemma worker_can_return (n : nat) t w th pb :
  steps_left th <= n ->
  threads (self w) !! t = Some th ->
  th_status th = Running -> th_async th = None ->
  progress_bar (self w) = Some pb -> pb_closed pb = false ->
  (forall bar n, th_pc th = AtStore bar n ->
     bar = bars_created w /\ n = pb_n pb) ->
  exists w' th' pb',
    exec tqdm_bool (replicate (S (steps_left th)) (Worker t Proceed)) w = Some w'
    /\ threads (self w') = <[t := th']> (threads (self w))
    /\ th_status th' = Finished
    /\ progress_bar (self w') = Some pb' /\ pb_closed pb' = false
    /\ bars_created w' = bars_created w
    /\ pb_n pb' = pb_n pb + length (th_todo th).
Proof.
  revert w th pb; induction n as [|n IH];
    intros w th pb Hn Hth Hrun Has Hpb Hcl Hfresh;
    destruct (proceed_step t w th pb Hth Hrun Has Hpb Hcl Hfresh)
      as (w1 & th1 & pb1 & Hstep & Hts & Has1 & Hpb1 & Hcl1 & Hbars1 & Hfresh1
          & Hsum1 & Hnext).
  all: assert (th_status th1 = Finished -> th_todo th = [] /\ th_todo th1 = [])
    as Hdone.
  1,3: intros Hfin; unfold worker_step in Hstep; rewrite Hth, Hrun, Has in Hstep;
    destruct (th_todo th) as [|i rest] eqn:Htodo;
    [ injection Hstep as <-; cbn in Hts;
      apply (f_equal (fun l => l !! t)) in Hts;
      rewrite !list_lookup_insert_eq in Hts by (by eapply lookup_lt_Some);
      injection Hts as <-; cbn; by rewrite ?Htodo
    | exfalso; destruct Hnext as [Hf|(Hr & _)]; [|congruence];
      rewrite Hpb in Hstep; unfold update_reads in Hstep; rewrite Hcl in Hstep;
      destruct (th_pc th); injection Hstep as <-; unfold store_count in Hts;
      cbn in Hts; apply (f_equal (fun l => l !! t)) in Hts;
      rewrite !list_lookup_insert_eq in Hts
        by (rewrite ?length_insert; by eapply lookup_lt_Some);
      injection Hts as <-; cbn in Hfin; congruence ].
  - assert (steps_left th = 0) as -> by lia. cbn [replicate exec act].
    rewrite Hstep. destruct Hnext as [Hfin|(_ & Hdec & _)]; [|lia].
    destruct (Hdone Hfin) as [Hnil Hnil1]. rewrite Hnil, Hnil1 in Hsum1.
    exists w1, th1, pb1. repeat (split; [done|]). cbn in Hsum1. rewrite Hnil. cbn. lia.
  - destruct (steps_left th) as [|m] eqn:Hm.
    + cbn [replicate exec act]. rewrite Hstep.
      destruct Hnext as [Hfin|(_ & Hdec & _)]; [|lia].
      destruct (Hdone Hfin) as [Hnil Hnil1]. rewrite Hnil, Hnil1 in Hsum1.
      exists w1, th1, pb1. repeat (split; [done|]). cbn in Hsum1. rewrite Hnil.
      cbn. lia.
    + destruct Hnext as [Hfin|(Hrun1 & Hdec & Hne)].
      { exfalso. destruct (Hdone Hfin) as [Hnil _].
        unfold steps_left in Hm. rewrite Hnil in Hm. cbn in Hm. lia. }
      assert (steps_left th1 = m) as Hm1 by lia.
      assert (threads (self w1) !! t = Some th1) as Hth1.
      { rewrite Hts. apply list_lookup_insert_eq. by eapply lookup_lt_Some. }
      destruct (IH w1 th1 pb1 ltac:(lia) Hth1 Hrun1 Has1 Hpb1 Hcl1 Hfresh1)
        as (w2 & th2 & pb2 & Hexec & Hts2 & Hfin2 & Hpb2 & Hcl2 & Hbars2 & Hsum2).
      exists w2, th2, pb2.
      change (replicate (S (S m)) ?a) with (a :: replicate (S m) a).
      cbn [exec act]. rewrite Hstep. rewrite Hm1 in Hexec.
      split; [done|]. split; [by rewrite Hts2, Hts, list_insert_insert_eq|].
      split; [done|]. split; [done|]. split; [done|]. split; [congruence|]. lia.
Qed.

Lemma exec_app s1 s2 w w1 :
  exec tqdm_bool s1 w = Some w1 ->
  exec tqdm_bool (s1 ++ s2) w = exec tqdm_bool s2 w1.
Proof.
  revert w; induction s1 as [|a s1 IH]; intros w Hs; cbn in Hs |- *.
  - by injection Hs as ->.
  - destruct (act tqdm_bool a w) as [w'|]; [|done]. by apply IH.
Qed.

Lemma workers_can_return (ts : list Thread) : forall front w pb,
  threads (self w) = front ++ ts ->
  Forall (fun th => th_status th = Running /\ th_async th = None
                    /\ th_pc th = AtRender) ts ->
  progress_bar (self w) = Some pb -> pb_closed pb = false ->
  exists w' ts' pb',
    exec tqdm_bool (one_by_one (length front) ts) w = Some w'
    /\ threads (self w') = front ++ ts'
    /\ Forall (fun th => th_status th = Finished) ts'
    /\ progress_bar (self w') = Some pb'
    /\ pb_n pb' = pb_n pb + remaining ts.
Proof.
  induction ts as [|th r IH]; intros front w pb Hts Hall Hpb Hcl.
  { exists w, [], pb. repeat (split; [done|]). unfold remaining. cbn. lia. }
  apply Forall_cons in Hall as [(Hrun & Has & Hpc) Hall].
  assert (threads (self w) !! length front = Some th) as Hth.
  { rewrite Hts. by apply list_lookup_middle. }
  destruct (worker_can_return (steps_left th) (length front) w th pb
              ltac:(lia) Hth Hrun Has Hpb Hcl)
    as (w1 & th1 & pb1 & Hexec & Hts1 & Hfin1 & Hpb1 & Hcl1 & _ & Hsum1).
  { intros bar n Hn. by rewrite Hpc in Hn. }
  assert (threads (self w1) = (front ++ [th1]) ++ r) as Hts1'.
  { rewrite Hts1, Hts. rewrite <- app_assoc. cbn.
    apply list_eq. intros j.
    destruct (decide (j = length front)) as [->|Hne].
    - rewrite list_lookup_insert_eq by (rewrite length_app; cbn; lia).
      by rewrite list_lookup_middle.
    - rewrite list_lookup_insert_ne by done.
      destruct (decide (j < length front)).
      + by rewrite !lookup_app_l by done.
      + rewrite !lookup_app_r by lia.
        destruct (j - length front) as [|m] eqn:Hm; [lia|done]. }
  destruct (IH (front ++ [th1]) w1 pb1 Hts1' Hall Hpb1 Hcl1)
    as (w2 & ts2 & pb2 & Hexec2 & Hts2 & Hfin2 & Hpb2 & Hsum2).
  exists w2, (th1 :: ts2), pb2. cbn [one_by_one].
  rewrite (exec_app _ _ _ _ Hexec).
  rewrite length_app in Hexec2. cbn in Hexec2.
  replace (S (length front)) with (length front + 1) by lia.
  split; [done|]. split; [by rewrite Hts2, <- app_assoc|].
  split; [by constructor|]. split; [done|].
  unfold remaining in *. cbn. lia.
Qed.

(** X20. Every dispatch can run to completion: when no external call
    fails and every image is there at the first poll, letting the workers
    run one after the other makes all of them return, with the counter at
    the number of requested frames. *)
Theorem dispatch_can_complete w0 w1 :
  Forall (fun th => th_status th <> Running) (threads (self w0)) ->
  run w0 = (Ok tt, w1) ->
  exists w,
    exec tqdm_bool
      (one_by_one (length (threads (self w0)))
         (drop (length (threads (self w0))) (threads (self w1)))) w1
    = Some w
    /\ workers_finished (length (threads (self w0))) w
    /\ counter w = length (indices (self w0)).
Proof.
  intros Hold Hrun.
  destruct (run_outcome w0) as [Hr|(buckets & _ & Hlen & Hcat & Hr)];
    rewrite Hr in Hrun; [done|]. injection Hrun as Hw1.
  assert (threads (self w1)
          = threads (self w0)
            ++ started_from (length (threads (self w0)))
                 (zip (seq 0 (length (views (self w0)))) buckets)
          /\ progress_bar (self w1)
             = Some (mkBar (length (indices (self w0))) 0 false)) as [Hts Hpb].
  { rewrite <- Hw1. by destruct w0 as [[] ?]. }
  clear Hw1. rewrite Hts, drop_app_length.
  assert (Forall (fun th => th_status th = Running /\ th_async th = None
                            /\ th_pc th = AtRender)
            (started_from (length (threads (self w0)))
               (zip (seq 0 (length (views (self w0)))) buckets))) as Hall.
  { apply Forall_lookup. intros j th Hj.
    by apply started_from_inv in Hj as (v & b & _ & ->). }
  destruct (workers_can_return _ (threads (self w0)) w1 _ Hts Hall Hpb eq_refl)
    as (w & ts' & pb' & Hexec & Hts' & Hfin & Hpb' & Hsum).
  exists w. split; [done|].
  split; [unfold workers_finished; by rewrite Hts', drop_app_length|].
  unfold counter. rewrite Hpb', Hsum. cbn.
  rewrite started_from_remaining.
  change (map snd ?l) with (l.*2). rewrite snd_zip, Hcat; [done|].
  rewrite length_seq. lia.
Qed.

(** *** The progress counter of a dispatch *)

Lemma filter_two {A} (P : A -> Prop) `{forall x, Decision (P x)} (l : list A)
    i j x y :
  i <> j -> l !! i = Some x -> l !! j = Some y -> P x -> P y ->
  2 <= length (filter P l).
Proof.
  revert i j; induction l as [|a l IH]; intros i j Hne Hi Hj Hx Hy; [done|].
  assert (forall m z, l !! m = Some z -> P z -> 1 <= length (filter P l)) as Hone.
  { intros m z Hm Hz.
    assert (z ∈ filter P l) as Hin.
    { apply list_elem_of_filter. split; [done|]. by eapply list_elem_of_lookup_2. }
    destruct (filter P l); [by apply elem_of_nil in Hin|cbn; lia]. }
  rewrite filter_cons. destruct i as [|i], j as [|j]; try done.
  - injection Hi as ->. rewrite decide_True by done. cbn.
    specialize (Hone j y Hj Hy). lia.
  - injection Hj as ->. rewrite decide_True by done. cbn.
    specialize (Hone i x Hi Hx). lia.
  - assert (2 <= length (filter P l)) by (apply (IH i j); auto).
    destruct (decide (P a)); cbn; lia.
Qed.

(** Where at most one update is in progress, a worker between read and
    write is the only one. *)
Lemma in_flight_alone (ts : list Thread) t th t' th' :
  in_flight ts <= 1 ->
  ts !! t = Some th -> is_storing th = true ->
  t' <> t -> ts !! t' = Some th' -> is_storing th' = false.
Proof.
  intros Hone Hth Hst Hne Hth'. destruct (is_storing th') eqn:Hst'; [|done].
  pose proof (filter_two (fun th => is_storing th = true) ts t t' th th'
                ltac:(done) Hth Hth' Hst Hst') as Htwo.
  unfold in_flight in Hone. lia.
Qed.

Lemma serial_inv_step L k t c w w' :
  dispatch_inv L k w -> serial_inv L k w -> orderly w = true ->
  worker_step t c w = Some w' ->
  serial_inv L k w'
  /\ (counter w' = counter w \/ counter w' = S (counter w)).
Proof.
  intros [Hold _ _ _] [Htotal Hread] Hord Hstep.
  destruct (worker_step_effect _ _ _ _ Hstep) as (th & th' & Hth & Hrun & Hts & Heff).
  pose proof (running_is_recent _ _ _ _ Hold Hth Hrun) as Hk.
  assert (drop k (threads (self w)) !! (t - k) = Some th) as Hth'.
  { rewrite lookup_drop. by replace (k + (t - k)) with t by lia. }
  pose proof (sum_insert (fun th => length (th_todo th)) _ (t - k) th th' Hth')
    as Hrem.
  fold (remaining (<[t - k:=th']> (drop k (threads (self w))))) in Hrem.
  fold (remaining (drop k (threads (self w)))) in Hrem.
  cbn beta in Hrem.
  pose proof (step_effect_bars _ _ _ _ Heff) as Hbars.
  destruct (step_effect_count _ _ _ _ Hrun Heff) as [_ Hcount].
  pose proof (Forall_lookup_1 _ _ _ _ Hread Hth' Hrun) as Hmine.
  unfold orderly in Hord.
  destruct (progress_bar (self w)) as [pb|] eqn:Hpb; [|done].
  apply andb_prop in Hord as [Hopen Hone].
  apply negb_true_iff in Hopen. apply Nat.leb_le in Hone.
  destruct Hcount as [(Hc & Htodo & Hprov)
                     |(i & Htodo & Hpc' & [(Hc & Hpc & pb0 & Hpb0 & Hcl)
                                          |(bar & n & Hpc & Hbar)])].
  - split; [|by left].
    split; rewrite Hts, drop_insert_ge by done.
    + rewrite Htodo in Hrem. lia.
    + apply Forall_insert.
      * eapply Forall_impl; [exact Hread|].
        intros th0 H0 Hr0 bar n Hn. rewrite Hbars, Hc. eauto.
      * intros Hr' bar n Hn. rewrite Hbars, Hc.
        destruct (Hprov bar n Hn) as [Hsame|(_ & -> & ->)]; [eauto|done].
  - congruence.
  - destruct (Hmine bar n Hpc) as [-> ->].
    assert (counter w' = S (counter w)) as Hc.
    { unfold counter at 1. rewrite Hbar. unfold bar_after_store.
      rewrite Hpb, Nat.eqb_refl. cbn. lia. }
    split; [|by right].
    split; rewrite Hts, drop_insert_ge by done.
    + rewrite Htodo in Hrem. cbn in Hrem. lia.
    + apply Forall_lookup. intros j th0 Hj Hr0 bar0 n0 Hn0.
      destruct (decide (j = t - k)) as [->|Hne].
      * rewrite list_lookup_insert_eq in Hj by (by eapply lookup_lt_Some).
        injection Hj as <-. by rewrite Hpc' in Hn0.
      * rewrite list_lookup_insert_ne in Hj by done. exfalso.
        rewrite lookup_drop in Hj.
        assert (is_storing th = true) as Hst
          by (unfold is_storing; by rewrite Hrun, Hpc).
        assert (is_storing th0 = true) as Hst0
          by (unfold is_storing; by rewrite Hr0, Hn0).
        pose proof (in_flight_alone _ t th (k + j) th0 Hone Hth Hst
                      ltac:(lia) Hj).
        congruence.
Qed.

Lemma serial_inv_quiet L k w w' evs :
  serial_inv L k w ->
  threads (self w') = threads (self w) ->
  counter w' = counter w ->
  events w' = events w ++ evs ->
  Forall (fun ev => is_progress_open ev = false) evs ->
  serial_inv L k w'.
Proof.
  intros [Htotal Hread] Hts Hc Hev Hno.
  rewrite <- (bars_created_app w w' evs Hev Hno) in Hread.
  split; rewrite ?Hts, ?Hc; done.
Qed.

Lemma serial_inv_act L k a w w' :
  dispatch_inv L k w -> serial_inv L k w -> orderly w = true ->
  act tqdm_bool a w = Some w' ->
  serial_inv L k w'
  /\ (counter w' = counter w \/ counter w' = S (counter w)).
Proof.
  intros Hinv Hser Hord Hact.
  destruct a as [t c| |output_file fps]; cbn [act] in Hact.
  - eauto using serial_inv_step.
  - injection Hact as <-.
    split; [|left; apply counter_after_cleanup].
    eapply serial_inv_quiet; [exact Hser|..].
    + rewrite cleanup_run. by destruct w as [[] ?].
    + apply counter_after_cleanup.
    + rewrite cleanup_run. cbn. reflexivity.
    + apply cleanup_opens_no_bar.
  - injection Hact as <-. split; [|by left].
    eapply serial_inv_quiet; [exact Hser|done..|cbn; reflexivity|].
    by repeat constructor.
Qed.

Lemma serial_inv_exec L k schedule w w' :
  dispatch_inv L k w -> serial_inv L k w ->
  orderly_run tqdm_bool schedule w = true ->
  exec tqdm_bool schedule w = Some w' ->
  serial_inv L k w' /\ orderly w' = true.
Proof.
  revert w; induction schedule as [|a rest IH];
    intros w Hinv Hser Hord Hexec; cbn in Hexec, Hord;
    apply andb_prop in Hord as [Hnow Hrest].
  - by injection Hexec as <-.
  - destruct (act tqdm_bool a w) as [w1|] eqn:Hact; [|done].
    apply (IH w1); [by eapply dispatch_inv_act| |done..].
    by destruct (serial_inv_act _ _ _ _ _ Hinv Hser Hnow Hact).
Qed.

Lemma run_establishes_serial w0 w1 :
  run w0 = (Ok tt, w1) ->
  serial_inv (indices (self w0)) (length (threads (self w0))) w1.
Proof.
  intros Hrun.
  destruct (run_outcome w0) as [Hr|(buckets & _ & Hlen & Hcat & Hr)];
    rewrite Hr in Hrun; [done|]. injection Hrun as <-.
  destruct w0 as [g ev]; destruct g as [tr sw folder idx vs' pbar nv ra sel ts].
  cbn in *.
  split; unfold counter; cbn; rewrite drop_app_length.
  - rewrite started_from_remaining.
    change (map snd ?l) with (l.*2). rewrite snd_zip, Hcat; [done|].
    rewrite length_seq. lia.
  - eapply Forall_impl; [apply started_from_running|].
    intros th [_ Hpc] _ bar n Hn. by rewrite Hpc in Hn.
Qed.

Lemma buckets_split (ts : list Thread) :
  Forall (fun th => length (th_todo th) <= length (th_bucket th)) ts ->
  length (concat (map th_bucket ts)) <= sum_list (map written ts) + remaining ts.
Proof.
  induction 1 as [|th ts Hth _ IH]; [done|].
  cbn. rewrite length_app. unfold remaining in *. cbn. unfold written at 1. lia.
Qed.

(** The counter never runs ahead of the files. *)
Lemma counted_are_written L folder s0 k w :
  dispatch_inv L k w -> files_inv L folder s0 k w -> s0 + counter w <= saved w.
Proof.
  intros [_ Htotal _ _] [_ _ _ Hbuckets Hthreads Hcount].
  pose proof (buckets_split (drop k (threads (self w)))) as Hsplit.
  rewrite Hbuckets in Hsplit. rewrite Hcount.
  assert (length L <= sum_list (map written (drop k (threads (self w))))
                      + remaining (drop k (threads (self w)))) as Hle.
  { apply Hsplit. eapply Forall_impl; [exact Hthreads|].
    intros th. apply written_bound. }
  lia.
Qed.


(** A worker that finds the bar open and is let through its [update]
    adds exactly one. *)
Lemma update_counts_one t c c' w th i rest pb :
  threads (self w) !! t = Some th ->
  th_status th = Running -> th_async th = None ->
  th_todo th = i :: rest -> th_pc th = AtUpdate ->
  progress_bar (self w) = Some pb -> pb_closed pb = false ->
  (forall e, c <> Fails e) ->
  exists w1 w2,
    worker_step t c w = Some w1 /\ worker_step t c' w1 = Some w2
    /\ counter w2 = S (counter w).
Proof.
  intros Hth Hrun Has Htodo Hpc Hpb Hcl Hc.
  assert (t < length (threads (self w))) as Hlt by (by eapply lookup_lt_Some).
  assert (worker_step t c w
          = Some (log EvProgressUpdate
                    (put_thread t (set_pc (AtStore (bars_created w) (pb_n pb)) th) w)))
    as Hfirst.
  { unfold worker_step. rewrite Hth, Hrun, Has, Htodo, Hpc, Hpb.
    unfold update_reads. rewrite Hcl. destruct c as [| |e]; [done..|].
    by destruct (Hc e). }
  assert (exists st,
            worker_step t c'
              (log EvProgressUpdate
                 (put_thread t (set_pc (AtStore (bars_created w) (pb_n pb)) th) w))
            = Some (store_count t
                      (set_pc (AtStore (bars_created w) (pb_n pb)) th)
                      (bars_created w) (pb_n pb) st
                      (log EvProgressUpdate
                         (put_thread t
                            (set_pc (AtStore (bars_created w) (pb_n pb)) th) w))))
    as [st Hsecond].
  { unfold worker_step. cbn [self log put_thread threads set_threads].
    rewrite list_lookup_insert_eq by done. cbn. rewrite Hrun, Has, Htodo.
    destruct c' as [| |e]; eauto. }
  eexists. eexists. split; [exact Hfirst|]. split; [exact Hsecond|].
  unfold counter, store_count, bar_after_store.
  rewrite (bars_created_log _ EvProgressUpdate eq_refl). cbn.
  rewrite Hpb. fold (bars_created w). rewrite Nat.eqb_refl. cbn. lia.
Qed.

(** C5, as it holds.  In one dispatch, made while no worker of an earlier
    one is running, the counter starts from zero and is in every state at
    most the number of requested frames and at most the number of files
    written since the dispatch.  A worker that has written a frame and
    finds the bar open adds exactly one when it is let through its
    [update].  As long as the bar is open and no two updates overlap, the
    counter and the frames still to do add up to the number of requested
    frames, every action leaves the counter as it is or adds one, and the
    counter is the number of requested frames once every worker has
    returned. *)
Theorem progress_counter_law w0 w1 schedule w :
  Forall (fun th => th_status th <> Running) (threads (self w0)) ->
  run w0 = (Ok tt, w1) ->
  exec tqdm_bool schedule w1 = Some w ->
  counter w1 = 0
  /\ counter w <= length (indices (self w0))
  /\ saved w1 + counter w <= saved w
  /\ (forall t th i rest pb c c',
        threads (self w) !! t = Some th -> th_status th = Running ->
        th_async th = None -> th_todo th = i :: rest -> th_pc th = AtUpdate ->
        progress_bar (self w) = Some pb -> pb_closed pb = false ->
        (forall e, c <> Fails e) ->
        EvImsave (Path.frame_path (image_folder (self w0)) i) ∈ events w
        /\ exists w' w'',
             worker_step t c w = Some w' /\ worker_step t c' w' = Some w''
             /\ counter w'' = S (counter w))
  /\ (orderly_run tqdm_bool schedule w1 = true ->
      counter w
      + remaining (drop (length (threads (self w0))) (threads (self w)))
      = length (indices (self w0))
      /\ (forall a w', act tqdm_bool a w = Some w' ->
            counter w' = counter w \/ counter w' = S (counter w))
      /\ (workers_finished (length (threads (self w0))) w ->
            counter w = length (indices (self w0)))).
Proof.
  intros Hold Hrun Hexec.
  destruct (run_establishes_inv w0 w1 Hold Hrun) as (Hzero & _ & Hinv1).
  assert (dispatch_inv (indices (self w0)) (length (threads (self w0))) w)
    as Hinv by (eapply dispatch_inv_exec; [exact Hinv1|exact Hexec]).
  assert (files_inv (indices (self w0)) (image_folder (self w0)) (saved w1)
            (length (threads (self w0))) w) as Hfiles.
  { eapply files_inv_exec; [|exact Hexec]. by apply run_establishes_files. }
  split; [done|]. split; [destruct Hinv as [_ Htotal _ _]; lia|].
  split; [by eapply counted_are_written|]. split.
  - intros t th i rest pb c c' Hth Hr Has Htodo Hpc Hpb Hcl Hc. split.
    + destruct Hinv as [Hold' _ _ _]. destruct Hfiles as [_ _ _ _ Hthreads _].
      pose proof (running_is_recent _ _ _ _ Hold' Hth Hr) as Hk.
      assert (drop (length (threads (self w0))) (threads (self w))
                !! (t - length (threads (self w0))) = Some th) as Hth'.
      { rewrite lookup_drop. by replace (_ + (t - _)) with t by lia. }
      destruct (Forall_lookup_1 _ _ _ _ Hthreads Hth') as [_ Hhead _ _].
      destruct Hhead as (i0 & rest0 & Htodo0 & Hsaved);
        [unfold counting; by rewrite Hpc|].
      rewrite Htodo in Htodo0. by injection Htodo0 as <- <-.
    + by eapply update_counts_one.
  - intros Hord.
    destruct (serial_inv_exec _ _ _ _ _ Hinv1
                (run_establishes_serial w0 w1 Hrun) Hord Hexec) as [Hser Hnow].
    split; [by destruct Hser|]. split.
    + intros a w' Hact.
      by destruct (serial_inv_act _ _ _ _ _ Hinv Hser Hnow Hact).
    + intros Hdone. destruct Hser as [Htotal _]. destruct Hinv as [_ _ _ Hfin].
      assert (remaining (drop (length (threads (self w0))) (threads (self w))) = 0)
        as Hnone.
      { unfold remaining. unfold workers_finished in Hdone. clear -Hdone Hfin.
        induction Hdone as [|th ts Hth _ IH]; [done|].
        apply Forall_cons in Hfin as [Hnil Hfin]. cbn.
        rewrite (Hnil Hth), IH by done. done. }
      lia.
Qed.

End MoreProperties.

(** ** These theorems at the concrete generator *)

Lemma keys_always_comparable_witness :
  Natural.alphanum_key "frame_10.png" = Ok Cases.key_10
  /\ Natural.alphanum_key "Frame_9.png" = Ok Cases.key_9
  /\ exists r, Natural.key_lt Cases.key_10 Cases.key_9 = Ok r.
Proof.
  assert (Natural.alphanum_key "frame_10.png" = Ok Cases.key_10) as H1
    by (vm_compute; reflexivity).
  assert (Natural.alphanum_key "Frame_9.png" = Ok Cases.key_9) as H2
    by (vm_compute; reflexivity).
  split; [exact H1|]. split; [exact H2|].
  exact (keys_always_comparable "frame_10.png" "Frame_9.png" _ _ H1 H2).
Defined.

Lemma sorted_alphanumeric_sorts_witness :
  Forall (fun s => Natural.all_chars (fun c => negb (Natural.is_superscript c)) s
                   = true) Cases.names
  /\ Forall (fun s => String.length s <= Natural.max_str_digits) Cases.names
  /\ exists out,
       Natural.sorted_alphanumeric Cases.names = Ok out
       /\ out ≡ₚ Cases.names
       /\ Natural.in_natural_order out.
Proof.
  assert (Forall (fun s => Natural.all_chars
                             (fun c => negb (Natural.is_superscript c)) s = true)
                 Cases.names) as H by (repeat constructor).
  assert (Forall (fun s => String.length s <= Natural.max_str_digits)
                 Cases.names) as H'
    by (repeat (constructor; [apply Nat.leb_le; reflexivity|]); constructor).
  split; [exact H|]. split; [exact H'|].
  destruct (sorted_alphanumeric_sorts Cases.names H H')
    as (out & Hout & Hperm & Hord & _).
  exists out. split; [exact Hout|]. split; [exact Hperm|exact Hord].
Defined.

Lemma superscript_name_raises_witness :
  Cases.superscript_two ∈ [Cases.superscript_two; "frame_2.png"%string]
  /\ Natural.nonempty Cases.superscript_two = true
  /\ Natural.all_chars Natural.is_superscript Cases.superscript_two = true
  /\ Natural.sorted_alphanumeric [Cases.superscript_two; "frame_2.png"%string]
     = Raise ValueError.
Proof.
  assert (Cases.superscript_two ∈ [Cases.superscript_two; "frame_2.png"%string])
    as H by (by left).
  split; [exact H|]. split; [reflexivity|]. split; [reflexivity|].
  exact (superscript_name_raises _ _ H eq_refl eq_refl).
Defined.

Lemma frame_files_sort_by_index_witness :
  Natural.all_chars (fun c => negb (Natural.is_ascii_digit c)) "frames" = true
  /\ Forall (fun i => (0 <= i)%Z) [10; 9; 2]%Z
  /\ Natural.sorted_alphanumeric (map (Path.frame_path "frames") [10; 9; 2]%Z)
     = Ok (map (Path.frame_path "frames")
             (Natural.sort_indices [10; 9; 2]%Z))
  /\ StronglySorted Z.le (Natural.sort_indices [10; 9; 2]%Z).
Proof.
  assert (Forall (fun i => (0 <= i)%Z) [10; 9; 2]%Z) as H
    by (repeat constructor; discriminate).
  destruct (frame_files_sort_by_index "frames" [10; 9; 2]%Z eq_refl H)
    as (Hsort & _ & Hsorted & _).
  split; [reflexivity|]. split; [exact H|]. split; [exact Hsort|exact Hsorted].
Defined.

Lemma worker_step_stays_in_its_lane_witness :
  worker_step 0 Proceed Example.dispatched = Some Cases.polling
  /\ traj (self Cases.polling) = traj (self Example.dispatched)
  /\ forall t', t' <> 0 ->
       threads (self Cases.polling) !! t' = threads (self Example.dispatched) !! t'.
Proof.
  assert (worker_step 0 Proceed Example.dispatched = Some Cases.polling) as H
    by (vm_compute; reflexivity).
  destruct (worker_step_stays_in_its_lane 0 Proceed Example.dispatched
              Cases.polling H) as (Htraj & _ & _ & _ & Hothers & _).
  split; [exact H|]. split; [exact Htraj|exact Hothers].
Defined.

Lemma poll_waits_as_long_as_it_takes_witness :
  threads (self Cases.polling) !! 0 = Some Cases.poller
  /\ th_status Cases.poller = Running
  /\ th_async Cases.poller = None
  /\ th_todo Cases.poller = [0; 2; 4]%Z
  /\ th_pc Cases.poller = AtPoll
  /\ exec Example.tqdm_bool (replicate 3 (Worker 0 NotReady)) Cases.polling
     = Some (mkWorld (self Cases.polling)
               (events Cases.polling ++ replicate 3 EvSleep)).
Proof.
  assert (threads (self Cases.polling) !! 0 = Some Cases.poller) as H
    by (vm_compute; reflexivity).
  split; [exact H|]. do 4 (split; [reflexivity|]).
  exact (poll_waits_as_long_as_it_takes Example.tqdm_bool 3 Cases.polling 0
           Cases.poller 0%Z [2; 4]%Z H eq_refl eq_refl eq_refl eq_refl).
Defined.

Lemma dead_worker_halts_its_bucket_witness :
  Forall (fun th => th_status th <> Running) (threads (self Example.constructed))
  /\ run Example.constructed = (Ok tt, Example.dispatched)
  /\ exec Example.tqdm_bool Cases.crash Example.dispatched = Some Cases.crashed
  /\ length (threads (self Example.constructed)) <= 1
  /\ threads (self Cases.crashed) !! 1 = Some Cases.dead_worker
  /\ th_status Cases.dead_worker = Died ValueError
  /\ exec Example.tqdm_bool Cases.aftermath Cases.crashed = Some Cases.after_crash
  /\ threads (self Cases.after_crash) !! 1 = Some Cases.dead_worker
  /\ (forall c, worker_step 1 c Cases.after_crash = None)
  /\ counter Cases.after_crash + length (th_todo Cases.dead_worker)
     <= length (indices (self Example.constructed)).
Proof.
  assert (Forall (fun th => th_status th <> Running)
                 (threads (self Example.constructed))) as H0 by constructor.
  assert (run Example.constructed = (Ok tt, Example.dispatched)) as H1
    by (vm_compute; reflexivity).
  assert (exec Example.tqdm_bool Cases.crash Example.dispatched
          = Some Cases.crashed) as H2 by (vm_compute; reflexivity).
  assert (length (threads (self Example.constructed)) <= 1) as H3
    by (repeat constructor).
  assert (threads (self Cases.crashed) !! 1 = Some Cases.dead_worker) as H4
    by (vm_compute; reflexivity).
  assert (exec Example.tqdm_bool Cases.aftermath Cases.crashed
          = Some Cases.after_crash) as H5 by (vm_compute; reflexivity).
  split; [exact H0|]. split; [exact H1|]. split; [exact H2|].
  split; [exact H3|]. split; [exact H4|]. split; [reflexivity|].
  split; [exact H5|].
  exact (dead_worker_halts_its_bucket Example.tqdm_bool Example.constructed
           Example.dispatched Cases.crash Cases.crashed Cases.aftermath
           Cases.after_crash 1 Cases.dead_worker ValueError
           H0 H1 H2 H3 H4 eq_refl H5).
Defined.

Lemma one_file_per_index_witness :
  NoDup Example.frame_indices
  /\ NoDup (map (Path.frame_path "frames") Example.frame_indices).
Proof.
  assert (NoDup Example.frame_indices) as H
    by (apply (bool_decide_unpack (NoDup Example.frame_indices));
        vm_compute; exact I).
  split; [exact H|].
  exact (proj2 (one_file_per_index "frames" Example.frame_indices) H).
Defined.

Lemma stop_thread_as_declared_witness :
  session Example.tqdm_bool [CallRun]
    (snd (init Example.Qmean 0%Q Example.universe "frames"
            Example.frame_indices 3 3 None None))
  = Some Example.dispatched
  /\ threads (self Example.dispatched) !! 0 = Some Cases.first_worker
  /\ th_status Cases.first_worker = Running
  /\ exists w',
       _stop_thread [ObjSelf; ObjThread 0] Example.dispatched = (Ok tt, w')
       /\ forall c,
            worker_step 0 c w'
            = Some (put_thread 0
                      (set_status (Died SystemExit)
                         (set_async (Some SystemExit) Cases.first_worker)) w').
Proof.
  assert (session Example.tqdm_bool [CallRun]
            (snd (init Example.Qmean 0%Q Example.universe "frames"
                    Example.frame_indices 3 3 None None))
          = Some Example.dispatched) as H1 by (vm_compute; reflexivity).
  assert (threads (self Example.dispatched) !! 0 = Some Cases.first_worker) as H2
    by (vm_compute; reflexivity).
  split; [exact H1|]. split; [exact H2|]. split; [reflexivity|].
  destruct (stop_thread_as_declared Example.Qmean 0%Q Example.tqdm_bool
              Example.universe "frames" Example.frame_indices 3 3 None None
              [CallRun] Example.dispatched 0 Cases.first_worker H1 H2 eq_refl)
    as (w' & Hstop & _ & _ & Hnext).
  exists w'. split; [exact Hstop|exact Hnext].
Defined.

Lemma stop_thread_of_stopped_worker_witness :
  threads (self Cases.crashed) !! 1 = Some Cases.dead_worker
  /\ th_ident Cases.dead_worker = Some 1
  /\ Forall (fun th' => th_status th' = Running -> th_ident th' <> Some 1)
            (threads (self Cases.crashed))
  /\ _stop_thread [ObjSelf; ObjThread 1] Cases.crashed
     = (Raise ValueError,
        mkWorld (self Cases.crashed)
          (events Cases.crashed ++ [EvSetAsyncExc 1 (Some SystemExit)])).
Proof.
  assert (threads (self Cases.crashed) !! 1 = Some Cases.dead_worker) as H1
    by (vm_compute; reflexivity).
  assert (Forall (fun th' => th_status th' = Running -> th_ident th' <> Some 1)
                 (threads (self Cases.crashed))) as H2.
  { vm_compute.
    repeat (constructor;
              [intros Hr Hi; first [discriminate Hr|discriminate Hi]|]).
    constructor. }
  split; [exact H1|]. split; [reflexivity|]. split; [exact H2|].
  exact (proj1 (stop_thread_of_stopped_worker Cases.crashed 1 Cases.dead_worker
                  1 H1 eq_refl H2)).
Defined.

Lemma workers_die_only_of_failures_witness :
  session Example.tqdm_bool [CallRun]
    (snd (init Example.Qmean 0%Q Example.universe "frames"
            Example.frame_indices 3 3 None None))
  = Some Example.dispatched
  /\ worker_step 0 Proceed Example.dispatched = Some Cases.polling
  /\ (forall e, Proceed <> Fails e)
  /\ exists th',
       threads (self Cases.polling) !! 0 = Some th'
       /\ (th_status th' = Running \/ th_status th' = Finished).
Proof.
  assert (session Example.tqdm_bool [CallRun]
            (snd (init Example.Qmean 0%Q Example.universe "frames"
                    Example.frame_indices 3 3 None None))
          = Some Example.dispatched) as H1 by (vm_compute; reflexivity).
  assert (worker_step 0 Proceed Example.dispatched = Some Cases.polling) as H2
    by (vm_compute; reflexivity).
  assert (forall e, Proceed <> Fails e) as H3 by discriminate.
  split; [exact H1|]. split; [exact H2|]. split; [exact H3|].
  exact (workers_die_only_of_failures Example.Qmean 0%Q Example.tqdm_bool
           Example.universe "frames" Example.frame_indices 3 3 None None
           [CallRun] Example.dispatched 0 Proceed Cases.polling H1 H2 H3).
Defined.

Lemma second_run_shares_the_views_witness :
  run Example.constructed = (Ok tt, Example.dispatched)
  /\ run Example.dispatched = (Ok tt, Cases.dispatched_twice)
  /\ length (threads (self Cases.dispatched_twice))
     = length (threads (self Example.constructed))
       + 2 * length (views (self Example.constructed))
  /\ progress_bar (self Cases.dispatched_twice)
     = Some (mkBar (length (indices (self Example.constructed))) 0 false).
Proof.
  assert (run Example.constructed = (Ok tt, Example.dispatched)) as H1
    by (vm_compute; reflexivity).
  assert (run Example.dispatched = (Ok tt, Cases.dispatched_twice)) as H2
    by (vm_compute; reflexivity).
  destruct (second_run_shares_the_views Example.constructed Example.dispatched
              Cases.dispatched_twice H1 H2) as (Hlen & Hbar & _).
  split; [exact H1|]. split; [exact H2|]. split; [exact Hlen|exact Hbar].
Defined.

Lemma workers_write_their_buckets_in_order_witness :
  Forall (fun th => th_status th <> Running) (threads (self Example.constructed))
  /\ run Example.constructed = (Ok tt, Example.dispatched)
  /\ exec Example.tqdm_bool (Example.one_frame 0) Example.dispatched
     = Some Cases.one_done
  /\ length (threads (self Example.constructed)) <= 0
  /\ threads (self Cases.one_done) !! 0 = Some Cases.second_frame
  /\ exists done,
       th_bucket Cases.second_frame = done ++ th_todo Cases.second_frame
       /\ Forall (fun i => EvImsave
                             (Path.frame_path
                                (image_folder (self Example.constructed)) i)
                           ∈ events Cases.one_done) done.
Proof.
  assert (Forall (fun th => th_status th <> Running)
                 (threads (self Example.constructed))) as H0 by constructor.
  assert (run Example.constructed = (Ok tt, Example.dispatched)) as H1
    by (vm_compute; reflexivity).
  assert (exec Example.tqdm_bool (Example.one_frame 0) Example.dispatched
          = Some Cases.one_done) as H2 by (vm_compute; reflexivity).
  assert (length (threads (self Example.constructed)) <= 0) as H3
    by (repeat constructor).
  assert (threads (self Cases.one_done) !! 0 = Some Cases.second_frame) as H4
    by (vm_compute; reflexivity).
  split; [exact H0|]. split; [exact H1|]. split; [exact H2|].
  split; [exact H3|]. split; [exact H4|].
  exact (proj1 (workers_write_their_buckets_in_order Example.tqdm_bool
                  Example.constructed Example.dispatched (Example.one_frame 0)
                  Cases.one_done 0 Cases.second_frame H0 H1 H2 H3 H4)).
Defined.

Lemma finished_dispatch_has_every_file_witness :
  Forall (fun th => th_status th <> Running) (threads (self Example.constructed))
  /\ run Example.constructed = (Ok tt, Example.dispatched)
  /\ exec Example.tqdm_bool Example.full_schedule Example.dispatched
     = Some Example.completed
  /\ workers_finished (length (threads (self Example.constructed)))
       Example.completed
  /\ exists image_files,
       make_movie "movie.mp4" 30 Example.completed
       = (Ok tt,
          mkWorld (self Example.completed)
            (events Example.completed
             ++ [EvWriteVideo image_files 30 "movie.mp4" "libx264"]))
       /\ length image_files = length (indices (self Example.constructed))
       /\ Forall (fun path => EvImsave path ∈ events Example.completed)
                 image_files
       /\ saved Example.completed
          = saved Example.dispatched
            + length (indices (self Example.constructed)).
Proof.
  assert (Forall (fun th => th_status th <> Running)
                 (threads (self Example.constructed))) as H0 by constructor.
  assert (run Example.constructed = (Ok tt, Example.dispatched)) as H1
    by (vm_compute; reflexivity).
  assert (exec Example.tqdm_bool Example.full_schedule Example.dispatched
          = Some Example.completed) as H2 by (vm_compute; reflexivity).
  assert (workers_finished (length (threads (self Example.constructed)))
            Example.completed) as H3
    by (unfold workers_finished; vm_compute; repeat constructor).
  split; [exact H0|]. split; [exact H1|]. split; [exact H2|]. split; [exact H3|].
  exact (finished_dispatch_has_every_file Example.tqdm_bool Example.constructed
           Example.dispatched Example.full_schedule Example.completed
           "movie.mp4" 30 H0 H1 H2 H3).
Defined.

Lemma written_file_shows_its_frame_witness :
  Forall (fun th => th_status th <> Running) (threads (self Example.constructed))
  /\ run Example.constructed = (Ok tt, Example.dispatched)
  /\ exec Example.tqdm_bool [Worker 0 Proceed; Worker 0 Proceed]
       Example.dispatched
     = Some Cases.saving
  /\ worker_step 0 Proceed Cases.saving = Some Cases.saved_first
  /\ events Cases.saved_first
     = events Cases.saving ++ [EvImsave (Path.frame_path "frames" 0)]
  /\ exists th i v,
       threads (self Cases.saving) !! 0 = Some th
       /\ Path.frame_path "frames" 0
          = Path.frame_path (image_folder (self Example.constructed)) i
       /\ views (self Cases.saving) !! th_view th = Some v
       /\ view_frame v = Some i.
Proof.
  assert (Forall (fun th => th_status th <> Running)
                 (threads (self Example.constructed))) as H0 by constructor.
  assert (run Example.constructed = (Ok tt, Example.dispatched)) as H1
    by (vm_compute; reflexivity).
  assert (exec Example.tqdm_bool [Worker 0 Proceed; Worker 0 Proceed]
            Example.dispatched
          = Some Cases.saving) as H2 by (vm_compute; reflexivity).
  assert (worker_step 0 Proceed Cases.saving = Some Cases.saved_first) as H3
    by (vm_compute; reflexivity).
  assert (events Cases.saved_first
          = events Cases.saving ++ [EvImsave (Path.frame_path "frames" 0)]) as H4
    by (vm_compute; reflexivity).
  split; [exact H0|]. split; [exact H1|]. split; [exact H2|].
  split; [exact H3|]. split; [exact H4|].
  destruct (written_file_shows_its_frame Example.tqdm_bool Example.constructed
              Example.dispatched [Worker 0 Proceed; Worker 0 Proceed]
              Cases.saving 0 Proceed Cases.saved_first
              (Path.frame_path "frames" 0) H0 H1 H2 H3 H4)
    as (th & i & v & Hth & Hpath & Hv & Hf & _).
  exists th, i, v. split; [exact Hth|]. split; [exact Hpath|].
  split; [exact Hv|exact Hf].
Defined.

Lemma wide_window_freezes_trajectory_witness :
  in_memory (traj (self Cases.wide)) = true
  /\ (1 < smoothing_window (self Cases.wide))%Z
  /\ (Z.of_nat (length (frames (traj (self Cases.wide)))) - 1
      <= smoothing_window (self Cases.wide) / 2)%Z
  /\ exists w',
       smooth_trajectory Example.Qmean 0%Q Cases.wide = (Ok tt, w')
       /\ frames (traj (self w'))
          = replicate 5
              (Spec.mean_positions Example.Qmean 0%Q 2 (frames Example.universe)).
Proof.
  assert ((1 < smoothing_window (self Cases.wide))%Z) as H1 by reflexivity.
  assert ((Z.of_nat (length (frames (traj (self Cases.wide)))) - 1
           <= smoothing_window (self Cases.wide) / 2)%Z) as H2 by discriminate.
  split; [reflexivity|]. split; [exact H1|]. split; [exact H2|].
  exact (wide_window_freezes_trajectory Example.Qmean 0%Q Cases.wide eq_refl
           H1 H2).
Defined.

Lemma dispatch_can_complete_witness :
  Forall (fun th => th_status th <> Running) (threads (self Example.constructed))
  /\ run Example.constructed = (Ok tt, Example.dispatched)
  /\ exists w,
       exec Example.tqdm_bool
         (one_by_one (length (threads (self Example.constructed)))
            (drop (length (threads (self Example.constructed)))
               (threads (self Example.dispatched))))
         Example.dispatched
       = Some w
       /\ workers_finished (length (threads (self Example.constructed))) w
       /\ counter w = length (indices (self Example.constructed)).
Proof.
  assert (Forall (fun th => th_status th <> Running)
                 (threads (self Example.constructed))) as H0 by constructor.
  assert (run Example.constructed = (Ok tt, Example.dispatched)) as H1
    by (vm_compute; reflexivity).
  split; [exact H0|]. split; [exact H1|].
  exact (dispatch_can_complete Example.tqdm_bool Example.constructed
           Example.dispatched H0 H1).
Defined.

Lemma progress_counter_law_witness :
  Forall (fun th => th_status th <> Running) (threads (self Example.constructed))
  /\ run Example.constructed = (Ok tt, Example.dispatched)
  /\ exec Example.tqdm_bool Example.full_schedule Example.dispatched
     = Some Example.completed
  /\ orderly_run Example.tqdm_bool Example.full_schedule Example.dispatched
     = true
  /\ workers_finished (length (threads (self Example.constructed)))
       Example.completed
  /\ counter Example.dispatched = 0
  /\ saved Example.dispatched + counter Example.completed
     <= saved Example.completed
  /\ counter Example.completed = length (indices (self Example.constructed))
  /\ exec Example.tqdm_bool (Cases.to_update 0) Example.dispatched
     = Some Cases.saved_first
  /\ threads (self Cases.saved_first) !! 0 = Some Cases.counting_worker
  /\ progress_bar (self Cases.saved_first) = Some Cases.fresh_bar
  /\ EvImsave (Path.frame_path (image_folder (self Example.constructed)) 0)
     ∈ events Cases.saved_first
  /\ exists w' w'',
       worker_step 0 Proceed Cases.saved_first = Some w'
       /\ worker_step 0 Proceed w' = Some w''
       /\ counter w'' = S (counter Cases.saved_first).
Proof.
  assert (Forall (fun th => th_status th <> Running)
                 (threads (self Example.constructed))) as H0 by constructor.
  assert (run Example.constructed = (Ok tt, Example.dispatched)) as H1
    by (vm_compute; reflexivity).
  assert (exec Example.tqdm_bool Example.full_schedule Example.dispatched
          = Some Example.completed) as H2 by (vm_compute; reflexivity).
  assert (orderly_run Example.tqdm_bool Example.full_schedule Example.dispatched
          = true) as H3 by (vm_compute; reflexivity).
  assert (workers_finished (length (threads (self Example.constructed)))
            Example.completed) as H4
    by (unfold workers_finished; vm_compute; repeat constructor).
  assert (exec Example.tqdm_bool (Cases.to_update 0) Example.dispatched
          = Some Cases.saved_first) as H5 by (vm_compute; reflexivity).
  assert (threads (self Cases.saved_first) !! 0 = Some Cases.counting_worker)
    as H6 by (vm_compute; reflexivity).
  assert (progress_bar (self Cases.saved_first) = Some Cases.fresh_bar) as H7
    by (vm_compute; reflexivity).
  assert (forall e, Proceed <> Fails e) as H8 by discriminate.
  destruct (progress_counter_law Example.tqdm_bool Example.constructed
              Example.dispatched Example.full_schedule Example.completed
              H0 H1 H2) as (Hzero & _ & Hfiles & _ & Hserial).
  destruct (Hserial H3) as (_ & _ & Hall).
  destruct (progress_counter_law Example.tqdm_bool Example.constructed
              Example.dispatched (Cases.to_update 0) Cases.saved_first
              H0 H1 H5) as (_ & _ & _ & Hone & _).
  destruct (Hone 0 Cases.counting_worker 0%Z [2; 4]%Z Cases.fresh_bar
              Proceed Proceed H6 eq_refl eq_refl eq_refl eq_refl H7 eq_refl H8)
    as [Hfile Hcount].
  split; [exact H0|]. split; [exact H1|]. split; [exact H2|].
  split; [exact H3|]. split; [exact H4|]. split; [exact Hzero|].
  split; [exact Hfiles|]. split; [exact (Hall H4)|]. split; [exact H5|].
  split; [exact H6|]. split; [exact H7|]. split; [exact Hfile|exact Hcount].
Defined.
